(** * DynamicArray<T>: a shallow embedding of DynamicArray.h

    The container is embedded over an explicit store: a heap of storage
    blocks (what [::operator new] hands out) and, for the operations that take
    a second container, a store of container objects.  Member functions are
    written in a small state-and-outcome monad and follow the C++ text line by
    line; [std::size_t] arithmetic is 64-bit with its wrap-around written
    out. *)

From stdpp Require Import base numbers option list gmap.
From Stdlib Require Import ZArith Lia.

Local Open Scope Z_scope.

(** ** std::size_t *)

Definition SIZE_MAX : Z := 2 ^ 64 - 1.

(** Unsigned 64-bit arithmetic: every [+] and [-] on [std::size_t] goes
    through [wrap]. *)
Definition wrap (z : Z) : Z := z mod 2 ^ 64.

(** [static_cast<std::size_t>(-1)] *)
Definition INDEX_NONE : Z := wrap (-1).

Definition is_size_t (z : Z) : Prop := 0 ≤ z ≤ SIZE_MAX.

(** ** Outcomes of running C++ code

    A call either returns, throws (the state reached when the exception
    leaves is kept), or has undefined behaviour. *)

Inductive exn := out_of_range | bad_alloc.

Inductive outcome (S A : Type) : Type :=
  | Ok (a : A) (s : S)
  | Throw (e : exn) (s : S)
  | Undefined.
Arguments Ok {S A} a s.
Arguments Throw {S A} e s.
Arguments Undefined {S A}.

Definition M (S A : Type) : Type := S → outcome S A.

Definition M_ret {S A} (a : A) : M S A := λ s, Ok a s.

Definition M_bind {S A B} (f : A → M S B) (m : M S A) : M S B :=
  λ s, match m s with
       | Ok a s' => f a s'
       | Throw e s' => Throw e s'
       | Undefined => Undefined
       end.

#[global] Instance M_mret {S} : MRet (M S) := @M_ret S.
#[global] Instance M_mbind {S} : MBind (M S) := @M_bind S.

Definition throw {S A} (e : exn) : M S A := λ s, Throw e s.

(** [wp m s Q E]: running [m] from [s] has defined behaviour; it returns in a
    state satisfying [Q] or throws in a state satisfying [E]. *)
Definition wp {S A} (m : M S A) (s : S)
    (Q : A → S → Prop) (E : exn → S → Prop) : Prop :=
  match m s with
  | Ok a s' => Q a s'
  | Throw e s' => E e s'
  | Undefined => False
  end.

(** ** Requirements on the element type *)

Class Element (T : Type) := {
  T_default : T;                         (* T{} *)
  T_eq : T → T → bool;                   (* operator== *)
  T_ne : T → T → bool;                   (* operator!= *)
  T_cmp : T → T → comparison;            (* operator<=>, a strong ordering *)
  nothrow_move_constructible : bool;     (* std::is_nothrow_move_constructible_v<T> *)
  copy_constructible : bool;             (* std::is_copy_constructible_v<T> *)
}.

(** ** Storage

    A block is the array of slots one allocation provides; a slot is [None]
    while it is raw memory and [Some v] while an object of value [v] lives in
    it.  A [T*] that points at the start of a block is [Some a]; [nullptr]
    is [None]; [p + i] is passed as the pair of [p] and [i]. *)

Abbreviation ptr := (option positive).

(** A [T&]: the block and the slot it designates. *)
Record ref := Ref { ref_block : ptr; ref_index : Z }.

Record DynamicArray := Fields {
  m_data : ptr;
  m_size : Z;
  m_capacity : Z;
}.

Section Storage.
Context {T : Type}.

Abbreviation block := (list (option T)).
Abbreviation heap := (gmap positive (list (option T))).

Definition in_block (blk : block) (first n : Z) : bool :=
  bool_decide (0 ≤ first ∧ 0 ≤ n ∧ first + n ≤ Z.of_nat (length blk)).

Definition slice (blk : block) (first n : Z) : block :=
  take (Z.to_nat n) (drop (Z.to_nat first) blk).

Definition splice (blk : block) (first : Z) (mid : block) : block :=
  take (Z.to_nat first) blk ++ mid ++ drop (Z.to_nat first + length mid) blk.

Definition all_live (l : block) : bool := forallb (λ o : option T, bool_decide (is_Some o)) l.

Definition values (l : block) : list T := omap id l.

(** [p[i]] read as a value. *)
Definition heap_load (h : heap) (p : ptr) (i : Z) : option T :=
  a ← p; blk ← h !! a;
  if bool_decide (0 ≤ i) then mjoin (blk !! Z.to_nat i) else None.

(** [std::construct_at(p + i, v)] *)
Definition heap_construct_at (h : heap) (p : ptr) (i : Z) (v : T) : option heap :=
  a ← p; blk ← h !! a;
  if in_block blk i 1 then Some (<[a := <[Z.to_nat i := Some v]> blk]> h) else None.

(** [std::destroy_at(p + i)]: the slot must hold an object. *)
Definition heap_destroy_at (h : heap) (p : ptr) (i : Z) : option heap :=
  a ← p; blk ← h !! a;
  if in_block blk i 1 then
    if all_live (slice blk i 1)
    then Some (<[a := <[Z.to_nat i := None]> blk]> h) else None
  else None.

(** [std::destroy_n(p + first, n)]: nothing happens for [n = 0] (also on a
    null pointer); otherwise the [n] slots must lie in the block and hold
    objects. *)
Definition heap_destroy_n (h : heap) (p : ptr) (first n : Z) : option heap :=
  if bool_decide (n = 0) then Some h
  else
    a ← p; blk ← h !! a;
    if in_block blk first n then
      if all_live (slice blk first n)
      then Some (<[a := splice blk first (replicate (Z.to_nat n) None)]> h)
      else None
    else None.

(** [std::uninitialized_fill_n(p + first, n, v)] *)
Definition heap_fill_n (h : heap) (p : ptr) (first n : Z) (v : T) : option heap :=
  if bool_decide (n = 0) then Some h
  else
    a ← p; blk ← h !! a;
    if in_block blk first n
    then Some (<[a := splice blk first (replicate (Z.to_nat n) (Some v))]> h)
    else None.

(** The values of the [n] objects at [p + first]. *)
Definition heap_read_n (h : heap) (p : ptr) (first n : Z) : option (list T) :=
  if bool_decide (n = 0) then Some []
  else
    a ← p; blk ← h !! a;
    if in_block blk first n then
      if all_live (slice blk first n)
      then Some (values (slice blk first n)) else None
    else None.

(** Constructing objects with the values [vs] at [p + first]. *)
Definition heap_write_n (h : heap) (p : ptr) (first : Z) (vs : list T) : option heap :=
  if bool_decide (vs = []) then Some h
  else
    a ← p; blk ← h !! a;
    if in_block blk first (Z.of_nat (length vs))
    then Some (<[a := splice blk first (Some <$> vs)]> h)
    else None.

(** [std::uninitialized_copy_n(src + sfirst, n, dest + dfirst)]; source and
    destination ranges do not overlap in any call of the container, and the
    source objects stay alive. *)
Definition heap_copy_n (h : heap) (src : ptr) (sfirst n : Z) (dest : ptr) (dfirst : Z)
    : option heap :=
  vs ← heap_read_n h src sfirst n; heap_write_n h dest dfirst vs.

(** [allocate]: [nullptr] for a capacity of 0, else a block of [capacity] raw
    slots at an address not in use.  [::operator new] is taken to succeed and
    to provide the [capacity] slots asked for; [Exact.heap_allocate] below
    has the byte count [capacity * sizeof(T)] and [std::bad_alloc]. *)
Definition heap_allocate (h : heap) (capacity : Z) : ptr * heap :=
  if bool_decide (capacity = 0) then (None, h)
  else
    let a := fresh (dom h) in
    (Some a, <[a := replicate (Z.to_nat capacity) None]> h).

(** [deallocate]: [nullptr] is skipped, anything else must be an allocated
    block. *)
Definition heap_deallocate (h : heap) (p : ptr) : option heap :=
  match p with
  | None => Some h
  | Some a => if bool_decide (is_Some (h !! a)) then Some (delete a h) else None
  end.

End Storage.

(** ** The container's member functions *)

Section Container.
Context {T : Type} `{!Element T}.

(** What a member function runs on: the fields of [*this] and the heap. *)
Record state := St { self : DynamicArray; mem : gmap positive (list (option T)) }.

(** A [std::initializer_list<T>]: [begin()] and [size()] of its backing
    array, which lives in the heap like any other array. *)
Record initializer_list := IList { il_begin : ptr; il_size : Z }.

(** Reading and writing the fields of [*this]. *)
Definition get {A} (field : DynamicArray → A) : M state A :=
  λ s, Ok (field (self s)) s.

Definition set_data (p : ptr) : M state unit :=
  λ s, Ok tt (St (Fields p (m_size (self s)) (m_capacity (self s))) (mem s)).
Definition set_size (n : Z) : M state unit :=
  λ s, Ok tt (St (Fields (m_data (self s)) n (m_capacity (self s))) (mem s)).
Definition set_capacity (n : Z) : M state unit :=
  λ s, Ok tt (St (Fields (m_data (self s)) (m_size (self s)) n) (mem s)).

(** The library functions and the allocator, acting on the heap. *)
Definition on_heap
    (f : gmap positive (list (option T)) → option (gmap positive (list (option T))))
    : M state unit :=
  λ s, match f (mem s) with
       | Some h' => Ok tt (St (self s) h')
       | None => Undefined
       end.

Definition load (p : ptr) (i : Z) : M state T :=
  λ s, match heap_load (mem s) p i with
       | Some v => Ok v s
       | None => Undefined
       end.

Definition construct_at (p : ptr) (i : Z) (v : T) : M state unit :=
  on_heap (λ h, heap_construct_at h p i v).
Definition destroy_at (p : ptr) (i : Z) : M state unit :=
  on_heap (λ h, heap_destroy_at h p i).
Definition destroy_n (p : ptr) (first n : Z) : M state unit :=
  on_heap (λ h, heap_destroy_n h p first n).
Definition uninitialized_fill_n (p : ptr) (first n : Z) (v : T) : M state unit :=
  on_heap (λ h, heap_fill_n h p first n v).
Definition uninitialized_copy_n (src : ptr) (n : Z) (dest : ptr) (dfirst : Z) : M state unit :=
  on_heap (λ h, heap_copy_n h src 0 n dest dfirst).
(** Moving leaves the source objects alive (they are destroyed afterwards by
    the caller); on values it transfers what copying transfers. *)
Definition uninitialized_move_n (src : ptr) (n : Z) (dest : ptr) : M state unit :=
  on_heap (λ h, heap_copy_n h src 0 n dest 0).

Definition allocate (capacity : Z) : M state ptr :=
  λ s, let '(p, h') := heap_allocate (mem s) capacity in Ok p (St (self s) h').
Definition deallocate (p : ptr) : M state unit :=
  on_heap (λ h, heap_deallocate h p).

(** *** Private helpers *)

Definition checkRange (index : Z) (allowEnd : bool) : M state unit :=
  sz ← get m_size;
  if bool_decide (index >= wrap (sz + (if allowEnd then 1 else 0)))
  then throw out_of_range
  else mret tt.

Definition replaceStorage (newData : ptr) (newSize newCapacity : Z) : M state unit :=
  d ← get m_data; sz ← get m_size;
  destroy_n d 0 sz;;
  d ← get m_data;
  deallocate d;;
  set_data newData;;
  set_size newSize;;
  set_capacity newCapacity.

Definition tidy : M state unit := replaceStorage None 0 0.

Definition reallocate (newCapacity : Z) : M state unit :=
  newData ← allocate newCapacity;
  sz ← get m_size;
  let newSize := Z.min sz newCapacity in
  d ← get m_data;
  (if nothrow_move_constructible || negb copy_constructible
   then uninitialized_move_n d newSize newData
   else uninitialized_copy_n d newSize newData 0);;
  replaceStorage newData newSize newCapacity.

Definition ensureCapacity (minCapacity : Z) : M state unit :=
  cap ← get m_capacity;
  if bool_decide (minCapacity ≤ cap) then mret tt
  else
    let newCapacity := wrap (cap + cap / 2) in
    let newCapacity :=
      if bool_decide (cap > SIZE_MAX - cap / 2) then SIZE_MAX else newCapacity in
    let newCapacity :=
      if bool_decide (newCapacity < minCapacity) then minCapacity else newCapacity in
    reallocate newCapacity.

Definition assign (src : ptr) (count : Z) : M state unit :=
  cap ← get m_capacity;
  if bool_decide (count ≤ cap) then
    d ← get m_data; sz ← get m_size;
    destroy_n d 0 sz;;
    (if bool_decide (count > 0)
     then d ← get m_data; uninitialized_copy_n src count d 0
     else mret tt);;
    set_size count
  else
    newData ← allocate count;
    (if bool_decide (count > 0)
     then uninitialized_copy_n src count newData 0
     else mret tt);;
    replaceStorage newData count count.

(** [for (i = moveCount; i-- > 0;)]: the argument counts down. *)
Fixpoint shiftRight_loop (index count : Z) (i : nat) : M state unit :=
  match i with
  | O => mret tt
  | S i' =>
      let src := wrap (index + Z.of_nat i') in
      let dest := wrap (src + count) in
      d ← get m_data; v ← load d src;
      construct_at d dest v;;
      destroy_at d src;;
      shiftRight_loop index count i'
  end.

Definition shiftRight (index count : Z) : M state unit :=
  sz ← get m_size;
  let moveCount := wrap (sz - index) in
  shiftRight_loop index count (Z.to_nat moveCount).

(** [for (i = 0; i < moveCount; ++i)]: [left] iterations remain. *)
Fixpoint shiftLeft_loop (index count i : Z) (left : nat) : M state unit :=
  match left with
  | O => mret tt
  | S left' =>
      let src := wrap (wrap (index + count) + i) in
      let dest := wrap (index + i) in
      d ← get m_data; v ← load d src;
      construct_at d dest v;;
      destroy_at d src;;
      shiftLeft_loop index count (wrap (i + 1)) left'
  end.

Definition shiftLeft (index count : Z) : M state unit :=
  sz ← get m_size;
  let moveCount := wrap (wrap (sz - index) - count) in
  shiftLeft_loop index count 0 (Z.to_nat moveCount).

(** *** Constructors (run on the object a default member initialisation
    leaves: [m_data(nullptr), m_size(0), m_capacity(0)]) *)

Definition empty_array : DynamicArray := Fields None 0 0.

(** [DynamicArray(std::size_t count, const T& value)] *)
Definition ctor_fill (count : Z) (value : T) : M state unit :=
  if bool_decide (count > 0) then
    newData ← allocate count;
    set_data newData;;
    set_capacity count;;
    d ← get m_data;
    uninitialized_fill_n d 0 count value;;
    set_size count
  else mret tt.

(** [DynamicArray(std::size_t count)], delegating with [T{}] *)
Definition ctor_sized (count : Z) : M state unit := ctor_fill count T_default.

(** [DynamicArray(std::initializer_list<T> init)] *)
Definition ctor_ilist (init : initializer_list) : M state unit :=
  assign (il_begin init) (il_size init).

(** [DynamicArray(const DynamicArray& other)]: it reads [other.m_data] and
    [other.m_size]. *)
Definition ctor_copy (other : DynamicArray) : M state unit :=
  assign (m_data other) (m_size other).

(** [~DynamicArray()] *)
Definition dtor : M state unit := tidy.

(** [operator=(std::initializer_list<T> ilist)] *)
Definition assign_ilist (ilist : initializer_list) : M state unit :=
  assign (il_begin ilist) (il_size ilist).

(** *** Element access and queries *)

(** [operator[]], const or not: the reference [m_data[index]]. *)
Definition subscript (index : Z) : M state ref :=
  checkRange index false;;
  d ← get m_data;
  mret (Ref d index).

Definition Data : M state ptr := get m_data.

Definition IsEmpty : M state bool := sz ← get m_size; mret (bool_decide (sz = 0)).
Definition Size : M state Z := get m_size.
Definition Capacity : M state Z := get m_capacity.

(** *** Capacity *)

Definition Reserve (newCapacity : Z) : M state unit :=
  cap ← get m_capacity;
  if bool_decide (newCapacity > cap) then reallocate newCapacity else mret tt.

Definition Shrink : M state unit :=
  sz ← get m_size; cap ← get m_capacity;
  if bool_decide (sz = cap) then mret tt
  else if bool_decide (sz = 0) then tidy
  else sz ← get m_size; reallocate sz.

(** *** Insertion

    An argument of type [const T&] or [T&&] is passed as the value [x] it
    refers to: it is taken to refer to an object outside the container's
    storage, whose value the call does not change.  [Emplace_ref] is
    [Emplace] with the argument as a reference, read where the C++ reads it;
    it agrees with [Emplace] on references to outside objects.  The module
    [Exact] below has every function with such an argument in that form. *)

Definition Emplace (x : T) : M state ref :=
  sz ← get m_size;
  ensureCapacity (wrap (sz + 1));;
  d ← get m_data; sz ← get m_size;
  construct_at d sz x;;
  set_size (wrap (sz + 1));;
  mret (Ref d sz).

(** Both overloads of [Add] forward to [Emplace] and return nothing. *)
Definition Add (value : T) : M state unit :=
  Emplace value;; mret tt.

Definition Emplace_ref (arg : ref) : M state ref :=
  sz ← get m_size;
  ensureCapacity (wrap (sz + 1));;
  d ← get m_data; sz ← get m_size;
  x ← load (ref_block arg) (ref_index arg);
  construct_at d sz x;;
  set_size (wrap (sz + 1));;
  mret (Ref d sz).

Definition Add_ref (value : ref) : M state unit :=
  Emplace_ref value;; mret tt.

Definition AddRange (ilist : initializer_list) : M state unit :=
  let count := il_size ilist in
  if bool_decide (count = 0) then mret tt
  else
    sz ← get m_size;
    ensureCapacity (wrap (sz + count));;
    d ← get m_data; sz ← get m_size;
    uninitialized_copy_n (il_begin ilist) count d sz;;
    set_size (wrap (sz + count)).

Definition EmplaceAt (index : Z) (x : T) : M state ref :=
  checkRange index true;;
  sz ← get m_size;
  ensureCapacity (wrap (sz + 1));;
  shiftRight index 1;;
  d ← get m_data;
  construct_at d index x;;
  sz ← get m_size;
  set_size (wrap (sz + 1));;
  mret (Ref d index).

Definition Insert (index : Z) (value : T) : M state unit :=
  EmplaceAt index value;; mret tt.

Definition InsertRange (index : Z) (ilist : initializer_list) : M state unit :=
  checkRange index true;;
  let count := il_size ilist in
  if bool_decide (count = 0) then mret tt
  else
    sz ← get m_size;
    ensureCapacity (wrap (sz + count));;
    shiftRight index count;;
    d ← get m_data;
    uninitialized_copy_n (il_begin ilist) count d index;;
    sz ← get m_size;
    set_size (wrap (sz + count)).

(** *** Lookup *)

Fixpoint FindIf_loop (pred : T → bool) (i : Z) (left : nat) : M state Z :=
  match left with
  | O => mret INDEX_NONE
  | S left' =>
      d ← get m_data; v ← load d i;
      if pred v then mret i else FindIf_loop pred (wrap (i + 1)) left'
  end.

Definition FindIf (pred : T → bool) : M state Z :=
  sz ← get m_size; FindIf_loop pred 0 (Z.to_nat sz).

Definition Find (value : T) : M state Z :=
  sz ← get m_size; FindIf_loop (λ v, T_eq v value) 0 (Z.to_nat sz).

(** [for (i = m_size; i-- > 0;)] *)
Fixpoint FindLastIf_loop (pred : T → bool) (i : nat) : M state Z :=
  match i with
  | O => mret INDEX_NONE
  | S i' =>
      d ← get m_data; v ← load d (Z.of_nat i');
      if pred v then mret (Z.of_nat i') else FindLastIf_loop pred i'
  end.

Definition FindLastIf (pred : T → bool) : M state Z :=
  sz ← get m_size; FindLastIf_loop pred (Z.to_nat sz).

Definition FindLast (value : T) : M state Z :=
  sz ← get m_size; FindLastIf_loop (λ v, T_eq v value) (Z.to_nat sz).

Definition Contains (value : T) : M state bool :=
  i ← Find value; mret (bool_decide (i ≠ INDEX_NONE)).

Definition ContainsIf (pred : T → bool) : M state bool :=
  i ← FindIf pred; mret (bool_decide (i ≠ INDEX_NONE)).

(** *** Removal *)

Definition RemoveAt (index : Z) : M state unit :=
  checkRange index false;;
  d ← get m_data;
  destroy_at d index;;
  shiftLeft index 1;;
  sz ← get m_size;
  set_size (wrap (sz - 1)).

Definition Remove (value : T) : M state bool :=
  index ← Find value;
  if bool_decide (index ≠ INDEX_NONE)
  then RemoveAt index;; mret true
  else mret false.

Definition RemoveRange (index count : Z) : M state unit :=
  checkRange index false;;
  if bool_decide (count = 0) then mret tt
  else
    sz ← get m_size;
    let count := if bool_decide (wrap (index + count) > sz) then wrap (sz - index) else count in
    d ← get m_data;
    destroy_n d index count;;
    shiftLeft index count;;
    sz ← get m_size;
    set_size (wrap (sz - count)).

(** [for (read = 0; read < m_size; ++read)]: [left] iterations remain; the
    result is the final [write]. *)
Fixpoint RemoveAll_loop (pred : T → bool) (read write : Z) (left : nat) : M state Z :=
  match left with
  | O => mret write
  | S left' =>
      d ← get m_data; v ← load d read;
      if negb (pred v) then
        (if bool_decide (write ≠ read)
         then d ← get m_data; v ← load d read;
              construct_at d write v;;
              destroy_at d read
         else mret tt);;
        RemoveAll_loop pred (wrap (read + 1)) (wrap (write + 1)) left'
      else
        d ← get m_data;
        destroy_at d read;;
        RemoveAll_loop pred (wrap (read + 1)) write left'
  end.

Definition RemoveAll (pred : T → bool) : M state Z :=
  sz ← get m_size;
  write ← RemoveAll_loop pred 0 0 (Z.to_nat sz);
  sz ← get m_size;
  let removed := wrap (sz - write) in
  set_size write;;
  mret removed.

Definition Clear : M state unit :=
  d ← get m_data; sz ← get m_size;
  destroy_n d 0 sz;;
  set_size 0.

(** [Resize(std::size_t newSize, const T& value)] *)
Definition Resize_with (newSize : Z) (value : T) : M state unit :=
  sz ← get m_size;
  (if bool_decide (newSize < sz) then
     d ← get m_data;
     destroy_n d newSize (wrap (sz - newSize))
   else if bool_decide (newSize > sz) then
     ensureCapacity newSize;;
     d ← get m_data; sz ← get m_size;
     uninitialized_fill_n d sz (wrap (newSize - sz)) value
   else mret tt);;
  set_size newSize.

(** [Resize(std::size_t newSize)], delegating with [T{}] *)
Definition Resize (newSize : Z) : M state unit := Resize_with newSize T_default.

End Container.

(** ** Several containers: a store of objects

    Copying, moving, swapping and comparing involve a second container, and
    assignment asks whether both are the same object, so containers are
    objects at addresses. *)

Section Objects.
Context {T : Type} `{!Element T}.

Record world := World {
  objs : gmap positive DynamicArray;
  store : gmap positive (list (option T));
}.

(** Calling a member function on the object at [this]. *)
Definition invoke {A} (this : positive) (f : M (@state T) A) : M world A :=
  λ w, match objs w !! this with
       | None => Undefined
       | Some c =>
           match f (St c (store w)) with
           | Ok a s => Ok a (World (<[this := self s]> (objs w)) (mem s))
           | Throw e s => Throw e (World (<[this := self s]> (objs w)) (mem s))
           | Undefined => Undefined
           end
       end.

(** Reading a field of the object at [o]. *)
Definition field {A} (o : positive) (f : DynamicArray → A) : M world A :=
  λ w, match objs w !! o with
       | Some c => Ok (f c) w
       | None => Undefined
       end.

Definition load_in (p : ptr) (i : Z) : M world T :=
  λ w, match heap_load (store w) p i with
       | Some v => Ok v w
       | None => Undefined
       end.

(** The member initialisers of a constructor bring the object at [this] into
    being; its storage must not hold an object already. *)
Definition create (this : positive) (init : DynamicArray) : M world unit :=
  λ w, match objs w !! this with
       | Some _ => Undefined
       | None => Ok tt (World (<[this := init]> (objs w)) (store w))
       end.

(** The end of the lifetime of the object at [this], after its destructor
    body ran. *)
Definition release (this : positive) : M world unit :=
  λ w, match objs w !! this with
       | Some _ => Ok tt (World (delete this (objs w)) (store w))
       | None => Undefined
       end.

(** [std::exchange(other.field, value)] *)
Definition exchange {A} (o : positive) (getf : DynamicArray → A) (setf : A → M (@state T) unit)
    (value : A) : M world A :=
  old ← field o getf;
  invoke o (setf value);;
  mret old.

(** [std::swap(a.field, b.field)] *)
Definition swap_fields {A} (a b : positive) (getf : DynamicArray → A)
    (setf : A → M (@state T) unit) : M world unit :=
  tmp ← field a getf;
  v ← field b getf;
  invoke a (setf v);;
  invoke b (setf tmp).

(** The constructors, each bringing a new object at [this] into being. *)
Definition new_default (this : positive) : M world unit := create this empty_array.

Definition new_sized (this : positive) (count : Z) : M world unit :=
  create this empty_array;; invoke this (ctor_sized count).

Definition new_fill (this : positive) (count : Z) (value : T) : M world unit :=
  create this empty_array;; invoke this (ctor_fill count value).

Definition new_ilist (this : positive) (init : initializer_list) : M world unit :=
  create this empty_array;; invoke this (ctor_ilist init).

Definition new_copy (this other : positive) : M world unit :=
  create this empty_array;;
  o ← field other id;
  invoke this (ctor_copy o).

Definition new_move (this other : positive) : M world unit :=
  d ← exchange other m_data set_data None;
  sz ← exchange other m_size set_size 0;
  cap ← exchange other m_capacity set_capacity 0;
  create this (Fields d sz cap).

(** The destructor, and the end of the object. *)
Definition delete_object (this : positive) : M world unit :=
  invoke this dtor;; release this.

(** [operator=(const DynamicArray& other)] *)
Definition copy_assign (this other : positive) : M world unit :=
  if bool_decide (this ≠ other) then
    o ← field other id;
    invoke this (assign (m_data o) (m_size o))
  else mret tt.

(** [operator=(DynamicArray&& other)] *)
Definition move_assign (this other : positive) : M world unit :=
  if bool_decide (this ≠ other) then
    invoke this (d ← get m_data; sz ← get m_size; destroy_n d 0 sz);;
    invoke this (d ← get m_data; deallocate d);;
    d ← exchange other m_data set_data None;
    invoke this (set_data d);;
    sz ← exchange other m_size set_size 0;
    invoke this (set_size sz);;
    cap ← exchange other m_capacity set_capacity 0;
    invoke this (set_capacity cap)
  else mret tt.

(** [Swap(DynamicArray& other)] *)
Definition Swap (this other : positive) : M world unit :=
  swap_fields this other m_data set_data;;
  swap_fields this other m_size set_size;;
  swap_fields this other m_capacity set_capacity.

(** [operator==]: [left] iterations of [for (i = 0; i < lhs.m_size; ++i)]
    remain. *)
Fixpoint equal_loop (lhs rhs : positive) (i : Z) (left : nat) : M world bool :=
  match left with
  | O => mret true
  | S left' =>
      ld ← field lhs m_data; x ← load_in ld i;
      rd ← field rhs m_data; y ← load_in rd i;
      if T_ne x y then mret false
      else equal_loop lhs rhs (wrap (i + 1)) left'
  end.

Definition equal (lhs rhs : positive) : M world bool :=
  ls ← field lhs m_size; rs ← field rhs m_size;
  if bool_decide (ls ≠ rs) then mret false
  else ls ← field lhs m_size; equal_loop lhs rhs 0 (Z.to_nat ls).

(** [operator<=>]: the result is a [std::strong_ordering], [Lt] for less,
    [Eq] for equal and [Gt] for greater.  The loop yields [Some cmp] when it
    returns from inside. *)
Fixpoint compare_loop (lhs rhs : positive) (i : Z) (left : nat)
    : M world (option comparison) :=
  match left with
  | O => mret None
  | S left' =>
      ld ← field lhs m_data; x ← load_in ld i;
      rd ← field rhs m_data; y ← load_in rd i;
      let cmp := T_cmp x y in
      if bool_decide (cmp ≠ Eq) then mret (Some cmp)
      else compare_loop lhs rhs (wrap (i + 1)) left'
  end.

Definition three_way (lhs rhs : positive) : M world comparison :=
  ls ← field lhs m_size; rs ← field rhs m_size;
  let minSize := Z.min ls rs in
  r ← compare_loop lhs rhs 0 (Z.to_nat minSize);
  match r with
  | Some cmp => mret cmp
  | None => ls ← field lhs m_size; rs ← field rhs m_size; mret (ls ?= rs)
  end.

(** A braced list [{x1, ..., xn}] passed as an argument: its backing array
    exists for the duration of the call. *)
Definition with_ilist {A} (l : list T) (call : initializer_list → M world A) : M world A :=
  λ w,
    let n := Z.of_nat (length l) in
    let '(p, h1) := heap_allocate (store w) n in
    match heap_write_n h1 p 0 l with
    | None => Undefined
    | Some h2 =>
        let finish (w' : world) :=
          match heap_deallocate (store w') p with
          | Some h3 => Some (World (objs w') h3)
          | None => None
          end in
        match call (IList p n) (World (objs w) h2) with
        | Ok a w' => match finish w' with Some w'' => Ok a w'' | None => Undefined end
        | Throw e w' => match finish w' with Some w'' => Throw e w'' | None => Undefined end
        | Undefined => Undefined
        end
    end.

End Objects.

(** ** Running the container on [int]-like elements *)

#[global] Instance Z_element : Element Z := {|
  T_default := 0;
  T_eq := Z.eqb;
  T_ne := λ x y, negb (Z.eqb x y);
  T_cmp := Z.compare;
  nothrow_move_constructible := true;
  copy_constructible := true;
|}.

(** The live elements of the object at [o], read through its fields. *)
Definition elements_of {T} (w : @world T) (o : positive) : option (list T) :=
  c ← objs w !! o; heap_read_n (store w) (m_data c) 0 (m_size c).

Definition empty_world {T} : @world T := World ∅ ∅.

(** * The vocabulary of the specification *)

Section Vocabulary.
Context {T : Type} `{!Element T}.
Implicit Types (c : DynamicArray) (h : gmap positive (list (option T)))
  (xs ys vs : list T) (blk : list (option T)) (w : @world T) (o : positive).

(** The block of a container holding [xs] with [cap] slots: slot [j] holds
    [xs !! j], which is raw memory from [length xs] on. *)
Definition storage xs (cap : Z) : list (option T) :=
  (λ j, xs !! j) <$> seq 0 (Z.to_nat cap).

(** [rep c h xs]: the container with fields [c] holds the sequence [xs] in
    heap [h]: slots [0, size) of its block hold [xs], the slots up to the
    capacity are raw, and there is a block exactly when the capacity is not
    0. *)
Definition rep c h xs : Prop :=
  m_size c = Z.of_nat (length xs) ∧
  m_size c ≤ m_capacity c ∧ m_capacity c ≤ SIZE_MAX ∧
  match m_data c with
  | None => m_capacity c = 0
  | Some a => 0 < m_capacity c ∧ h !! a = Some (storage xs (m_capacity c))
  end.

(** The invariant of the data model: [0 ≤ size ≤ capacity], and no storage
    when the capacity is 0. *)
Definition size_capacity_invariant c : Prop :=
  0 ≤ m_size c ≤ m_capacity c ∧ (m_capacity c = 0 → m_data c = None).

(** What a member function leaves alone: every block other than the
    container's own is unchanged, and the container's storage afterwards is
    none of them. *)
Definition frame c h c' h' : Prop :=
  ∀ q blk, h !! q = Some blk → m_data c ≠ Some q →
           h' !! q = Some blk ∧ m_data c' ≠ Some q.

(** The heap with the block at [p] replaced, and with it released. *)
Definition set_block (p : ptr) (blk : list (option T)) h : gmap positive (list (option T)) :=
  match p with Some a => <[a := blk]> h | None => h end.

Definition drop_block (p : ptr) h : gmap positive (list (option T)) :=
  match p with Some a => delete a h | None => h end.

(** A source range a copy can read: the block of a container, or of a braced
    list, holding [ys] from its start. *)
Definition readable h (src : ptr) (ys : list T) : Prop :=
  match src with
  | Some a => ∃ cap, h !! a = Some (storage ys cap) ∧ Z.of_nat (length ys) ≤ cap
  | None => ys = []
  end.

(** The capacity [ensureCapacity] settles on. *)
Definition grown (capacity minCapacity : Z) : Z :=
  if bool_decide (minCapacity ≤ capacity) then capacity
  else Z.max minCapacity (Z.min (capacity + capacity / 2) SIZE_MAX).

(** The exceptional postcondition of a member function that does not
    throw. *)
Definition no_throw : exn → @state T → Prop := λ _ _, False.

(** What a reference designates. *)
Definition deref h (r : ref) : option T := heap_load h (ref_block r) (ref_index r).

(** Assigning through a reference or through a pointer into a block:
    [p[i] = v] on an object that is alive. *)
Definition heap_store h (p : ptr) (i : Z) (v : T)
    : option (gmap positive (list (option T))) :=
  match heap_load h p i with
  | Some _ => heap_construct_at h p i v
  | None => None
  end.

(** The sequence left when [k] elements are removed at [index]. *)
Definition without (index k : nat) xs : list T := take index xs ++ drop (index + k) xs.

(** The elements [RemoveAll pred] keeps. *)
Definition kept_by (pred : T → bool) xs : list T := List.filter (λ x, negb (pred x)) xs.

(** A source range that is not the container's own storage. *)
Definition foreign c (src : ptr) : Prop := ∀ q, src = Some q → m_data c ≠ Some q.

(** The sequence after [vs] is inserted at [index]. *)
Definition inserted (index : nat) vs xs : list T := take index xs ++ vs ++ drop index xs.

(** [r] is what a forward search over [xs] from slot [i] answers. *)
Definition first_match (pred : T → bool) xs (i : nat) (r : Z) : Prop :=
  (r = INDEX_NONE ∧ ∀ j v, (i ≤ j)%nat → xs !! j = Some v → pred v = false) ∨
  (∃ (k : nat) v, r = Z.of_nat k ∧ (i ≤ k)%nat ∧ xs !! k = Some v ∧ pred v = true ∧
                  ∀ j u, (i ≤ j < k)%nat → xs !! j = Some u → pred u = false).

(** [r] is what a backward search over [xs] below slot [i] answers. *)
Definition last_match (pred : T → bool) xs (i : nat) (r : Z) : Prop :=
  (r = INDEX_NONE ∧ ∀ j v, (j < i)%nat → xs !! j = Some v → pred v = false) ∨
  (∃ (k : nat) v, r = Z.of_nat k ∧ (k < i)%nat ∧ xs !! k = Some v ∧ pred v = true ∧
                  ∀ j u, (k < j < i)%nat → xs !! j = Some u → pred u = false).

(** The object at [o] holds the sequence [xs]. *)
Definition holds w o xs : Prop := ∃ c, objs w !! o = Some c ∧ rep c (store w) xs.

(** Every object is a well-formed container, and no two objects share a
    block: each container owns its storage exclusively. *)
Definition world_ok w : Prop :=
  (∀ o c, objs w !! o = Some c → ∃ xs, rep c (store w) xs) ∧
  (∀ o1 o2 c1 c2 q, objs w !! o1 = Some c1 → objs w !! o2 = Some c2 →
                    m_data c1 = Some q → m_data c2 = Some q → o1 = o2).

(** What the loop of [operator==] answers on two sequences of one length. *)
Fixpoint no_pair_differs xs ys : bool :=
  match xs, ys with
  | x :: xs', y :: ys' => if T_ne x y then false else no_pair_differs xs' ys'
  | _, _ => true
  end.

(** What the loop of [operator<=>] answers: the first comparison that is not
    [Eq], looking as far as the shorter sequence goes. *)
Fixpoint first_difference xs ys : option comparison :=
  match xs, ys with
  | x :: xs', y :: ys' =>
      match T_cmp x y with
      | Eq => first_difference xs' ys'
      | cmp => Some cmp
      end
  | _, _ => None
  end.

End Vocabulary.

(** ** What a call hands back, whatever its C++ return type *)

Inductive result :=
  | VVoid
  | VRef (r : ref)
  | VPtr (p : ptr)
  | VBool (b : bool)
  | VSize (n : Z).

Class Returns (A : Type) := as_value : A → result.
#[global] Instance returns_void : Returns unit := λ _, VVoid.
#[global] Instance returns_ref : Returns ref := VRef.
#[global] Instance returns_ptr : Returns ptr := VPtr.
#[global] Instance returns_bool : Returns bool := VBool.
#[global] Instance returns_size : Returns Z := VSize.

(** What a call returns, if it returns. *)
Definition returned {S A} `{!Returns A} (m : M S A) (s : S) : option result :=
  match m s with
  | Ok a _ => Some (as_value a)
  | _ => None
  end.

Section Interface.
Context {T : Type} `{!Element T}.
Implicit Types (c : DynamicArray) (h : gmap positive (list (option T)))
  (xs ys vs : list T) (blk : list (option T)) (w : @world T) (o : positive).

(** The member functions that run on one container. *)
Inductive member_call :=
  | call_subscript (index : Z)
  | call_Data
  | call_IsEmpty
  | call_Size
  | call_Capacity
  | call_Reserve (newCapacity : Z)
  | call_Shrink
  | call_Add (value : T)
  | call_AddRange (ilist : initializer_list)
  | call_Emplace (x : T)
  | call_EmplaceAt (index : Z) (x : T)
  | call_Insert (index : Z) (value : T)
  | call_InsertRange (index : Z) (ilist : initializer_list)
  | call_Remove (value : T)
  | call_RemoveAt (index : Z)
  | call_RemoveRange (index count : Z)
  | call_RemoveAll (pred : T → bool)
  | call_Clear
  | call_Resize (newSize : Z)
  | call_Resize_with (newSize : Z) (value : T)
  | call_Contains (value : T)
  | call_ContainsIf (pred : T → bool)
  | call_Find (value : T)
  | call_FindIf (pred : T → bool)
  | call_FindLast (value : T)
  | call_FindLastIf (pred : T → bool)
  | call_assign_ilist (ilist : initializer_list).

(** The call with its result as a [result]. *)
Definition returning {A} `{!Returns A} (m : M (@state T) A) : M (@state T) result :=
  a ← m; mret (as_value a).

Definition perform (call : member_call) : M (@state T) result :=
  match call with
  | call_subscript index => returning (subscript index)
  | call_Data => returning Data
  | call_IsEmpty => returning IsEmpty
  | call_Size => returning Size
  | call_Capacity => returning Capacity
  | call_Reserve n => returning (Reserve n)
  | call_Shrink => returning Shrink
  | call_Add value => returning (Add value)
  | call_AddRange ilist => returning (AddRange ilist)
  | call_Emplace x => returning (Emplace x)
  | call_EmplaceAt index x => returning (EmplaceAt index x)
  | call_Insert index value => returning (Insert index value)
  | call_InsertRange index ilist => returning (InsertRange index ilist)
  | call_Remove value => returning (Remove value)
  | call_RemoveAt index => returning (RemoveAt index)
  | call_RemoveRange index count => returning (RemoveRange index count)
  | call_RemoveAll pred => returning (RemoveAll pred)
  | call_Clear => returning Clear
  | call_Resize newSize => returning (Resize newSize)
  | call_Resize_with newSize value => returning (Resize_with newSize value)
  | call_Contains value => returning (Contains value)
  | call_ContainsIf pred => returning (ContainsIf pred)
  | call_Find value => returning (Find value)
  | call_FindIf pred => returning (FindIf pred)
  | call_FindLast value => returning (FindLast value)
  | call_FindLastIf pred => returning (FindLastIf pred)
  | call_assign_ilist ilist => returning (assign_ilist ilist)
  end.

(** A braced list argument: an array of [size()] elements that is not the
    container's storage. *)
Definition ilist_holds c h (ilist : initializer_list) (vs : list T) : Prop :=
  il_size ilist = Z.of_nat (length vs) ∧ readable h (il_begin ilist) vs ∧
  foreign c (il_begin ilist) ∧ Z.of_nat (length vs) ≤ SIZE_MAX.

(** The arguments are [size_t] values, and no size computed on the way
    exceeds the largest [size_t]. *)
Definition in_range c h (call : member_call) : Prop :=
  match call with
  | call_subscript index | call_RemoveAt index => 0 ≤ index
  | call_Reserve n | call_Resize n | call_Resize_with n _ => 0 ≤ n ≤ SIZE_MAX
  | call_Add _ | call_Emplace _ => m_size c < SIZE_MAX
  | call_EmplaceAt index _ | call_Insert index _ => 0 ≤ index ∧ m_size c < SIZE_MAX
  | call_AddRange ilist =>
      ∃ vs, ilist_holds c h ilist vs ∧ m_size c + Z.of_nat (length vs) ≤ SIZE_MAX
  | call_InsertRange index ilist =>
      ∃ vs, ilist_holds c h ilist vs ∧ m_size c + Z.of_nat (length vs) ≤ SIZE_MAX ∧
            0 ≤ index ∧ m_size c < SIZE_MAX
  | call_assign_ilist ilist => ∃ vs, ilist_holds c h ilist vs
  | call_RemoveRange index count => 0 ≤ index ∧ 0 ≤ count ∧ index + count ≤ SIZE_MAX
  | _ => True
  end.

(** After a call that returns: the container is well formed and foreign
    blocks are as they were.  After a call that throws: nothing changed. *)
Definition well_formed_after c h : result → @state T → Prop :=
  λ _ s', (∃ xs', rep (self s') (mem s') xs') ∧ frame c h (self s') (mem s').
Definition unchanged_after c h : exn → @state T → Prop :=
  λ e s', e = out_of_range ∧ s' = St c h.

(** The public interface: constructors, destructor, assignments, the member
    functions of one container, [Swap] and the comparisons. *)
Inductive operation :=
  | op_new_default (this : positive)
  | op_new_sized (this : positive) (count : Z)
  | op_new_fill (this : positive) (count : Z) (value : T)
  | op_new_ilist (this : positive) (init : initializer_list)
  | op_new_copy (this other : positive)
  | op_new_move (this other : positive)
  | op_delete (this : positive)
  | op_copy_assign (this other : positive)
  | op_move_assign (this other : positive)
  | op_call (this : positive) (call : member_call)
  | op_Swap (this other : positive)
  | op_equal (lhs rhs : positive)
  | op_three_way (lhs rhs : positive).

Definition run_operation (op : operation) : M (@world T) unit :=
  match op with
  | op_new_default this => new_default this
  | op_new_sized this count => new_sized this count
  | op_new_fill this count value => new_fill this count value
  | op_new_ilist this init => new_ilist this init
  | op_new_copy this other => new_copy this other
  | op_new_move this other => new_move this other
  | op_delete this => delete_object this
  | op_copy_assign this other => copy_assign this other
  | op_move_assign this other => move_assign this other
  | op_call this call => invoke this (perform call);; mret tt
  | op_Swap this other => Swap this other
  | op_equal lhs rhs => equal lhs rhs;; mret tt
  | op_three_way lhs rhs => three_way lhs rhs;; mret tt
  end.

(** There is a container object at [o]. *)
Definition is_object w (o : positive) : Prop := is_Some (objs w !! o).

(** The objects named exist (or, for a constructor, the place is free), and
    the arguments are in range. *)
Definition operation_in_range w (op : operation) : Prop :=
  match op with
  | op_new_default this => objs w !! this = None
  | op_new_sized this count | op_new_fill this count _ =>
      objs w !! this = None ∧ 0 ≤ count ≤ SIZE_MAX
  | op_new_ilist this init =>
      objs w !! this = None ∧ ∃ vs, ilist_holds empty_array (store w) init vs
  | op_new_copy this other | op_new_move this other =>
      objs w !! this = None ∧ is_object w other
  | op_delete this => is_object w this
  | op_copy_assign this other | op_move_assign this other | op_Swap this other
  | op_equal this other | op_three_way this other =>
      is_object w this ∧ is_object w other
  | op_call this call =>
      ∃ c, objs w !! this = Some c ∧ in_range c (store w) call
  end.

End Interface.

(** * The container with allocation in bytes and arguments by reference

    The member functions above take [::operator new] to succeed and to
    provide the slots asked for, and an argument of type [const T&] or [T&&]
    to be the value it refers to.  The module [Exact] has the functions that
    allocate or read such an argument without either assumption:
    [allocate] computes the byte count [capacity * sizeof(T)] in [size_t]
    and can throw [std::bad_alloc], and an argument is read where the C++
    reads it.  Everything else is shared with the definitions above. *)

Class Allocation (T : Type) := {
  sizeof_T : positive;                   (* sizeof(T) *)
  (* whether [::operator new(bytes)] finds the memory, in a given heap *)
  operator_new : gmap positive (list (option T)) → Z → bool;
}.

(** What an argument of type [const T&] or [T&&] refers to: an object outside
    the heap of the containers (a temporary, a local variable), which has a
    value that no call changes, or an object in the heap. *)
Inductive argument (T : Type) :=
  | outside (x : T)
  | element (r : ref).
Arguments outside {T} x.
Arguments element {T} r.

(** ** What the functions of [Exact] ask of the allocator and of an argument *)

Section ExactVocabulary.
Context {T : Type} `{!Element T, !Allocation T}.
Implicit Types (c : DynamicArray) (h : gmap positive (list (option T)))
  (xs ys vs : list T).

(** The byte count of [n] objects is a [size_t]. *)
Definition representable (n : Z) : Prop := 0 ≤ n ∧ n * Z.pos sizeof_T ≤ SIZE_MAX.

(** The capacity [ensureCapacity] asks [allocate] for: none (0) when the
    capacity suffices. *)
Definition requested (capacity minCapacity : Z) : Z :=
  if bool_decide (minCapacity ≤ capacity) then 0 else grown capacity minCapacity.

(** Whether [allocate n] returns in heap [h]: nothing is asked of
    [::operator new] for [n = 0]. *)
Definition granted h (n : Z) : bool :=
  bool_decide (n = 0) || operator_new h (n * Z.pos sizeof_T).

(** The argument refers to an object of value [x] that is not in the
    container's own storage. *)
Definition refers_to c h (arg : argument T) (x : T) : Prop :=
  match arg with
  | outside y => y = x
  | element r => deref h r = Some x ∧ foreign c (ref_block r)
  end.

End ExactVocabulary.

Module Exact.

Section Container.
Context {T : Type} `{!Element T, !Allocation T}.

(** [allocate]: [nullptr] for a capacity of 0; else [::operator new] is asked
    for [capacity * sizeof(T)] bytes, a product in [size_t]: it throws
    [std::bad_alloc] ([None]) or returns a block of that many bytes at an
    address not in use, which has room for [bytes / sizeof(T)] objects. *)
Definition heap_allocate (h : gmap positive (list (option T))) (capacity : Z)
    : option (ptr * gmap positive (list (option T))) :=
  if bool_decide (capacity = 0) then Some (None, h)
  else
    let bytes := wrap (capacity * Z.pos sizeof_T) in
    if operator_new h bytes then
      let a := fresh (dom h) in
      Some (Some a, <[a := replicate (Z.to_nat (bytes / Z.pos sizeof_T)) None]> h)
    else None.

Definition allocate (capacity : Z) : M (@state T) ptr :=
  λ s, match heap_allocate (mem s) capacity with
       | Some (p, h') => Ok p (St (self s) h')
       | None => Throw bad_alloc s
       end.

(** Reading an argument. *)
Definition read (arg : argument T) : M (@state T) T :=
  match arg with
  | outside x => mret x
  | element r => load (ref_block r) (ref_index r)
  end.

Definition reallocate (newCapacity : Z) : M (@state T) unit :=
  newData ← allocate newCapacity;
  sz ← get m_size;
  let newSize := Z.min sz newCapacity in
  d ← get m_data;
  (if nothrow_move_constructible || negb copy_constructible
   then uninitialized_move_n d newSize newData
   else uninitialized_copy_n d newSize newData 0);;
  replaceStorage newData newSize newCapacity.

Definition ensureCapacity (minCapacity : Z) : M (@state T) unit :=
  cap ← get m_capacity;
  if bool_decide (minCapacity ≤ cap) then mret tt
  else
    let newCapacity := wrap (cap + cap / 2) in
    let newCapacity :=
      if bool_decide (cap > SIZE_MAX - cap / 2) then SIZE_MAX else newCapacity in
    let newCapacity :=
      if bool_decide (newCapacity < minCapacity) then minCapacity else newCapacity in
    reallocate newCapacity.

Definition assign (src : ptr) (count : Z) : M (@state T) unit :=
  cap ← get m_capacity;
  if bool_decide (count ≤ cap) then
    d ← get m_data; sz ← get m_size;
    destroy_n d 0 sz;;
    (if bool_decide (count > 0)
     then d ← get m_data; uninitialized_copy_n src count d 0
     else mret tt);;
    set_size count
  else
    newData ← allocate count;
    (if bool_decide (count > 0)
     then uninitialized_copy_n src count newData 0
     else mret tt);;
    replaceStorage newData count count.

(** [DynamicArray(std::size_t count, const T& value)] *)
Definition ctor_fill (count : Z) (value : argument T) : M (@state T) unit :=
  if bool_decide (count > 0) then
    newData ← allocate count;
    set_data newData;;
    set_capacity count;;
    d ← get m_data;
    v ← read value;
    uninitialized_fill_n d 0 count v;;
    set_size count
  else mret tt.

(** [DynamicArray(std::size_t count)], delegating with the temporary [T{}] *)
Definition ctor_sized (count : Z) : M (@state T) unit := ctor_fill count (outside T_default).

Definition ctor_ilist (init : initializer_list) : M (@state T) unit :=
  assign (il_begin init) (il_size init).

Definition ctor_copy (other : DynamicArray) : M (@state T) unit :=
  assign (m_data other) (m_size other).

Definition assign_ilist (ilist : initializer_list) : M (@state T) unit :=
  assign (il_begin ilist) (il_size ilist).

Definition Reserve (newCapacity : Z) : M (@state T) unit :=
  cap ← get m_capacity;
  if bool_decide (newCapacity > cap) then reallocate newCapacity else mret tt.

Definition Shrink : M (@state T) unit :=
  sz ← get m_size; cap ← get m_capacity;
  if bool_decide (sz = cap) then mret tt
  else if bool_decide (sz = 0) then tidy
  else sz ← get m_size; reallocate sz.

(** The argument is read by [std::construct_at], after [ensureCapacity]. *)
Definition Emplace (arg : argument T) : M (@state T) ref :=
  sz ← get m_size;
  ensureCapacity (wrap (sz + 1));;
  d ← get m_data; sz ← get m_size;
  x ← read arg;
  construct_at d sz x;;
  set_size (wrap (sz + 1));;
  mret (Ref d sz).

Definition Add (value : argument T) : M (@state T) unit :=
  Emplace value;; mret tt.

Definition AddRange (ilist : initializer_list) : M (@state T) unit :=
  let count := il_size ilist in
  if bool_decide (count = 0) then mret tt
  else
    sz ← get m_size;
    ensureCapacity (wrap (sz + count));;
    d ← get m_data; sz ← get m_size;
    uninitialized_copy_n (il_begin ilist) count d sz;;
    set_size (wrap (sz + count)).

(** The argument is read by [std::construct_at], after [ensureCapacity] and
    [shiftRight]. *)
Definition EmplaceAt (index : Z) (arg : argument T) : M (@state T) ref :=
  checkRange index true;;
  sz ← get m_size;
  ensureCapacity (wrap (sz + 1));;
  shiftRight index 1;;
  d ← get m_data;
  x ← read arg;
  construct_at d index x;;
  sz ← get m_size;
  set_size (wrap (sz + 1));;
  mret (Ref d index).

Definition Insert (index : Z) (value : argument T) : M (@state T) unit :=
  EmplaceAt index value;; mret tt.

Definition InsertRange (index : Z) (ilist : initializer_list) : M (@state T) unit :=
  checkRange index true;;
  let count := il_size ilist in
  if bool_decide (count = 0) then mret tt
  else
    sz ← get m_size;
    ensureCapacity (wrap (sz + count));;
    shiftRight index count;;
    d ← get m_data;
    uninitialized_copy_n (il_begin ilist) count d index;;
    sz ← get m_size;
    set_size (wrap (sz + count)).

(** [Resize(std::size_t newSize, const T& value)]: [value] is read by
    [std::uninitialized_fill_n], after [ensureCapacity]. *)
Definition Resize_with (newSize : Z) (value : argument T) : M (@state T) unit :=
  sz ← get m_size;
  (if bool_decide (newSize < sz) then
     d ← get m_data;
     destroy_n d newSize (wrap (sz - newSize))
   else if bool_decide (newSize > sz) then
     ensureCapacity newSize;;
     d ← get m_data; sz ← get m_size;
     v ← read value;
     uninitialized_fill_n d sz (wrap (newSize - sz)) v
   else mret tt);;
  set_size newSize.

(** [Resize(std::size_t newSize)], delegating with the temporary [T{}] *)
Definition Resize (newSize : Z) : M (@state T) unit :=
  Resize_with newSize (outside T_default).

(** [for (...) arr.Add(v);] with [v] a local variable. *)
Fixpoint Add_each (vs : list T) : M (@state T) unit :=
  match vs with
  | [] => mret tt
  | v :: vs' => Add (outside v);; Add_each vs'
  end.

End Container.

Section Objects.
Context {T : Type} `{!Element T, !Allocation T}.

(** The body of a constructor, which runs after the delegation to
    [DynamicArray()] completed: if it throws, the destructor runs and the
    object does not come into being. *)
Definition or_destroy (this : positive) (body : M (@world T) unit) : M (@world T) unit :=
  λ w, match body w with
       | Throw e w' => (delete_object this;; throw e) w'
       | r => r
       end.

Definition new_sized (this : positive) (count : Z) : M (@world T) unit :=
  create this empty_array;; or_destroy this (invoke this (ctor_sized count)).

Definition new_fill (this : positive) (count : Z) (value : argument T) : M (@world T) unit :=
  create this empty_array;; or_destroy this (invoke this (ctor_fill count value)).

Definition new_ilist (this : positive) (init : initializer_list) : M (@world T) unit :=
  create this empty_array;; or_destroy this (invoke this (ctor_ilist init)).

Definition new_copy (this other : positive) : M (@world T) unit :=
  create this empty_array;;
  o ← field other id;
  or_destroy this (invoke this (ctor_copy o)).

Definition copy_assign (this other : positive) : M (@world T) unit :=
  if bool_decide (this ≠ other) then
    o ← field other id;
    invoke this (assign (m_data o) (m_size o))
  else mret tt.

End Objects.

Section Interface.
Context {T : Type} `{!Element T, !Allocation T}.
Implicit Types (c : DynamicArray) (h : gmap positive (list (option T)))
  (xs ys vs : list T) (w : @world T).

(** The member functions that run on one container.  [Remove] and the
    searches read their [const T&] before anything changes, so they take the
    value read. *)
Inductive member_call :=
  | call_subscript (index : Z)
  | call_Data
  | call_IsEmpty
  | call_Size
  | call_Capacity
  | call_Reserve (newCapacity : Z)
  | call_Shrink
  | call_Add (value : argument T)
  | call_AddRange (ilist : initializer_list)
  | call_Emplace (arg : argument T)
  | call_EmplaceAt (index : Z) (arg : argument T)
  | call_Insert (index : Z) (value : argument T)
  | call_InsertRange (index : Z) (ilist : initializer_list)
  | call_Remove (value : T)
  | call_RemoveAt (index : Z)
  | call_RemoveRange (index count : Z)
  | call_RemoveAll (pred : T → bool)
  | call_Clear
  | call_Resize (newSize : Z)
  | call_Resize_with (newSize : Z) (value : argument T)
  | call_Contains (value : T)
  | call_ContainsIf (pred : T → bool)
  | call_Find (value : T)
  | call_FindIf (pred : T → bool)
  | call_FindLast (value : T)
  | call_FindLastIf (pred : T → bool)
  | call_assign_ilist (ilist : initializer_list).

Definition perform (call : member_call) : M (@state T) result :=
  match call with
  | call_subscript index => returning (subscript index)
  | call_Data => returning Data
  | call_IsEmpty => returning IsEmpty
  | call_Size => returning Size
  | call_Capacity => returning Capacity
  | call_Reserve n => returning (Reserve n)
  | call_Shrink => returning Shrink
  | call_Add value => returning (Add value)
  | call_AddRange ilist => returning (AddRange ilist)
  | call_Emplace arg => returning (Emplace arg)
  | call_EmplaceAt index arg => returning (EmplaceAt index arg)
  | call_Insert index value => returning (Insert index value)
  | call_InsertRange index ilist => returning (InsertRange index ilist)
  | call_Remove value => returning (Remove value)
  | call_RemoveAt index => returning (RemoveAt index)
  | call_RemoveRange index count => returning (RemoveRange index count)
  | call_RemoveAll pred => returning (RemoveAll pred)
  | call_Clear => returning Clear
  | call_Resize newSize => returning (Resize newSize)
  | call_Resize_with newSize value => returning (Resize_with newSize value)
  | call_Contains value => returning (Contains value)
  | call_ContainsIf pred => returning (ContainsIf pred)
  | call_Find value => returning (Find value)
  | call_FindIf pred => returning (FindIf pred)
  | call_FindLast value => returning (FindLast value)
  | call_FindLastIf pred => returning (FindLastIf pred)
  | call_assign_ilist ilist => returning (assign_ilist ilist)
  end.

(** The arguments are [size_t] values, no size computed on the way exceeds
    the largest [size_t], the byte count of a block asked for is a [size_t],
    and an argument by reference refers to an object outside the container's
    own storage. *)
Definition in_range c h (call : member_call) : Prop :=
  match call with
  | call_subscript index | call_RemoveAt index => 0 ≤ index
  | call_Reserve n => representable n
  | call_Shrink => representable (m_size c)
  | call_Add arg | call_Emplace arg =>
      m_size c < SIZE_MAX ∧ (∃ x, refers_to c h arg x) ∧
      representable (requested (m_capacity c) (m_size c + 1))
  | call_EmplaceAt index arg | call_Insert index arg =>
      0 ≤ index ∧ m_size c < SIZE_MAX ∧ (∃ x, refers_to c h arg x) ∧
      representable (requested (m_capacity c) (m_size c + 1))
  | call_AddRange ilist =>
      ∃ vs, ilist_holds c h ilist vs ∧ m_size c + Z.of_nat (length vs) ≤ SIZE_MAX ∧
            representable (requested (m_capacity c) (m_size c + Z.of_nat (length vs)))
  | call_InsertRange index ilist =>
      ∃ vs, ilist_holds c h ilist vs ∧ m_size c + Z.of_nat (length vs) ≤ SIZE_MAX ∧
            0 ≤ index ∧ m_size c < SIZE_MAX ∧
            representable (requested (m_capacity c) (m_size c + Z.of_nat (length vs)))
  | call_assign_ilist ilist =>
      ∃ vs, ilist_holds c h ilist vs ∧ representable (Z.of_nat (length vs))
  | call_RemoveRange index count => 0 ≤ index ∧ 0 ≤ count ∧ index + count ≤ SIZE_MAX
  | call_Resize n => 0 ≤ n ≤ SIZE_MAX ∧ representable (requested (m_capacity c) n)
  | call_Resize_with n arg =>
      0 ≤ n ≤ SIZE_MAX ∧ (∃ x, refers_to c h arg x) ∧
      representable (requested (m_capacity c) n)
  | _ => True
  end.

(** The public interface: constructors, destructor, assignments, the member
    functions of one container, [Swap] and the comparisons. *)
Inductive operation :=
  | op_new_default (this : positive)
  | op_new_sized (this : positive) (count : Z)
  | op_new_fill (this : positive) (count : Z) (value : argument T)
  | op_new_ilist (this : positive) (init : initializer_list)
  | op_new_copy (this other : positive)
  | op_new_move (this other : positive)
  | op_delete (this : positive)
  | op_copy_assign (this other : positive)
  | op_move_assign (this other : positive)
  | op_call (this : positive) (call : member_call)
  | op_Swap (this other : positive)
  | op_equal (lhs rhs : positive)
  | op_three_way (lhs rhs : positive).

Definition run_operation (op : operation) : M (@world T) unit :=
  match op with
  | op_new_default this => new_default this
  | op_new_sized this count => new_sized this count
  | op_new_fill this count value => new_fill this count value
  | op_new_ilist this init => new_ilist this init
  | op_new_copy this other => new_copy this other
  | op_new_move this other => new_move this other
  | op_delete this => delete_object this
  | op_copy_assign this other => copy_assign this other
  | op_move_assign this other => move_assign this other
  | op_call this call => invoke this (perform call);; mret tt
  | op_Swap this other => Swap this other
  | op_equal lhs rhs => equal lhs rhs;; mret tt
  | op_three_way lhs rhs => three_way lhs rhs;; mret tt
  end.

(** The objects named exist (or, for a constructor, the place is free), and
    the arguments are in range. *)
Definition operation_in_range w (op : operation) : Prop :=
  match op with
  | op_new_default this => objs w !! this = None
  | op_new_sized this count => objs w !! this = None ∧ representable count
  | op_new_fill this count arg =>
      objs w !! this = None ∧ representable count ∧
      ∃ x, refers_to empty_array (store w) arg x
  | op_new_ilist this init =>
      objs w !! this = None ∧
      ∃ vs, ilist_holds empty_array (store w) init vs ∧ representable (Z.of_nat (length vs))
  | op_new_copy this other =>
      objs w !! this = None ∧ ∃ c, objs w !! other = Some c ∧ representable (m_size c)
  | op_new_move this other => objs w !! this = None ∧ is_object w other
  | op_delete this => is_object w this
  | op_copy_assign this other =>
      is_object w this ∧ ∃ c, objs w !! other = Some c ∧ representable (m_size c)
  | op_move_assign this other | op_Swap this other
  | op_equal this other | op_three_way this other =>
      is_object w this ∧ is_object w other
  | op_call this call =>
      ∃ c, objs w !! this = Some c ∧ in_range c (store w) call
  end.

End Interface.

End Exact.

(** * Concrete containers of integers *)

(** What a program on objects returns when run in the empty world. *)
Definition returned_pair {T A} (m : M (@world T) A) : option A :=
  match m empty_world with Ok a _ => Some a | _ => None end.

(** [{1, 2, 3}] in a block of its own, as the list constructor leaves it. *)
Definition array123 : DynamicArray := Fields (Some 2%positive) 3 3.
Definition heap123 : gmap positive (list (option Z)) :=
  {[ 2%positive := [Some 1; Some 2; Some 3] ]}.

(** [{1, 2, 3}] at object 1 and [{1, 2, 4}] at object 2. *)
Definition two_arrays : @world Z :=
  World {[ 1%positive := Fields (Some 1%positive) 3 3;
           2%positive := Fields (Some 2%positive) 3 3 ]}
        {[ 1%positive := [Some 1; Some 2; Some 3];
           2%positive := [Some 1; Some 2; Some 4] ]}.

(** [{1, 2}] in a block of four slots, as [Reserve(4)] and two calls of
    [Add] leave it. *)
Definition array12 : DynamicArray := Fields (Some 2%positive) 2 4.
Definition heap12 : gmap positive (list (option Z)) :=
  {[ 2%positive := [Some 1; Some 2; None; None] ]}.

(** [{1, 2, 3}] beside the backing array of the braced list [{7, 8}]. *)
Definition list78 : @initializer_list := IList (Some 1%positive) 2.
Definition heap123_78 : gmap positive (list (option Z)) :=
  {[ 1%positive := [Some 7; Some 8]; 2%positive := [Some 1; Some 2; Some 3] ]}.

(** [int] elements of 4 bytes, on a heap where [::operator new] finds up to
    64 bytes. *)
#[global] Instance int_allocation : Allocation Z := {|
  sizeof_T := 4;
  operator_new := λ _ bytes, bool_decide (bytes ≤ 64);
|}.

(** * Verification *)

(** ** size_t arithmetic *)

Lemma wrap_small z : 0 ≤ z ≤ SIZE_MAX → wrap z = z.
Proof. unfold wrap, SIZE_MAX. intros ?. apply Z.mod_small. lia. Qed.

Lemma wrap_range z : 0 ≤ wrap z ≤ SIZE_MAX.
Proof. unfold wrap, SIZE_MAX. pose proof (Z.mod_pos_bound z (2 ^ 64)). lia. Qed.

Lemma wrap_over z : SIZE_MAX < z ≤ 2 * SIZE_MAX → wrap z = z - 2 ^ 64.
Proof.
  unfold wrap, SIZE_MAX. intros ?. symmetry.
  apply (Z.mod_unique z (2 ^ 64) 1); lia.
Qed.

Lemma wrap_under z : - SIZE_MAX ≤ z < 0 → wrap z = z + 2 ^ 64.
Proof.
  unfold wrap, SIZE_MAX. intros ?. symmetry.
  apply (Z.mod_unique z (2 ^ 64) (-1)); lia.
Qed.

Lemma INDEX_NONE_eq : INDEX_NONE = SIZE_MAX.
Proof. reflexivity. Qed.

Lemma SIZE_MAX_eq : SIZE_MAX = 18446744073709551615.
Proof. reflexivity. Qed.

#[global] Opaque wrap SIZE_MAX INDEX_NONE.

(** ** The outcome monad *)

Section Wp.
Context {S : Type}.

Lemma wp_mono {A} (m : M S A) s (Q Q' : A → S → Prop) (E E' : exn → S → Prop) :
  wp m s Q' E' →
  (∀ a s', Q' a s' → Q a s') →
  (∀ e s', E' e s' → E e s') →
  wp m s Q E.
Proof. unfold wp. destruct (m s); eauto. Qed.

Lemma wp_bind {A B} (m : M S A) (f : A → M S B) s Q E :
  wp m s (λ a s', wp (f a) s' Q E) E → wp (m ≫= f) s Q E.
Proof. unfold wp, mbind, M_mbind, M_bind. destruct (m s); auto. Qed.

Lemma wp_ret {A} (a : A) s (Q : A → S → Prop) E : Q a s → wp (mret a) s Q E.
Proof. done. Qed.

Lemma wp_throw {A} e s (Q : A → S → Prop) (E : exn → S → Prop) :
  E e s → wp (throw e) s Q E.
Proof. done. Qed.

Lemma wp_ok {A} (m : M S A) s a s' (Q : A → S → Prop) E :
  m s = Ok a s' → Q a s' → wp m s Q E.
Proof. unfold wp. by intros ->. Qed.

Lemma wp_ok_inv {A} (m : M S A) s (Q : A → S → Prop) :
  wp m s Q (λ _ _, False) → ∃ a s', m s = Ok a s' ∧ Q a s'.
Proof. unfold wp. destruct (m s); naive_solver. Qed.

Lemma bind_ok {A B} (m : M S A) (f : A → M S B) s a s' :
  m s = Ok a s' → (m ≫= f) s = f a s'.
Proof. unfold mbind, M_mbind, M_bind. by intros ->. Qed.

End Wp.

(** ** Blocks, slot by slot *)

Section Blocks.
Context {T : Type}.
Implicit Types (blk : list (option T)) (xs : list T).

Lemma length_storage xs cap : length (storage xs cap) = Z.to_nat cap.
Proof. unfold storage. by rewrite length_fmap, length_seq. Qed.

Lemma lookup_storage xs cap (j : nat) :
  storage xs cap !! j = if decide (j < Z.to_nat cap)%nat then Some (xs !! j) else None.
Proof.
  unfold storage. rewrite list_lookup_fmap. case_decide.
  - by rewrite lookup_seq_lt.
  - by rewrite lookup_seq_ge by lia.
Qed.

Lemma block_ext blk1 blk2 :
  length blk1 = length blk2 →
  (∀ j : nat, (j < length blk1)%nat → blk1 !! j = blk2 !! j) →
  blk1 = blk2.
Proof.
  intros Hlen Hj. apply list_eq. intros j.
  destruct (decide (j < length blk1)%nat); [by apply Hj|].
  rewrite (proj2 (lookup_ge_None blk1 j)), (proj2 (lookup_ge_None blk2 j)); [done|lia..].
Qed.

Lemma storage_intro blk xs cap :
  length blk = Z.to_nat cap →
  (∀ j : nat, (j < Z.to_nat cap)%nat → blk !! j = Some (xs !! j)) →
  blk = storage xs cap.
Proof.
  intros Hlen Hj. apply block_ext.
  - by rewrite length_storage.
  - intros j ?. rewrite lookup_storage, decide_True by lia. apply Hj. lia.
Qed.

Lemma lookup_splice blk (first : Z) mid (j : nat) :
  0 ≤ first → first + Z.of_nat (length mid) ≤ Z.of_nat (length blk) →
  splice blk first mid !! j =
    if decide (j < Z.to_nat first)%nat then blk !! j
    else if decide (j < Z.to_nat first + length mid)%nat then mid !! (j - Z.to_nat first)%nat
    else blk !! j.
Proof.
  intros ??. unfold splice.
  rewrite lookup_app, lookup_take, length_take, lookup_app, lookup_drop.
  repeat case_decide; try lia.
  - destruct (blk !! j) eqn:Hj; [done|]. apply lookup_ge_None in Hj. lia.
  - replace (j - Z.to_nat first `min` length blk)%nat with (j - Z.to_nat first)%nat by lia.
    destruct (mid !! _) eqn:Hm; [done|]. apply lookup_ge_None in Hm. lia.
  - replace (j - Z.to_nat first `min` length blk)%nat with (j - Z.to_nat first)%nat by lia.
    rewrite (proj2 (lookup_ge_None mid _)) by lia. f_equal. lia.
Qed.

Lemma length_splice blk (first : Z) mid :
  0 ≤ first → first + Z.of_nat (length mid) ≤ Z.of_nat (length blk) →
  length (splice blk first mid) = length blk.
Proof.
  intros ??. unfold splice. rewrite !length_app, length_take, length_drop. lia.
Qed.

Lemma lookup_slice blk (first n : Z) (j : nat) :
  slice blk first n !! j =
    if decide (j < Z.to_nat n)%nat then blk !! (Z.to_nat first + j)%nat else None.
Proof. unfold slice. by rewrite lookup_take, lookup_drop. Qed.

Lemma all_live_spec (l : list (option T)) :
  all_live l = true ↔ ∀ j o, l !! j = Some o → is_Some o.
Proof.
  unfold all_live. rewrite forallb_forall. split.
  - intros Hl j o Hj. apply list_elem_of_lookup_2, list_elem_of_In, Hl in Hj.
    by apply bool_decide_eq_true in Hj.
  - intros Hl o [j Hj]%list_elem_of_In%list_elem_of_lookup.
    apply bool_decide_eq_true. eauto.
Qed.

Lemma values_live xs : values (Some <$> xs) = xs.
Proof. unfold values. induction xs; by f_equal/=. Qed.

End Blocks.

Section BlockLemmas.
Context {T : Type}.
Implicit Types (blk : list (option T)) (xs : list T).

Lemma lookup_replicate_dec {A} (n : nat) (x : A) (j : nat) :
  replicate n x !! j = if decide (j < n)%nat then Some x else None.
Proof.
  case_decide.
  - by apply lookup_replicate_2.
  - apply lookup_replicate_None. lia.
Qed.

Lemma lookup_live xs (j : nat) :
  (Some <$> xs) !! j = if decide (j < length xs)%nat then Some (xs !! j) else None.
Proof.
  rewrite list_lookup_fmap. case_decide.
  - destruct (xs !! j) eqn:Hj; [done|]. apply lookup_ge_None in Hj. lia.
  - by rewrite (proj2 (lookup_ge_None xs j)) by lia.
Qed.

Lemma storage_nil cap : storage (@nil T) cap = replicate (Z.to_nat cap) None.
Proof.
  apply block_ext.
  - by rewrite length_storage, length_replicate.
  - intros j. rewrite length_storage. intros ?.
    by rewrite lookup_storage, lookup_replicate_dec, !decide_True by lia.
Qed.

(** Reading the live prefix of a container's block. *)
Lemma storage_read xs cap :
  Z.of_nat (length xs) ≤ cap →
  all_live (slice (storage xs cap) 0 (Z.of_nat (length xs))) = true ∧
  values (slice (storage xs cap) 0 (Z.of_nat (length xs))) = xs.
Proof.
  intros ?.
  assert (slice (storage xs cap) 0 (Z.of_nat (length xs)) = Some <$> xs) as ->.
  { apply list_eq. intros j. rewrite lookup_slice, lookup_live, lookup_storage.
    repeat case_decide; try done; lia. }
  split; [|apply values_live].
  apply all_live_spec. intros j o [x [-> _]]%list_lookup_fmap_Some. eauto.
Qed.

(** Constructing [vs] behind the live prefix. *)
Lemma storage_append xs vs cap :
  Z.of_nat (length xs + length vs) ≤ cap →
  splice (storage xs cap) (Z.of_nat (length xs)) (Some <$> vs) = storage (xs ++ vs) cap.
Proof.
  intros ?. apply storage_intro.
  - rewrite length_splice, length_storage; rewrite ?length_storage, ?length_fmap; lia.
  - intros j ?. rewrite lookup_splice by (rewrite ?length_storage, ?length_fmap; lia).
    rewrite length_fmap, lookup_storage, lookup_live, lookup_app.
    repeat case_decide; try lia.
    + destruct (xs !! j) eqn:Hj; [done|]. apply lookup_ge_None in Hj. lia.
    + rewrite (proj2 (lookup_ge_None xs j)) by lia. do 2 f_equal. lia.
    + rewrite (proj2 (lookup_ge_None xs j)), (proj2 (lookup_ge_None vs _)) by lia. done.
Qed.

(** Destroying the objects from slot [k] on. *)
Lemma storage_truncate xs cap (k : Z) :
  0 ≤ k ≤ Z.of_nat (length xs) → Z.of_nat (length xs) ≤ cap →
  splice (storage xs cap) k (replicate (Z.to_nat (Z.of_nat (length xs) - k)) None)
  = storage (take (Z.to_nat k) xs) cap.
Proof.
  intros ??. apply storage_intro.
  - rewrite length_splice, length_storage; rewrite ?length_storage, ?length_replicate; lia.
  - intros j ?. rewrite lookup_splice by (rewrite ?length_storage, ?length_replicate; lia).
    rewrite length_replicate, lookup_storage, lookup_replicate_dec, lookup_take.
    repeat case_decide; try done; try lia.
    rewrite (proj2 (lookup_ge_None xs j)) by lia. done.
Qed.

Lemma storage_snoc xs v cap :
  Z.of_nat (length xs) < cap →
  <[length xs := Some v]> (storage xs cap) = storage (xs ++ [v]) cap.
Proof.
  intros ?. apply storage_intro.
  - rewrite length_insert, length_storage. done.
  - intros j ?. rewrite list_lookup_insert, length_storage, lookup_storage, lookup_app.
    repeat case_decide; try lia.
    + destruct_and!; subst. rewrite (proj2 (lookup_ge_None xs _)) by lia.
      by rewrite Nat.sub_diag.
    + destruct (xs !! j) eqn:Hj; [done|]. apply lookup_ge_None in Hj.
      rewrite (proj2 (lookup_ge_None [v] _)); [done|simpl; lia].
Qed.

End BlockLemmas.

(** ** Heap primitives on a known block *)

Section HeapLemmas.
Context {T : Type}.
Implicit Types (h : gmap positive (list (option T))) (blk : list (option T)) (xs : list T).

Lemma in_block_true blk first n :
  0 ≤ first → 0 ≤ n → first + n ≤ Z.of_nat (length blk) → in_block blk first n = true.
Proof. intros. apply bool_decide_eq_true. lia. Qed.

Lemma heap_load_ok h a blk i v :
  h !! a = Some blk → 0 ≤ i → blk !! Z.to_nat i = Some (Some v) →
  heap_load h (Some a) i = Some v.
Proof.
  intros Ha ? Hi. unfold heap_load. simpl. rewrite Ha. simpl.
  rewrite bool_decide_eq_true_2 by done. by rewrite Hi.
Qed.

Lemma heap_construct_at_ok h a blk i v :
  h !! a = Some blk → 0 ≤ i < Z.of_nat (length blk) →
  heap_construct_at h (Some a) i v = Some (<[a := <[Z.to_nat i := Some v]> blk]> h).
Proof.
  intros Ha ?. unfold heap_construct_at. simpl. rewrite Ha. simpl.
  by rewrite in_block_true by lia.
Qed.

Lemma heap_destroy_at_ok h a blk i v :
  h !! a = Some blk → 0 ≤ i → blk !! Z.to_nat i = Some (Some v) →
  heap_destroy_at h (Some a) i = Some (<[a := <[Z.to_nat i := None]> blk]> h).
Proof.
  intros Ha ? Hi. unfold heap_destroy_at. simpl. rewrite Ha. simpl.
  pose proof (lookup_lt_Some _ _ _ Hi).
  rewrite in_block_true by lia.
  assert (all_live (slice blk i 1) = true) as ->; [|done].
  apply all_live_spec. intros j o. rewrite lookup_slice. case_decide; [|done].
  replace (Z.to_nat i + j)%nat with (Z.to_nat i) by lia. rewrite Hi. intros [= <-]. eauto.
Qed.

Lemma heap_destroy_n_ok h a blk first n :
  h !! a = Some blk → 0 ≤ first → 0 ≤ n → first + n ≤ Z.of_nat (length blk) →
  all_live (slice blk first n) = true →
  heap_destroy_n h (Some a) first n
  = Some (<[a := splice blk first (replicate (Z.to_nat n) None)]> h).
Proof.
  intros Ha ??? Hlive. unfold heap_destroy_n. case_bool_decide as Hn.
  - subst n. f_equal. symmetry. apply insert_id. rewrite Ha. f_equal.
    unfold splice. simpl. by rewrite Nat.add_0_r, take_drop.
  - simpl. rewrite Ha. simpl. by rewrite in_block_true, Hlive by lia.
Qed.

Lemma heap_read_n_ok h a blk first n :
  h !! a = Some blk → 0 ≤ first → 0 ≤ n → first + n ≤ Z.of_nat (length blk) →
  all_live (slice blk first n) = true →
  heap_read_n h (Some a) first n = Some (values (slice blk first n)).
Proof.
  intros Ha ??? Hlive. unfold heap_read_n. case_bool_decide as Hn.
  - by subst n.
  - simpl. rewrite Ha. simpl. by rewrite in_block_true, Hlive by lia.
Qed.

Lemma heap_write_n_ok h a blk first vs :
  h !! a = Some blk → 0 ≤ first → first + Z.of_nat (length vs) ≤ Z.of_nat (length blk) →
  heap_write_n h (Some a) first vs = Some (<[a := splice blk first (Some <$> vs)]> h).
Proof.
  intros Ha ??. unfold heap_write_n. case_bool_decide as Hn.
  - subst vs. f_equal. symmetry. apply insert_id. rewrite Ha. f_equal.
    unfold splice. simpl. by rewrite Nat.add_0_r, take_drop.
  - simpl. rewrite Ha. simpl. by rewrite in_block_true by lia.
Qed.

Lemma heap_fill_n_ok h a blk first n v :
  h !! a = Some blk → 0 ≤ first → 0 ≤ n → first + n ≤ Z.of_nat (length blk) →
  heap_fill_n h (Some a) first n v
  = Some (<[a := splice blk first (Some <$> replicate (Z.to_nat n) v)]> h).
Proof.
  intros Ha ???. unfold heap_fill_n. case_bool_decide as Hn.
  - subst n. f_equal. symmetry. apply insert_id. rewrite Ha. f_equal.
    unfold splice. simpl. by rewrite Nat.add_0_r, take_drop.
  - simpl. rewrite Ha. simpl. by rewrite in_block_true, fmap_replicate by lia.
Qed.

Lemma heap_allocate_fresh h capacity p h' :
  heap_allocate h capacity = (p, h') →
  match p with
  | None => capacity = 0 ∧ h' = h
  | Some a => capacity ≠ 0 ∧ h !! a = None ∧ h' = <[a := storage [] capacity]> h
  end.
Proof.
  unfold heap_allocate. case_bool_decide; intros [= <- <-]; [done|].
  split_and!; [done| |by rewrite storage_nil].
  apply not_elem_of_dom, is_fresh.
Qed.

End HeapLemmas.

#[global] Arguments heap_load : simpl never.
#[global] Arguments heap_construct_at : simpl never.
#[global] Arguments heap_destroy_at : simpl never.
#[global] Arguments heap_destroy_n : simpl never.
#[global] Arguments heap_fill_n : simpl never.
#[global] Arguments heap_read_n : simpl never.
#[global] Arguments heap_write_n : simpl never.
#[global] Arguments heap_copy_n : simpl never.
#[global] Arguments heap_allocate : simpl never.
#[global] Arguments heap_deallocate : simpl never.

(** ** The representation invariant *)

Section Rep.
Context {T : Type} `{!Element T}.
Implicit Types (c : DynamicArray) (h : gmap positive (list (option T))) (xs : list T).

Lemma rep_invariant c h xs : rep c h xs → size_capacity_invariant c.
Proof.
  intros (Hs & ? & ? & Hd). split; [lia|].
  intros Hc. destruct (m_data c); [lia|done].
Qed.

Lemma rep_unique c h xs ys : rep c h xs → rep c h ys → xs = ys.
Proof.
  intros (Hs & ? & ? & Hd) (Hs' & _ & _ & Hd').
  destruct (m_data c) as [a|].
  - destruct Hd as [? Ha], Hd' as [_ Ha']. rewrite Ha in Ha'. injection Ha' as Heq.
    apply list_eq. intros j.
    destruct (decide (j < Z.to_nat (m_capacity c))%nat).
    + apply (f_equal (.!! j)) in Heq. rewrite !lookup_storage, !decide_True in Heq by done.
      congruence.
    + rewrite (proj2 (lookup_ge_None xs j)), (proj2 (lookup_ge_None ys j)); [done|lia..].
  - assert (length xs = 0%nat) as ->%nil_length_inv by lia.
    assert (length ys = 0%nat) as ->%nil_length_inv by lia. done.
Qed.

Lemma frame_refl c h : frame c h c h.
Proof. intros q blk ??. done. Qed.

Lemma frame_trans c1 h1 c2 h2 c3 h3 :
  frame c1 h1 c2 h2 → frame c2 h2 c3 h3 → frame c1 h1 c3 h3.
Proof. intros H12 H23 q blk Hq Hne. destruct (H12 q blk Hq Hne). by apply H23. Qed.

Lemma rep_empty h : rep empty_array h [].
Proof. by repeat split. Qed.

Lemma rep_size c h xs : rep c h xs → m_size c = Z.of_nat (length xs).
Proof. by intros [? _]. Qed.

Lemma rep_block c h xs :
  rep c h xs → 0 < m_capacity c →
  ∃ a, m_data c = Some a ∧ h !! a = Some (storage xs (m_capacity c)).
Proof.
  intros (_ & _ & _ & Hd) ?. destruct (m_data c) as [a|]; [|lia].
  exists a. tauto.
Qed.

Lemma rep_lookup c h xs a (j : nat) v :
  rep c h xs → m_data c = Some a → xs !! j = Some v →
  ∃ blk, h !! a = Some blk ∧ blk !! j = Some (Some v).
Proof.
  intros (Hs & ? & ? & Hd) Ha Hj. rewrite Ha in Hd. destruct Hd as [? Hh].
  eexists; split; [done|]. rewrite lookup_storage, decide_True, Hj; [done|].
  apply lookup_lt_Some in Hj. lia.
Qed.

End Rep.

(** ** Running member functions symbolically *)

Ltac run :=
  cbv beta iota zeta delta
      [mbind M_mbind M_bind mret M_mret M_ret throw get set_data set_size set_capacity
       on_heap load construct_at destroy_at destroy_n uninitialized_fill_n
       uninitialized_copy_n uninitialized_move_n allocate deallocate];
  cbn [self mem m_data m_size m_capacity il_begin il_size].

Section Helpers.
Context {T : Type} `{!Element T}.
Implicit Types (c : DynamicArray) (h : gmap positive (list (option T))) (xs : list T).

Lemma drop_block_insert (p : ptr) a blk h :
  p ≠ Some a → drop_block p (<[a := blk]> h) = <[a := blk]> (drop_block p h).
Proof.
  destruct p as [b|]; simpl; [|done]. intros ?.
  apply delete_insert_ne. congruence.
Qed.

Lemma truncate_storage c h xs (k : Z) :
  rep c h xs → 0 ≤ k ≤ m_size c →
  heap_destroy_n h (m_data c) k (m_size c - k)
  = Some (set_block (m_data c) (storage (take (Z.to_nat k) xs) (m_capacity c)) h).
Proof.
  intros (Hs & ? & ? & Hd) ?. destruct (m_data c) as [a|]; simpl.
  - destruct Hd as [? Ha].
    rewrite (heap_destroy_n_ok _ _ _ _ _ Ha); rewrite ?length_storage; try lia.
    + rewrite Hs. by rewrite storage_truncate by lia.
    + apply all_live_spec. intros j o. rewrite lookup_slice, lookup_storage.
      repeat case_decide; try done. intros [= <-].
      apply lookup_lt_is_Some. lia.
  - unfold heap_destroy_n. rewrite bool_decide_eq_true_2; [done|lia].
Qed.

Lemma rep_truncate c h xs (k : Z) :
  rep c h xs → 0 ≤ k ≤ m_size c →
  rep (Fields (m_data c) k (m_capacity c))
      (set_block (m_data c) (storage (take (Z.to_nat k) xs) (m_capacity c)) h)
      (take (Z.to_nat k) xs).
Proof.
  intros (Hs & ? & ? & Hd) ?. repeat split; simpl; try lia.
  - rewrite length_take. lia.
  - destruct (m_data c) as [a|]; simpl; [|done].
    split; [lia|]. by rewrite lookup_insert_eq.
Qed.

Lemma frame_set_block c h blk sz cap :
  frame c h (Fields (m_data c) sz cap) (set_block (m_data c) blk h).
Proof.
  intros q b Hq Hne. split; [|done].
  destruct (m_data c) as [a|]; simpl; [|done].
  rewrite lookup_insert_ne; [done|congruence].
Qed.

Lemma replaceStorage_ok c h xs nd ns nc :
  rep c h xs →
  replaceStorage nd ns nc (St c h) = Ok tt (St (Fields nd ns nc) (drop_block (m_data c) h)).
Proof.
  intros Hrep. unfold replaceStorage. run.
  pose proof (truncate_storage c h xs 0 Hrep) as Hd.
  rewrite Z.sub_0_r in Hd. rewrite Hd by (destruct Hrep; lia). run.
  destruct Hrep as (_ & _ & _ & Hb).
  destruct (m_data c) as [a|]; simpl; [|done].
  unfold heap_deallocate. rewrite lookup_insert_eq, bool_decide_eq_true_2 by eauto.
  by rewrite delete_insert_eq.
Qed.

Lemma rep_readable c h xs : rep c h xs → readable h (m_data c) xs.
Proof.
  intros (Hs & ? & ? & Hd). unfold readable. destruct (m_data c).
  - exists (m_capacity c). split; [tauto|lia].
  - apply nil_length_inv. lia.
Qed.

Lemma heap_read_n_readable h src ys :
  readable h src ys → heap_read_n h src 0 (Z.of_nat (length ys)) = Some ys.
Proof.
  unfold readable. destruct src as [a|].
  - intros (cap & Ha & ?). destruct (storage_read ys cap) as [Hl Hv]; [done|].
    rewrite (heap_read_n_ok _ _ _ _ _ Ha); rewrite ?length_storage; try done; try lia.
    by rewrite Hv.
  - intros ->. done.
Qed.

Lemma heap_copy_n_ok h src ys b blk (dfirst : Z) :
  readable h src ys → h !! b = Some blk →
  0 ≤ dfirst → dfirst + Z.of_nat (length ys) ≤ Z.of_nat (length blk) →
  heap_copy_n h src 0 (Z.of_nat (length ys)) (Some b) dfirst
  = Some (<[b := splice blk dfirst (Some <$> ys)]> h).
Proof.
  intros Hsrc Hb ??. unfold heap_copy_n.
  rewrite (heap_read_n_readable _ _ _ Hsrc). simpl.
  by apply heap_write_n_ok.
Qed.

Lemma reallocate_ok c h xs nc :
  rep c h xs → m_size c ≤ nc → 0 < nc →
  ∃ a', h !! a' = None ∧
    reallocate nc (St c h)
    = Ok tt (St (Fields (Some a') (m_size c) nc)
                (<[a' := storage xs nc]> (drop_block (m_data c) h))).
Proof.
  intros Hrep ??. unfold reallocate. run.
  destruct (heap_allocate h nc) as [p h1] eqn:Hal. apply heap_allocate_fresh in Hal.
  destruct p as [a'|]; [|lia]. destruct Hal as (_ & Hfresh & ->).
  exists a'. split; [done|]. run.
  pose proof (rep_size _ _ _ Hrep) as Hs.
  assert (rep c (<[a':=storage [] nc]> h) xs) as Hrep1.
  { destruct Hrep as (? & ? & ? & Hd). repeat split; try done.
    destruct (m_data c) as [a|]; [|done]. destruct Hd as [? Ha]. split; [done|].
    rewrite lookup_insert_ne; [done|]. intros ->. congruence. }
  assert (heap_copy_n (<[a':=storage [] nc]> h) (m_data c) 0 (m_size c `min` nc) (Some a') 0
          = Some (<[a' := storage xs nc]> h)) as Hcopy.
  { rewrite Z.min_l, Hs by done.
    erewrite heap_copy_n_ok; [|by apply rep_readable|apply lookup_insert_eq|done|].
    - rewrite insert_insert_eq. do 2 f_equal.
      change 0 with (Z.of_nat (length (@nil T))). rewrite storage_append; [done|simpl; lia].
    - rewrite length_storage. lia. }
  assert (rep c (<[a':=storage xs nc]> h) xs) as Hrep2.
  { destruct Hrep as (? & ? & ? & Hd). repeat split; try done.
    destruct (m_data c) as [a|]; [|done]. destruct Hd as [? Ha]. split; [done|].
    rewrite lookup_insert_ne; [done|]. intros ->. congruence. }
  assert (m_data c ≠ Some a') as Hne.
  { intros Hd. destruct Hrep as (_ & _ & _ & Hb). rewrite Hd in Hb.
    destruct Hb. congruence. }
  destruct (nothrow_move_constructible || negb copy_constructible);
    run; rewrite Hcopy; rewrite (replaceStorage_ok _ _ xs) by done;
    by rewrite drop_block_insert, Z.min_l.
Qed.

(** The state [reallocate] and [assign] leave: the elements in a block of
    their own at an address that was free. *)
Lemma rep_moved c h xs ys a' nc :
  rep c h xs → h !! a' = None →
  Z.of_nat (length ys) ≤ nc → 0 < nc → nc ≤ SIZE_MAX →
  let c' := Fields (Some a') (Z.of_nat (length ys)) nc in
  let h' := <[a' := storage ys nc]> (drop_block (m_data c) h) in
  rep c' h' ys ∧ frame c h c' h'.
Proof.
  intros Hrep Hfresh ??? c' h'. split.
  - repeat split; simpl; try lia. apply lookup_insert_eq.
  - intros q blk Hq Hne. simpl. split; [|congruence].
    unfold h'. rewrite lookup_insert_ne by congruence.
    destruct (m_data c) as [a|]; simpl; [|done].
    rewrite lookup_delete_ne; [done|congruence].
Qed.

Lemma ensureCapacity_spec c h xs minCapacity E :
  rep c h xs → minCapacity ≤ SIZE_MAX →
  wp (ensureCapacity minCapacity) (St c h)
     (λ _ s', rep (self s') (mem s') xs ∧ frame c h (self s') (mem s') ∧
              m_capacity (self s') = grown (m_capacity c) minCapacity ∧
              minCapacity ≤ m_capacity (self s')) E.
Proof.
  intros Hrep ?. unfold ensureCapacity, grown, wp. run.
  case_bool_decide as Hle; run.
  { split_and!; [done|apply frame_refl|done|done]. }
  pose proof Hrep as (Hs & ? & ? & _).
  set (nc := if bool_decide (_ < minCapacity) then minCapacity else _).
  assert (nc = minCapacity `max` ((m_capacity c + m_capacity c / 2) `min` SIZE_MAX)) as Hnc.
  { unfold nc.
    assert (0 ≤ m_capacity c / 2 ≤ m_capacity c)
      by (split; [apply Z.div_pos|apply Z.div_le_upper_bound]; lia).
    repeat case_bool_decide; rewrite ?wrap_small in * by lia; lia. }
  destruct (reallocate_ok c h xs nc) as (a' & Hfresh & ->); [done|lia..|].
  rewrite Hs. destruct (rep_moved c h xs xs a' nc) as [? ?]; [done|done|lia..|].
  rewrite <- Hs in *. split_and!; simpl; [done|done|done|lia].
Qed.

End Helpers.

(** ** Element access, append and capacity *)

Section Access.
Context {T : Type} `{!Element T}.
Implicit Types (c : DynamicArray) (h : gmap positive (list (option T))) (xs : list T).

Lemma checkRange_spec c h xs index allowEnd :
  rep c h xs → m_size c < SIZE_MAX →
  checkRange index allowEnd (St c h)
  = if bool_decide (index >= m_size c + (if allowEnd then 1 else 0))
    then Throw out_of_range (St c h) else Ok tt (St c h).
Proof.
  intros (Hs & _) ?. unfold checkRange. run.
  rewrite wrap_small by (destruct allowEnd; lia).
  by case_bool_decide.
Qed.

Lemma checkRange_strict c h index :
  0 ≤ m_size c ≤ SIZE_MAX →
  checkRange index false (St c h)
  = if bool_decide (index >= m_size c)
    then Throw out_of_range (St c h) else Ok tt (St c h).
Proof.
  intros ?. unfold checkRange. run.
  rewrite Z.add_0_r, wrap_small by lia.
  by case_bool_decide.
Qed.

Lemma rep_size_range c h xs : rep c h xs → 0 ≤ m_size c ≤ SIZE_MAX.
Proof. intros (? & ? & ? & _). lia. Qed.

Lemma rep_push c h xs x :
  rep c h xs → m_size c < m_capacity c →
  ∃ a, m_data c = Some a ∧
    heap_construct_at h (Some a) (m_size c) x
    = Some (<[a := storage (xs ++ [x]) (m_capacity c)]> h) ∧
    rep (Fields (Some a) (m_size c + 1) (m_capacity c))
        (<[a := storage (xs ++ [x]) (m_capacity c)]> h) (xs ++ [x]).
Proof.
  intros Hrep ?. pose proof Hrep as (Hs & ? & ? & _).
  destruct (rep_block c h xs) as (a & Hd & Ha); [done|lia|].
  exists a. split_and!; [done| |].
  - rewrite (heap_construct_at_ok _ _ _ _ _ Ha) by (rewrite length_storage; lia).
    rewrite Hs, Nat2Z.id, storage_snoc by lia. done.
  - repeat split; simpl; try lia.
    + rewrite length_app. simpl. lia.
    + apply lookup_insert_eq.
Qed.

Lemma frame_own_block c h a blk sz cap :
  m_data c = Some a → frame c h (Fields (Some a) sz cap) (<[a := blk]> h).
Proof.
  intros Hd q b Hq Hne. simpl. rewrite <- Hd. split; [|done].
  rewrite lookup_insert_ne; [done|congruence].
Qed.

Lemma Emplace_spec c h xs x :
  rep c h xs → m_size c < SIZE_MAX →
  wp (Emplace x) (St c h)
     (λ r s', rep (self s') (mem s') (xs ++ [x]) ∧ frame c h (self s') (mem s') ∧
              r = Ref (m_data (self s')) (m_size c) ∧
              m_capacity (self s') = grown (m_capacity c) (m_size c + 1))
     no_throw.
Proof.
  intros Hrep ?. pose proof (rep_size_range _ _ _ Hrep).
  unfold Emplace, wp. run. rewrite wrap_small by lia.
  destruct (wp_ok_inv _ _ _ (ensureCapacity_spec c h xs (m_size c + 1) _ Hrep ltac:(lia)))
    as ([] & [c1 h1] & -> & Hrep1 & Hfr & Hcap & Hge). simpl in *.
  assert (m_size c1 = m_size c) as Hs1
    by (rewrite (rep_size _ _ _ Hrep), (rep_size _ _ _ Hrep1); done).
  destruct (rep_push c1 h1 xs x) as (a & Hd & Hc & Hrep2); [done|lia|].
  run. rewrite Hd, Hc. run. rewrite Hd, Hs1 in *. rewrite wrap_small by lia.
  split_and!; simpl; [done| |done|done].
  eapply frame_trans; [done|]. by apply frame_own_block.
Qed.

(** Called with a reference to an object outside the container's storage,
    [Emplace] is [Emplace] of the value referred to. *)
Lemma Emplace_ref_outside c h xs (r : ref) x :
  rep c h xs → m_size c < SIZE_MAX →
  deref h r = Some x → (∀ q, ref_block r = Some q → m_data c ≠ Some q) →
  Emplace_ref r (St c h) = Emplace x (St c h).
Proof.
  intros Hrep ? Hr Hout. pose proof (rep_size_range _ _ _ Hrep).
  unfold Emplace_ref, Emplace. run. rewrite wrap_small by lia.
  destruct (wp_ok_inv _ _ _ (ensureCapacity_spec c h xs (m_size c + 1) _ Hrep ltac:(lia)))
    as ([] & [c1 h1] & -> & Hrep1 & Hfr & _). simpl in *. run.
  assert (heap_load h1 (ref_block r) (ref_index r) = Some x) as ->; [|done].
  unfold deref, heap_load in *. destruct (ref_block r) as [q|]; [|done]. simpl in *.
  destruct (h !! q) as [blk|] eqn:Hq; [|done].
  destruct (Hfr q blk Hq (Hout q eq_refl)) as [-> _]. done.
Qed.

Lemma Add_spec c h xs x :
  rep c h xs → m_size c < SIZE_MAX →
  wp (Add x) (St c h)
     (λ _ s', rep (self s') (mem s') (xs ++ [x]) ∧ frame c h (self s') (mem s') ∧
              m_capacity (self s') = grown (m_capacity c) (m_size c + 1))
     no_throw.
Proof.
  intros Hrep ?. unfold Add, wp. run.
  destruct (wp_ok_inv _ _ _ (Emplace_spec c h xs x Hrep ltac:(done)))
    as (r & [c1 h1] & -> & ? & ? & ? & ?). done.
Qed.

Lemma Reserve_spec c h xs n :
  rep c h xs → 0 ≤ n ≤ SIZE_MAX →
  wp (Reserve n) (St c h)
     (λ _ s', rep (self s') (mem s') xs ∧ frame c h (self s') (mem s') ∧
              m_capacity (self s') = Z.max n (m_capacity c) ∧
              (n ≤ m_capacity c → s' = St c h))
     no_throw.
Proof.
  intros Hrep ?. pose proof Hrep as (Hs & ? & ? & _).
  unfold Reserve, wp. run. case_bool_decide; run.
  - destruct (reallocate_ok c h xs n) as (a' & Hfresh & ->); [done|lia..|].
    rewrite Hs. destruct (rep_moved c h xs xs a' n) as [? ?]; [done|done|lia..|].
    simpl. split_and!; [done|done|lia|lia].
  - split_and!; [done|apply frame_refl|lia|done].
Qed.

Lemma subscript_spec c h xs index :
  rep c h xs →
  subscript index (St c h)
  = if bool_decide (index >= m_size c)
    then Throw out_of_range (St c h)
    else Ok (Ref (m_data c) index) (St c h).
Proof.
  intros Hrep. unfold subscript. run.
  rewrite checkRange_strict by (by eapply rep_size_range).
  by case_bool_decide.
Qed.

Lemma deref_element c h xs (i : nat) v :
  rep c h xs → xs !! i = Some v → deref h (Ref (m_data c) (Z.of_nat i)) = Some v.
Proof.
  intros Hrep Hi. pose proof (lookup_lt_Some _ _ _ Hi).
  pose proof Hrep as (Hs & ? & ? & _).
  destruct (rep_block c h xs) as (a & Hd & Ha); [done|lia|].
  unfold deref. simpl. rewrite Hd.
  apply (heap_load_ok _ _ _ _ _ Ha); [lia|].
  rewrite Nat2Z.id, lookup_storage, decide_True, Hi by lia. done.
Qed.

Lemma Clear_spec c h xs :
  rep c h xs →
  wp Clear (St c h)
     (λ _ s', rep (self s') (mem s') [] ∧ frame c h (self s') (mem s') ∧
              m_data (self s') = m_data c ∧ m_capacity (self s') = m_capacity c)
     no_throw.
Proof.
  intros Hrep. unfold Clear, wp. run.
  pose proof (truncate_storage c h xs 0 Hrep) as Hd.
  rewrite Z.sub_0_r in Hd. rewrite Hd by (pose proof (rep_size_range _ _ _ Hrep); lia). run.
  split_and!; [|apply frame_set_block|done..].
  apply (rep_truncate c h xs 0 Hrep). pose proof (rep_size_range _ _ _ Hrep); lia.
Qed.

End Access.

(** Removing the [wrap] around sums that stay in range, innermost first. *)
Ltac unwrap :=
  repeat match goal with
         | |- context [wrap ?z] =>
             lazymatch z with
             | context [wrap _] => fail
             | _ => rewrite (wrap_small z) by lia
             end
         end.

Lemma lookup_app_dec {A} (l1 l2 : list A) (j : nat) :
  (l1 ++ l2) !! j = if decide (j < length l1)%nat then l1 !! j else l2 !! (j - length l1)%nat.
Proof. case_decide; [by apply lookup_app_l|apply lookup_app_r; lia]. Qed.

(** Slot-by-slot comparison of two blocks: every lookup is brought to a case
    distinction on the index, and the cases are closed by arithmetic. *)
Ltac slot_lookups :=
  repeat first
    [ rewrite lookup_app_dec | rewrite lookup_take | rewrite lookup_drop
    | rewrite lookup_live | rewrite lookup_storage | rewrite lookup_replicate_dec
    | rewrite list_lookup_insert | rewrite length_take | rewrite length_drop
    | rewrite length_app | rewrite length_insert | rewrite length_replicate
    | rewrite length_fmap | rewrite length_storage ].

Ltac slot_none :=
  repeat match goal with
         | |- context [?l !! ?k] =>
             rewrite (proj2 (lookup_ge_None l k)) by (simpl; lia)
         end.

Ltac slot_index :=
  match goal with
  | |- ?l !! ?a = ?l !! ?b => replace a with b by lia; reflexivity
  | |- Some (?l !! ?a) = Some (?l !! ?b) => replace a with b by lia; reflexivity
  end.

Ltac slot_cases :=
  cbn [length] in *; repeat case_decide; destruct_and?; simplify_eq;
  try done; try lia; try slot_index; try (slot_none; done).

Ltac slots := slot_lookups; slot_cases.

(** ** The shifting loops *)

Section Shifts.
Context {T : Type} `{!Element T}.
Implicit Types (c : DynamicArray) (h : gmap positive (list (option T))) (xs : list T)
  (blk : list (option T)).

(** One iteration of either loop: move the object in slot [src] to slot
    [dest]. *)
Lemma move_slot {B} c h a blk (src dest : nat) v (k : M (@state T) B) :
  m_data c = Some a → h !! a = Some blk →
  blk !! src = Some (Some v) → (dest < length blk)%nat → src ≠ dest →
  (d ← get m_data; v ← load d (Z.of_nat src);
   construct_at d (Z.of_nat dest) v;; destroy_at d (Z.of_nat src);; k) (St c h)
  = k (St c (<[a := <[src := None]> (<[dest := Some v]> blk)]> h)).
Proof.
  intros Hd Ha Hsrc ? ?. run. rewrite Hd.
  rewrite (heap_load_ok _ _ _ _ _ Ha) by (rewrite ?Nat2Z.id; done || lia).
  rewrite (heap_construct_at_ok _ _ _ _ _ Ha) by lia.
  erewrite heap_destroy_at_ok; [|apply lookup_insert_eq|lia|].
  - run. by rewrite insert_insert_eq, !Nat2Z.id.
  - rewrite !Nat2Z.id, list_lookup_insert_ne by done. done.
Qed.

Lemma shiftLeft_loop_ok c a (index count : nat) :
  m_data c = Some a → (1 ≤ count)%nat →
  ∀ (left i : nat) h blk,
    h !! a = Some blk →
    Z.of_nat (length blk) ≤ SIZE_MAX →
    (index + count + i + left ≤ length blk)%nat →
    (∀ j, (index + count + i ≤ j < index + count + i + left)%nat →
          ∃ v, blk !! j = Some (Some v)) →
    ∃ blk',
      shiftLeft_loop (Z.of_nat index) (Z.of_nat count) (Z.of_nat i) left (St c h)
      = Ok tt (St c (<[a := blk']> h)) ∧
      length blk' = length blk ∧
      ∀ j : nat, blk' !! j =
        if decide (index + i ≤ j < index + i + left)%nat then blk !! (j + count)%nat
        else if decide ((index + i + left) `max` (index + i + count) ≤ j
                        < index + i + count + left)%nat then Some None
        else blk !! j.
Proof.
  intros Hd Hcount. induction left as [|left IH]; intros i h blk Ha Hmax Hlen Hlive.
  - exists blk. split_and!; [by rewrite insert_id|done|].
    intros j. repeat case_decide; try lia. done.
  - cbn [shiftLeft_loop].
    replace (wrap (wrap (Z.of_nat index + Z.of_nat count) + Z.of_nat i))
      with (Z.of_nat (index + count + i)) by (unwrap; lia).
    replace (wrap (Z.of_nat index + Z.of_nat i))
      with (Z.of_nat (index + i)) by (unwrap; lia).
    replace (wrap (Z.of_nat i + 1))
      with (Z.of_nat (S i)) by (unwrap; lia).
    destruct (Hlive (index + count + i)%nat) as [v Hv]; [lia|].
    rewrite (move_slot c h a blk _ _ v) by (done || lia).
    set (blk1 := <[_ := None]> _).
    destruct (IH (S i) (<[a := blk1]> h) blk1) as (blk' & -> & Hlen' & Hblk').
    + apply lookup_insert_eq.
    + unfold blk1. rewrite !length_insert. done.
    + unfold blk1. rewrite !length_insert. lia.
    + intros j ?. destruct (Hlive j) as [w Hw]; [lia|]. exists w.
      unfold blk1. rewrite !list_lookup_insert_ne by lia. done.
    + exists blk'. split_and!.
      * by rewrite insert_insert_eq.
      * rewrite Hlen'. unfold blk1. by rewrite !length_insert.
      * intros j. rewrite Hblk'. unfold blk1.
        rewrite !list_lookup_insert, !length_insert.
        repeat case_decide; try lia; try done; destruct_and?; simplify_eq; try done;
          try (f_equal; lia); try (rewrite <- Hv; f_equal; lia).
Qed.

Lemma shiftRight_loop_ok c a (index count : nat) :
  m_data c = Some a → (1 ≤ count)%nat →
  ∀ (i : nat) h blk,
    h !! a = Some blk →
    Z.of_nat (length blk) ≤ SIZE_MAX →
    (index + i + count ≤ length blk)%nat →
    (∀ j, (index ≤ j < index + i)%nat → ∃ v, blk !! j = Some (Some v)) →
    ∃ blk',
      shiftRight_loop (Z.of_nat index) (Z.of_nat count) i (St c h)
      = Ok tt (St c (<[a := blk']> h)) ∧
      length blk' = length blk ∧
      ∀ j : nat, blk' !! j =
        if decide (index + count ≤ j < index + count + i)%nat then blk !! (j - count)%nat
        else if decide (index ≤ j < (index + i) `min` (index + count))%nat then Some None
        else blk !! j.
Proof.
  intros Hd Hcount. induction i as [|i IH]; intros h blk Ha Hmax Hlen Hlive.
  - exists blk. split_and!; [by rewrite insert_id|done|].
    intros j. repeat case_decide; try lia. done.
  - cbn [shiftRight_loop].
    replace (wrap (wrap (Z.of_nat index + Z.of_nat i) + Z.of_nat count))
      with (Z.of_nat (index + i + count)) by (unwrap; lia).
    replace (wrap (Z.of_nat index + Z.of_nat i))
      with (Z.of_nat (index + i)) by (unwrap; lia).
    destruct (Hlive (index + i)%nat) as [v Hv]; [lia|].
    rewrite (move_slot c h a blk _ _ v) by (done || lia).
    set (blk1 := <[_ := None]> _).
    destruct (IH (<[a := blk1]> h) blk1) as (blk' & -> & Hlen' & Hblk').
    + apply lookup_insert_eq.
    + unfold blk1. rewrite !length_insert. done.
    + unfold blk1. rewrite !length_insert. lia.
    + intros j ?. destruct (Hlive j) as [w Hw]; [lia|]. exists w.
      unfold blk1. rewrite !list_lookup_insert_ne by lia. done.
    + exists blk'. split_and!.
      * by rewrite insert_insert_eq.
      * rewrite Hlen'. unfold blk1. by rewrite !length_insert.
      * intros j. rewrite Hblk'. unfold blk1.
        rewrite !list_lookup_insert, !length_insert.
        repeat case_decide; try lia; try done; destruct_and?; simplify_eq; try done;
          try (f_equal; lia); try (rewrite <- Hv; f_equal; lia).
Qed.

(** Closing a gap of [k] raw slots at [index]: what [shiftLeft] does after
    the objects in the gap were destroyed. *)
Lemma close_gap c h xs a blk (index k : nat) :
  m_data c = Some a → h !! a = Some blk →
  m_size c = Z.of_nat (length xs) → Z.of_nat (length xs) ≤ m_capacity c ≤ SIZE_MAX →
  length blk = Z.to_nat (m_capacity c) →
  (1 ≤ k)%nat → (index + k ≤ length xs)%nat →
  (∀ j : nat, blk !! j = if decide (index ≤ j < index + k)%nat then Some None
                         else storage xs (m_capacity c) !! j) →
  shiftLeft (Z.of_nat index) (Z.of_nat k) (St c h)
  = Ok tt (St c (<[a := storage (take index xs ++ drop (index + k) xs) (m_capacity c)]> h)).
Proof.
  intros Hd Ha Hs ? Hlen ? ? Hblk. unfold shiftLeft. run.
  replace (Z.to_nat (wrap (wrap (m_size c - Z.of_nat index) - Z.of_nat k)))
    with (length xs - index - k)%nat by (unwrap; lia).
  destruct (shiftLeft_loop_ok c a index k Hd ltac:(done) (length xs - index - k) 0 h blk)
    as (blk' & Heq & Hlen' & Hblk'); [done|lia|lia| |].
  { intros j ?. rewrite Hblk, decide_False, lookup_storage, decide_True by lia.
    destruct (lookup_lt_is_Some_2 xs j) as [v ->]; [lia|]. eauto. }
  change (Z.of_nat 0) with 0 in Heq. rewrite Heq.
  do 3 f_equal. apply storage_intro; [lia|].
  intros j ?. rewrite Hblk', !Hblk. slots.
Qed.

(** Opening a gap of [k] raw slots at [index]: what [shiftRight] leaves. *)
Lemma open_gap c h xs (index k : nat) :
  rep c h xs → (1 ≤ k)%nat → (index ≤ length xs)%nat →
  Z.of_nat (length xs + k) ≤ m_capacity c →
  ∃ a blk,
    m_data c = Some a ∧
    shiftRight (Z.of_nat index) (Z.of_nat k) (St c h) = Ok tt (St c (<[a := blk]> h)) ∧
    length blk = Z.to_nat (m_capacity c) ∧
    ∀ vs, length vs = k →
      splice blk (Z.of_nat index) (Some <$> vs)
      = storage (take index xs ++ vs ++ drop index xs) (m_capacity c).
Proof.
  intros Hrep ???. pose proof Hrep as (Hs & ? & ? & _).
  destruct (rep_block c h xs) as (a & Hd & Ha); [done|lia|].
  unfold shiftRight. run.
  replace (Z.to_nat (wrap (m_size c - Z.of_nat index)))
    with (length xs - index)%nat by (unwrap; lia).
  destruct (shiftRight_loop_ok c a index k Hd ltac:(done) (length xs - index) h _ Ha)
    as (blk' & -> & Hlen' & Hblk'); [rewrite length_storage; lia..| |].
  { intros j ?. rewrite lookup_storage, decide_True by lia.
    destruct (lookup_lt_is_Some_2 xs j) as [v ->]; [lia|]. eauto. }
  rewrite length_storage in Hlen'.
  exists a, blk'. split_and!; [done..|].
  intros vs Hvs. apply storage_intro.
  - rewrite length_splice; rewrite ?length_fmap; lia.
  - intros j ?. rewrite lookup_splice by (rewrite ?length_fmap; lia).
    rewrite lookup_live, Hblk'. slots.
Qed.

End Shifts.

(** ** Removal *)

Section Removal.
Context {T : Type} `{!Element T}.
Implicit Types (c : DynamicArray) (h : gmap positive (list (option T))) (xs : list T)
  (blk : list (option T)).

Lemma length_without index k xs :
  (index + k ≤ length xs)%nat → length (without index k xs) = (length xs - k)%nat.
Proof. intros ?. unfold without. rewrite length_app, length_take, length_drop. lia. Qed.

Lemma without_0 index xs : without index 0 xs = xs.
Proof. unfold without. by rewrite Nat.add_0_r, take_drop. Qed.

Lemma rep_removed c h xs a (index k : nat) :
  rep c h xs → m_data c = Some a → (index + k ≤ length xs)%nat →
  let c' := Fields (Some a) (m_size c - Z.of_nat k) (m_capacity c) in
  let h' := <[a := storage (without index k xs) (m_capacity c)]> h in
  rep c' h' (without index k xs) ∧ frame c h c' h'.
Proof.
  intros Hrep Hd ? c' h'. pose proof Hrep as (Hs & ? & ? & Hb).
  rewrite Hd in Hb. destruct Hb as [? _]. split.
  - unfold rep; simpl. split_and!; rewrite ?length_without by done; try lia.
    apply lookup_insert_eq.
  - by apply frame_own_block.
Qed.

Lemma RemoveRange_spec c h xs (index count : Z) :
  rep c h xs → 0 ≤ index → 0 ≤ count → index + count ≤ SIZE_MAX →
  wp (RemoveRange index count) (St c h)
     (λ _ s', index < m_size c ∧
              rep (self s') (mem s')
                  (without (Z.to_nat index) (Z.to_nat (count `min` (m_size c - index))) xs) ∧
              frame c h (self s') (mem s') ∧
              m_data (self s') = m_data c ∧ m_capacity (self s') = m_capacity c)
     (λ e s', e = out_of_range ∧ m_size c ≤ index ∧ s' = St c h).
Proof.
  intros Hrep ???. pose proof Hrep as (Hs & ? & ? & _).
  unfold RemoveRange, wp. run. rewrite checkRange_strict by lia.
  case_bool_decide; run; [split_and!; (done || lia)|].
  case_bool_decide as Hc; run.
  { subst count. rewrite Z.min_l by lia. change (Z.to_nat 0) with 0%nat.
    rewrite without_0. destruct c. split_and!; [lia|done|apply frame_refl|done..]. }
  rewrite (wrap_small (index + count)) by lia.
  set (k := if bool_decide _ then _ else _).
  assert (k = count `min` (m_size c - index)) as Hk.
  { unfold k. case_bool_decide; [rewrite wrap_small|]; lia. }
  rewrite Hk. clear k Hk. set (k := count `min` (m_size c - index)).
  assert (1 ≤ k ∧ index + k ≤ m_size c) as [??] by lia.
  destruct (rep_block c h xs) as (a & Hd & Ha); [done|lia|]. rewrite Hd.
  rewrite (heap_destroy_n_ok _ _ _ _ _ Ha); rewrite ?length_storage; try lia.
  2:{ apply all_live_spec. intros j o. rewrite lookup_slice. slot_lookups.
      repeat case_decide; try done. intros [= <-]. apply lookup_lt_is_Some. lia. }
  run.
  pose proof (close_gap c (<[a:=splice (storage xs (m_capacity c)) index
                                 (replicate (Z.to_nat k) None)]> h)
                xs a _ (Z.to_nat index) (Z.to_nat k) Hd (lookup_insert_eq _ _ _)) as Hgap.
  rewrite !Z2Nat.id in Hgap by lia.
  rewrite Hgap; [|done|lia| |lia|lia|].
  - run. rewrite insert_insert_eq, Hd, wrap_small by lia.
    destruct (rep_removed c h xs a (Z.to_nat index) (Z.to_nat k)) as [Hr Hf]; [done|done|lia|].
    rewrite Z2Nat.id in Hr, Hf by lia. split_and!; [lia|done..].
  - rewrite length_splice; rewrite ?length_replicate, ?length_storage; lia.
  - intros j. rewrite lookup_splice by (rewrite ?length_replicate, ?length_storage; lia).
    slots.
Qed.

Lemma RemoveAt_spec c h xs (index : Z) :
  rep c h xs → 0 ≤ index →
  wp (RemoveAt index) (St c h)
     (λ _ s', index < m_size c ∧
              rep (self s') (mem s') (without (Z.to_nat index) 1 xs) ∧
              frame c h (self s') (mem s') ∧
              m_data (self s') = m_data c ∧ m_capacity (self s') = m_capacity c)
     (λ e s', e = out_of_range ∧ m_size c ≤ index ∧ s' = St c h).
Proof.
  intros Hrep ?. pose proof Hrep as (Hs & ? & ? & _).
  unfold RemoveAt, wp. run. rewrite checkRange_strict by lia.
  case_bool_decide; run; [split_and!; (done || lia)|].
  destruct (rep_block c h xs) as (a & Hd & Ha); [done|lia|]. rewrite Hd.
  destruct (lookup_lt_is_Some_2 xs (Z.to_nat index)) as [v Hv]; [lia|].
  rewrite (heap_destroy_at_ok _ _ _ _ v Ha); [|lia|].
  2:{ rewrite lookup_storage, decide_True, Hv by lia. done. }
  run.
  pose proof (close_gap c (<[a:=<[Z.to_nat index:=None]> (storage xs (m_capacity c))]> h)
                xs a _ (Z.to_nat index) 1 Hd (lookup_insert_eq _ _ _)) as Hgap.
  rewrite !Z2Nat.id in Hgap by lia. change (Z.of_nat 1) with 1 in Hgap.
  rewrite Hgap; [|done|lia| |lia|lia|].
  - run. rewrite insert_insert_eq, Hd, wrap_small by lia.
    destruct (rep_removed c h xs a (Z.to_nat index) 1) as [Hr Hf]; [done|done|lia|].
    split_and!; [lia|done..].
  - rewrite length_insert, length_storage. done.
  - intros j. slots.
Qed.

End Removal.

(** ** RemoveAll *)

Section Compaction.
Context {T : Type} `{!Element T}.
Implicit Types (c : DynamicArray) (h : gmap positive (list (option T))) (xs : list T)
  (blk : list (option T)).

Lemma length_kept_by pred xs : (length (kept_by pred xs) ≤ length xs)%nat.
Proof.
  unfold kept_by. induction xs as [|x xs IH]; simpl; [done|].
  destruct (pred x); simpl; lia.
Qed.

Lemma lookup_snoc_dec (l : list T) v (j : nat) :
  (l ++ [v]) !! j =
    if decide (j < length l)%nat then l !! j
    else if decide (j = length l) then Some v else None.
Proof.
  rewrite lookup_app_dec. repeat case_decide; try done; subst.
  - by rewrite Nat.sub_diag.
  - apply lookup_ge_None. simpl. lia.
Qed.

Lemma RemoveAll_loop_ok c a pred xs :
  m_data c = Some a → Z.of_nat (length xs) ≤ m_capacity c → m_capacity c ≤ SIZE_MAX →
  ∀ (left r : nat) (kept : list T) h blk,
    h !! a = Some blk → length blk = Z.to_nat (m_capacity c) →
    (r + left = length xs)%nat → (length kept ≤ r)%nat →
    (∀ j : nat, blk !! j =
       if decide (j < length kept)%nat then Some (kept !! j)
       else if decide (j < r)%nat then Some None
       else storage xs (m_capacity c) !! j) →
    let kept' := kept ++ kept_by pred (drop r xs) in
    RemoveAll_loop pred (Z.of_nat r) (Z.of_nat (length kept)) left (St c h)
    = Ok (Z.of_nat (length kept')) (St c (<[a := storage kept' (m_capacity c)]> h)).
Proof.
  intros Hd ? ?. induction left as [|left IH]; intros r kept h blk Ha Hlen Hr Hk Hblk kept'.
  - unfold kept'. rewrite drop_ge by lia. simpl. rewrite app_nil_r.
    cbn [RemoveAll_loop]. run. do 2 f_equal. rewrite insert_id; [done|].
    rewrite Ha. f_equal. apply storage_intro; [done|].
    intros j ?. rewrite Hblk. slots.
  - destruct (lookup_lt_is_Some_2 xs r) as [v Hv]; [lia|].
    assert (blk !! r = Some (Some v)) as Hbr.
    { rewrite Hblk. slot_lookups. rewrite Hv. slot_cases. }
    assert (drop r xs = v :: drop (S r) xs) as Hdrop by (by apply drop_S).
    unfold kept'. rewrite Hdrop. unfold kept_by. simpl. fold (kept_by pred (drop (S r) xs)).
    cbn [RemoveAll_loop]. run. rewrite Hd.
    rewrite (heap_load_ok _ _ _ _ v Ha) by (rewrite ?Nat2Z.id; done || lia).
    replace (wrap (Z.of_nat r + 1)) with (Z.of_nat (S r)) by (unwrap; lia).
    destruct (pred v); simpl.
    + (* the element is removed *)
      run. rewrite Hd.
      rewrite (heap_destroy_at_ok _ _ _ _ v Ha) by (rewrite ?Nat2Z.id; done || lia).
      run. rewrite Nat2Z.id.
      rewrite (IH (S r) kept _ (<[r := None]> blk)); [by rewrite insert_insert_eq| | | | |].
      * apply lookup_insert_eq.
      * by rewrite length_insert.
      * lia.
      * lia.
      * intros j. rewrite list_lookup_insert, Hblk. slots.
    + (* the element is kept *)
      replace (wrap (Z.of_nat (length kept) + 1)) with (Z.of_nat (length (kept ++ [v])))
        by (rewrite length_app; simpl; unwrap; lia).
      replace (kept ++ v :: kept_by pred (drop (S r) xs))
        with ((kept ++ [v]) ++ kept_by pred (drop (S r) xs)) by (by rewrite <- app_assoc).
      case_bool_decide as Hwr; run; rewrite ?Hd.
      * rewrite (heap_load_ok _ _ _ _ v Ha) by (rewrite ?Nat2Z.id; done || lia).
        rewrite (heap_construct_at_ok _ _ _ _ _ Ha) by lia. run.
        erewrite heap_destroy_at_ok; [|apply lookup_insert_eq|lia|].
        2:{ rewrite !Nat2Z.id, list_lookup_insert_ne by lia. done. }
        run. rewrite insert_insert_eq, !Nat2Z.id.
        rewrite (IH (S r) (kept ++ [v]) _ (<[r := None]> (<[length kept := Some v]> blk)));
          [by rewrite insert_insert_eq| | | | |].
        -- apply lookup_insert_eq.
        -- by rewrite !length_insert.
        -- lia.
        -- rewrite length_app. simpl. lia.
        -- intros j. rewrite !list_lookup_insert, Hblk, !lookup_snoc_dec. slots.
      * assert (length kept = r) as Hw by lia.
        rewrite (IH (S r) (kept ++ [v]) h blk); [done| | | | |].
        -- done.
        -- done.
        -- lia.
        -- rewrite length_app. simpl. lia.
        -- intros j. rewrite Hblk, !lookup_snoc_dec. slots. by rewrite Hv.
Qed.

Lemma RemoveAll_spec c h xs pred :
  rep c h xs →
  wp (RemoveAll pred) (St c h)
     (λ removed s',
        rep (self s') (mem s') (kept_by pred xs) ∧ frame c h (self s') (mem s') ∧
        removed = Z.of_nat (length xs) - Z.of_nat (length (kept_by pred xs)) ∧
        m_data (self s') = m_data c ∧ m_capacity (self s') = m_capacity c)
     no_throw.
Proof.
  intros Hrep. pose proof Hrep as (Hs & ? & ? & Hb).
  pose proof (length_kept_by pred xs).
  unfold RemoveAll, wp. run.
  destruct (m_data c) as [a|] eqn:Hd.
  - destruct Hb as [? Ha].
    pose proof (RemoveAll_loop_ok c a pred xs Hd ltac:(lia) ltac:(lia)
                  (length xs) 0 [] h _ Ha) as Hloop.
    cbv zeta in Hloop. change (Z.of_nat (length [])) with 0 in Hloop.
    change (Z.of_nat 0) with 0 in Hloop. rewrite drop_0, app_nil_l in Hloop.
    rewrite Hs, Nat2Z.id, Hloop; clear Hloop.
    + run. rewrite Hd, Hs, wrap_small by lia.
      split_and!; [|by apply frame_own_block|done..].
      unfold rep; simpl. split_and!; [done|lia|lia|lia|apply lookup_insert_eq].
    + by rewrite length_storage.
    + done.
    + simpl; lia.
    + intros j. slots.
  - assert (xs = []) as -> by (apply nil_length_inv; lia).
    rewrite Hs. simpl. run. rewrite Hd, Hs. simpl.
    split_and!; [|by intros q b ??|done..].
    unfold rep; simpl. split_and!; (done || lia).
Qed.

End Compaction.

(** ** Insertion, assignment and resizing *)

Section Insertion.
Context {T : Type} `{!Element T}.
Implicit Types (c : DynamicArray) (h : gmap positive (list (option T))) (xs vs : list T)
  (blk : list (option T)).

Lemma readable_frame c h c' h' src vs :
  readable h src vs → foreign c src → frame c h c' h' →
  readable h' src vs ∧ foreign c' src.
Proof.
  intros Hr Hf Hfr. destruct src as [q|]; [|split; [done|by intros ??]].
  destruct Hr as (cap & Hq & ?). destruct (Hfr q _ Hq) as [? ?]; [by apply Hf|].
  split; [by exists cap|]. by intros ? [= <-].
Qed.

Lemma readable_own_update c h a blk src vs :
  readable h src vs → foreign c src → m_data c = Some a →
  readable (<[a := blk]> h) src vs.
Proof.
  intros Hr Hf Hd. destruct src as [q|]; [|done].
  destruct Hr as (cap & Hq & ?). exists cap. split; [|done].
  rewrite lookup_insert_ne; [done|]. intros ->. by eapply Hf.
Qed.

Lemma insert_splice blk (i : nat) o :
  (i < length blk)%nat → <[i := o]> blk = splice blk (Z.of_nat i) [o].
Proof.
  intros ?. apply block_ext.
  - rewrite length_insert, length_splice; simpl; lia.
  - intros j _. rewrite list_lookup_insert, lookup_splice by (simpl; lia).
    rewrite Nat2Z.id. simpl. repeat case_decide; destruct_and?; simplify_eq; try lia; try done.
    by rewrite Nat.sub_diag.
Qed.

Lemma length_inserted index vs xs :
  length (inserted index vs xs) = (length xs + length vs)%nat.
Proof.
  unfold inserted. rewrite !length_app, length_take, length_drop. lia.
Qed.

Lemma EmplaceAt_spec c h xs (index : Z) x :
  rep c h xs → m_size c < SIZE_MAX → 0 ≤ index →
  wp (EmplaceAt index x) (St c h)
     (λ r s', index ≤ m_size c ∧
              rep (self s') (mem s') (inserted (Z.to_nat index) [x] xs) ∧
              frame c h (self s') (mem s') ∧
              r = Ref (m_data (self s')) index)
     (λ e s', e = out_of_range ∧ m_size c < index ∧ s' = St c h).
Proof.
  intros Hrep ? ?. pose proof Hrep as (Hs & ? & ? & _).
  unfold EmplaceAt, wp. run. rewrite (checkRange_spec c h xs) by done.
  case_bool_decide; run; [split_and!; (done || lia)|].
  rewrite wrap_small by lia.
  destruct (wp_ok_inv _ _ _ (ensureCapacity_spec c h xs (m_size c + 1) _ Hrep ltac:(lia)))
    as ([] & [c1 h1] & -> & Hrep1 & Hfr & Hcap & Hge). simpl in *.
  pose proof Hrep1 as (Hs1 & ? & ? & _).
  destruct (open_gap c1 h1 xs (Z.to_nat index) 1 Hrep1)
    as (a & blk & Hd & Hshift & Hlen & Hfill); [lia..|].
  rewrite Z2Nat.id in Hshift by lia. change (Z.of_nat 1) with 1 in Hshift.
  run. rewrite Hshift. run. rewrite Hd.
  rewrite (heap_construct_at_ok _ _ blk) by (rewrite ?lookup_insert_eq; done || lia).
  run. rewrite insert_insert_eq, Hd, insert_splice by lia.
  change [Some x] with (Some <$> [x]).
  rewrite (Hfill [x]) by done. rewrite wrap_small by lia.
  split_and!; [lia| | |done].
  - unfold rep; simpl. rewrite length_inserted. simpl.
    split_and!; [lia|lia|lia|lia|apply lookup_insert_eq].
  - eapply frame_trans; [done|]. by apply frame_own_block.
Qed.

Lemma Insert_spec c h xs (index : Z) x :
  rep c h xs → m_size c < SIZE_MAX → 0 ≤ index →
  wp (Insert index x) (St c h)
     (λ _ s', index ≤ m_size c ∧
              rep (self s') (mem s') (inserted (Z.to_nat index) [x] xs) ∧
              frame c h (self s') (mem s'))
     (λ e s', e = out_of_range ∧ m_size c < index ∧ s' = St c h).
Proof.
  intros Hrep ? ?. pose proof (EmplaceAt_spec c h xs index x Hrep) as Hspec.
  unfold Insert, wp in *. run.
  destruct (EmplaceAt index x (St c h)); [|tauto..]. tauto.
Qed.

Lemma InsertRange_spec c h xs (index : Z) src vs :
  rep c h xs → readable h src vs → foreign c src →
  m_size c + Z.of_nat (length vs) ≤ SIZE_MAX → m_size c < SIZE_MAX → 0 ≤ index →
  wp (InsertRange index (IList src (Z.of_nat (length vs)))) (St c h)
     (λ _ s', index ≤ m_size c ∧
              rep (self s') (mem s') (inserted (Z.to_nat index) vs xs) ∧
              frame c h (self s') (mem s'))
     (λ e s', e = out_of_range ∧ m_size c < index ∧ s' = St c h).
Proof.
  intros Hrep Hsrc Hfor ? ? ?. pose proof Hrep as (Hs & ? & ? & _).
  unfold InsertRange, wp. run. rewrite (checkRange_spec c h xs) by done.
  case_bool_decide; run; [split_and!; (done || lia)|].
  case_bool_decide as Hn; run.
  { assert (vs = []) as -> by (apply nil_length_inv; lia).
    unfold inserted. simpl. rewrite take_drop.
    destruct c. split_and!; [lia|done|apply frame_refl]. }
  rewrite wrap_small by lia.
  destruct (wp_ok_inv _ _ _ (ensureCapacity_spec c h xs (m_size c + Z.of_nat (length vs)) _
                               Hrep ltac:(lia)))
    as ([] & [c1 h1] & -> & Hrep1 & Hfr & Hcap & Hge). simpl in *.
  pose proof Hrep1 as (Hs1 & ? & ? & _).
  destruct (readable_frame _ _ _ _ _ _ Hsrc Hfor Hfr) as [Hsrc1 Hfor1].
  destruct (open_gap c1 h1 xs (Z.to_nat index) (length vs) Hrep1)
    as (a & blk & Hd & Hshift & Hlen & Hfill); [lia..|].
  rewrite Z2Nat.id in Hshift by lia.
  run. rewrite Hshift. run. rewrite Hd.
  rewrite (heap_copy_n_ok _ _ vs a blk);
    [|by eapply readable_own_update|apply lookup_insert_eq|lia..].
  pose proof (Hfill vs eq_refl) as Hf. rewrite Z2Nat.id in Hf by lia.
  run. rewrite insert_insert_eq, Hd, Hf. rewrite wrap_small by lia.
  split_and!; [lia| |].
  - unfold rep; simpl. rewrite length_inserted.
    split_and!; [lia|lia|lia|lia|apply lookup_insert_eq].
  - eapply frame_trans; [done|]. by apply frame_own_block.
Qed.

Lemma AddRange_spec c h xs src vs :
  rep c h xs → readable h src vs → foreign c src →
  m_size c + Z.of_nat (length vs) ≤ SIZE_MAX →
  wp (AddRange (IList src (Z.of_nat (length vs)))) (St c h)
     (λ _ s', rep (self s') (mem s') (xs ++ vs) ∧ frame c h (self s') (mem s'))
     no_throw.
Proof.
  intros Hrep Hsrc Hfor ?. pose proof Hrep as (Hs & ? & ? & _).
  unfold AddRange, wp. run.
  case_bool_decide as Hn; run.
  { assert (vs = []) as -> by (apply nil_length_inv; lia).
    rewrite app_nil_r. split; [done|apply frame_refl]. }
  rewrite wrap_small by lia.
  destruct (wp_ok_inv _ _ _ (ensureCapacity_spec c h xs (m_size c + Z.of_nat (length vs)) _
                               Hrep ltac:(lia)))
    as ([] & [c1 h1] & -> & Hrep1 & Hfr & Hcap & Hge). simpl in *.
  pose proof Hrep1 as (Hs1 & ? & ? & _).
  destruct (readable_frame _ _ _ _ _ _ Hsrc Hfor Hfr) as [Hsrc1 Hfor1].
  destruct (rep_block c1 h1 xs) as (a & Hd & Ha); [done|lia|].
  run. rewrite Hd.
  rewrite (heap_copy_n_ok _ _ vs a _ _ Hsrc1 Ha) by (rewrite ?length_storage; lia).
  run. rewrite Hd, Hs1, storage_append by lia. rewrite wrap_small by lia.
  split.
  - unfold rep; simpl. rewrite length_app.
    split_and!; [lia|lia|lia|lia|apply lookup_insert_eq].
  - eapply frame_trans; [done|]. by apply frame_own_block.
Qed.

End Insertion.

Section Assignment.
Context {T : Type} `{!Element T}.
Implicit Types (c : DynamicArray) (h : gmap positive (list (option T))) (xs vs : list T)
  (blk : list (option T)).

Lemma frame_drop_block c h ns nc a' blk :
  h !! a' = None →
  frame c h (Fields (Some a') ns nc) (<[a' := blk]> (drop_block (m_data c) h)).
Proof.
  intros Hfresh q b Hq Hne. simpl. split; [|congruence].
  rewrite lookup_insert_ne by congruence.
  destruct (m_data c) as [a|]; simpl; [|done].
  rewrite lookup_delete_ne; [done|congruence].
Qed.

Lemma storage_fresh vs (cap : Z) :
  Z.of_nat (length vs) ≤ cap →
  splice (storage [] cap) 0 (Some <$> vs) = storage vs cap.
Proof. intros ?. apply (storage_append [] vs cap). simpl. lia. Qed.

Lemma assign_spec c h xs src vs :
  rep c h xs → readable h src vs → foreign c src → Z.of_nat (length vs) ≤ SIZE_MAX →
  wp (assign src (Z.of_nat (length vs))) (St c h)
     (λ _ s', rep (self s') (mem s') vs ∧ frame c h (self s') (mem s') ∧
              m_capacity (self s') = Z.max (m_capacity c) (Z.of_nat (length vs)))
     no_throw.
Proof.
  intros Hrep Hsrc Hfor ?. pose proof Hrep as (Hs & ? & ? & _).
  unfold assign, wp. run. case_bool_decide; run.
  - pose proof (truncate_storage c h xs 0 Hrep) as Hdes.
    rewrite Z.sub_0_r in Hdes. rewrite Hdes by lia. run.
    pose proof (rep_truncate c h xs 0 Hrep ltac:(lia)) as Hrep1.
    change (take (Z.to_nat 0) xs) with (@nil T) in *.
    case_bool_decide; run.
    + destruct (rep_block c h xs) as (a & Hd & Ha); [done|lia|]. rewrite Hd. simpl.
      rewrite (heap_copy_n_ok _ _ vs a (storage [] (m_capacity c)));
        [|by eapply readable_own_update|apply lookup_insert_eq|lia|rewrite length_storage; lia].
      run. rewrite insert_insert_eq, Hd, storage_fresh by lia.
      split_and!; [|by apply frame_own_block|lia].
      rewrite Hd in Hrep1. destruct Hrep1 as (_ & _ & _ & ? & _).
      unfold rep; simpl. split_and!; [lia|lia|lia|lia|apply lookup_insert_eq].
    + assert (vs = []) as -> by (apply nil_length_inv; lia).
      split_and!; [done|apply frame_set_block|simpl; lia].
  - destruct (heap_allocate h (Z.of_nat (length vs))) as [p h1] eqn:Hal.
    apply heap_allocate_fresh in Hal. destruct p as [a'|]; [|lia].
    destruct Hal as (_ & Hfresh & ->). run.
    rewrite bool_decide_eq_true_2 by lia. run.
    assert (m_data c ≠ Some a') as Hne.
    { intros Hd. destruct Hrep as (_ & _ & _ & Hb). rewrite Hd in Hb.
      destruct Hb. congruence. }
    assert (src ≠ Some a') as Hne'.
    { intros ->. destruct Hsrc as (? & ? & _). congruence. }
    rewrite (heap_copy_n_ok _ _ vs a' (storage [] (Z.of_nat (length vs))));
      [|destruct src as [q|]; [|done]; destruct Hsrc as (cap & ? & ?); exists cap;
        rewrite lookup_insert_ne by congruence; done
       |apply lookup_insert_eq|lia|rewrite length_storage; lia].
    rewrite insert_insert_eq, storage_fresh by lia.
    assert (rep c (<[a':=storage vs (Z.of_nat (length vs))]> h) xs) as Hrep2.
    { destruct Hrep as (? & ? & ? & Hd). unfold rep. split_and!; try done.
      destruct (m_data c) as [a|]; [|done]. destruct Hd as [? Ha]. split; [done|].
      rewrite lookup_insert_ne; [done|congruence]. }
    rewrite (replaceStorage_ok _ _ xs) by done. rewrite drop_block_insert by done.
    split_and!; [|by apply frame_drop_block|simpl; lia].
    unfold rep; simpl. split_and!; [lia|lia|lia|lia|apply lookup_insert_eq].
Qed.

Lemma ctor_fill_spec h (count : Z) value :
  0 ≤ count ≤ SIZE_MAX →
  wp (ctor_fill count value) (St empty_array h)
     (λ _ s', rep (self s') (mem s') (replicate (Z.to_nat count) value) ∧
              frame empty_array h (self s') (mem s') ∧ m_capacity (self s') = count)
     no_throw.
Proof.
  intros ?. unfold ctor_fill, wp. case_bool_decide; run.
  - destruct (heap_allocate h count) as [p h1] eqn:Hal.
    apply heap_allocate_fresh in Hal. destruct p as [a'|]; [|lia].
    destruct Hal as (_ & Hfresh & ->). run.
    rewrite (heap_fill_n_ok _ _ (storage [] count)) by
      (rewrite ?lookup_insert_eq, ?length_storage; done || lia).
    run. rewrite insert_insert_eq, storage_fresh by (rewrite length_replicate; lia).
    split_and!; [|apply (frame_drop_block empty_array); done|done].
    unfold rep; simpl. rewrite length_replicate.
    split_and!; [lia|lia|lia|lia|apply lookup_insert_eq].
  - assert (count = 0) as -> by lia. simpl.
    split_and!; [apply rep_empty|apply frame_refl|done].
Qed.

Lemma tidy_spec c h xs :
  rep c h xs →
  wp tidy (St c h)
     (λ _ s', self s' = empty_array ∧ rep (self s') (mem s') [] ∧
              frame c h (self s') (mem s'))
     no_throw.
Proof.
  intros Hrep. unfold tidy, wp. rewrite (replaceStorage_ok _ _ xs) by done.
  split_and!; [done|apply rep_empty|].
  intros q b Hq Hne. simpl. split; [|done].
  destruct (m_data c) as [a|]; simpl; [|done].
  rewrite lookup_delete_ne; [done|congruence].
Qed.

Lemma Shrink_spec c h xs :
  rep c h xs →
  wp Shrink (St c h)
     (λ _ s', rep (self s') (mem s') xs ∧ frame c h (self s') (mem s') ∧
              m_capacity (self s') = m_size c)
     no_throw.
Proof.
  intros Hrep. pose proof Hrep as (Hs & ? & ? & _).
  unfold Shrink, wp. run. case_bool_decide; run.
  { split_and!; [done|apply frame_refl|done]. }
  case_bool_decide as Hz; run.
  - pose proof (tidy_spec c h xs Hrep) as Ht. unfold wp in Ht.
    destruct (tidy (St c h)) as [[] [c1 h1]| |]; [|done..].
    destruct Ht as (Hc1 & Hr & Hf). simpl in *. subst c1.
    assert (xs = []) as -> by (apply nil_length_inv; lia).
    split_and!; [done|done|simpl; lia].
  - destruct (reallocate_ok c h xs (m_size c)) as (a' & Hfresh & ->); [done|lia..|].
    rewrite Hs. destruct (rep_moved c h xs xs a' (Z.of_nat (length xs))) as [? ?];
      [done|done|lia..|].
    simpl. split_and!; [done|done|lia].
Qed.

Lemma Resize_with_spec c h xs (newSize : Z) value :
  rep c h xs → 0 ≤ newSize ≤ SIZE_MAX →
  wp (Resize_with newSize value) (St c h)
     (λ _ s', rep (self s') (mem s')
                  (take (Z.to_nat newSize) xs
                   ++ replicate (Z.to_nat newSize - length xs) value) ∧
              frame c h (self s') (mem s'))
     no_throw.
Proof.
  intros Hrep ?. pose proof Hrep as (Hs & ? & ? & _).
  unfold Resize_with, wp. run. case_bool_decide; run.
  - rewrite wrap_small by lia.
    rewrite (truncate_storage c h xs newSize Hrep) by lia. run.
    replace (Z.to_nat newSize - length xs)%nat with 0%nat by lia.
    simpl. rewrite app_nil_r.
    split; [apply (rep_truncate c h xs newSize Hrep); lia|apply frame_set_block].
  - case_bool_decide; run.
    + destruct (wp_ok_inv _ _ _ (ensureCapacity_spec c h xs newSize _ Hrep ltac:(lia)))
        as ([] & [c1 h1] & -> & Hrep1 & Hfr & Hcap & Hge). simpl in *.
      pose proof Hrep1 as (Hs1 & ? & ? & _).
      destruct (rep_block c1 h1 xs) as (a & Hd & Ha); [done|lia|].
      run. rewrite Hd, wrap_small by lia.
      rewrite (heap_fill_n_ok _ _ _ _ _ _ Ha) by (rewrite ?length_storage; lia).
      run. rewrite Hd, Hs1, storage_append by (rewrite length_replicate; lia).
      rewrite take_ge by lia.
      replace (Z.to_nat (newSize - Z.of_nat (length xs)))
        with (Z.to_nat newSize - length xs)%nat by lia.
      split.
      * unfold rep; simpl. rewrite length_app, length_replicate.
        split_and!; [lia|lia|lia|lia|apply lookup_insert_eq].
      * eapply frame_trans; [done|]. by apply frame_own_block.
    + assert (newSize = m_size c) as -> by lia.
      rewrite take_ge by lia.
      replace (Z.to_nat (m_size c) - length xs)%nat with 0%nat by lia.
      simpl. rewrite app_nil_r. destruct c. split; [done|apply frame_refl].
Qed.

End Assignment.

(** ** Lookup *)

Section Lookup.
Context {T : Type} `{!Element T}.
Implicit Types (c : DynamicArray) (h : gmap positive (list (option T))) (xs vs : list T)
  (blk : list (option T)).

Lemma load_element c h xs (j : nat) v :
  rep c h xs → xs !! j = Some v → heap_load h (m_data c) (Z.of_nat j) = Some v.
Proof. intros Hrep Hj. apply (deref_element c h xs j v Hrep Hj). Qed.

Lemma FindIf_loop_ok c h xs pred :
  rep c h xs →
  ∀ (left i : nat), (i + left = length xs)%nat →
    ∃ r, FindIf_loop pred (Z.of_nat i) left (St c h) = Ok r (St c h) ∧
         first_match pred xs i r.
Proof.
  intros Hrep. pose proof Hrep as (Hs & ? & ? & _).
  induction left as [|left IH]; intros i Hi.
  - exists INDEX_NONE. split; [done|]. left. split; [done|].
    intros j v ? Hj. apply lookup_lt_Some in Hj. lia.
  - destruct (lookup_lt_is_Some_2 xs i) as [v Hv]; [lia|].
    cbn [FindIf_loop]. run. rewrite (load_element c h xs i v) by done.
    destruct (pred v) eqn:Hp; run.
    + exists (Z.of_nat i). split; [done|]. right. exists i, v.
      split_and!; [done|lia|done|done|]. intros j w ?. lia.
    + replace (wrap (Z.of_nat i + 1)) with (Z.of_nat (S i)) by (unwrap; lia).
      destruct (IH (S i)) as (r & -> & Hr); [lia|]. exists r. split; [done|].
      destruct Hr as [[-> Hnone]|(k & w & -> & ? & ? & ? & Hbefore)].
      * left. split; [done|]. intros j w ? Hj.
        destruct (decide (j = i)) as [->|]; [congruence|]. apply (Hnone j); [lia|done].
      * right. exists k, w. split_and!; [done|lia|done|done|].
        intros j u ? Hj. destruct (decide (j = i)) as [->|]; [congruence|].
        apply (Hbefore j); [lia|done].
Qed.

Lemma FindLastIf_loop_ok c h xs pred :
  rep c h xs →
  ∀ i : nat, (i ≤ length xs)%nat →
    ∃ r, FindLastIf_loop pred i (St c h) = Ok r (St c h) ∧ last_match pred xs i r.
Proof.
  intros Hrep. induction i as [|i IH]; intros Hi.
  - exists INDEX_NONE. split; [done|]. left. split; [done|]. intros j v ?. lia.
  - destruct (lookup_lt_is_Some_2 xs i) as [v Hv]; [lia|].
    cbn [FindLastIf_loop]. run. rewrite (load_element c h xs i v) by done.
    destruct (pred v) eqn:Hp; run.
    + exists (Z.of_nat i). split; [done|]. right. exists i, v.
      split_and!; [done|lia|done|done|]. intros j w ?. lia.
    + destruct IH as (r & -> & Hr); [lia|]. exists r. split; [done|].
      destruct Hr as [[-> Hnone]|(k & w & -> & ? & ? & ? & Hafter)].
      * left. split; [done|]. intros j w ? Hj.
        destruct (decide (j = i)) as [->|]; [congruence|]. apply (Hnone j); [lia|done].
      * right. exists k, w. split_and!; [done|lia|done|done|].
        intros j u ? Hj. destruct (decide (j = i)) as [->|]; [congruence|].
        apply (Hafter j); [lia|done].
Qed.

Lemma FindIf_spec c h xs pred :
  rep c h xs →
  ∃ r, FindIf pred (St c h) = Ok r (St c h) ∧ first_match pred xs 0 r.
Proof.
  intros Hrep. unfold FindIf. run. rewrite (rep_size _ _ _ Hrep), Nat2Z.id.
  apply (FindIf_loop_ok c h xs pred Hrep (length xs) 0). lia.
Qed.

Lemma Find_spec c h xs value :
  rep c h xs →
  ∃ r, Find value (St c h) = Ok r (St c h) ∧ first_match (λ v, T_eq v value) xs 0 r.
Proof.
  intros Hrep. unfold Find. run. rewrite (rep_size _ _ _ Hrep), Nat2Z.id.
  apply (FindIf_loop_ok c h xs _ Hrep (length xs) 0). lia.
Qed.

Lemma FindLastIf_spec c h xs pred :
  rep c h xs →
  ∃ r, FindLastIf pred (St c h) = Ok r (St c h) ∧ last_match pred xs (length xs) r.
Proof.
  intros Hrep. unfold FindLastIf. run. rewrite (rep_size _ _ _ Hrep), Nat2Z.id.
  by apply (FindLastIf_loop_ok c h xs pred Hrep).
Qed.

Lemma FindLast_spec c h xs value :
  rep c h xs →
  ∃ r, FindLast value (St c h) = Ok r (St c h) ∧
       last_match (λ v, T_eq v value) xs (length xs) r.
Proof.
  intros Hrep. unfold FindLast. run. rewrite (rep_size _ _ _ Hrep), Nat2Z.id.
  by apply (FindLastIf_loop_ok c h xs _ Hrep).
Qed.

Lemma Contains_spec c h xs value :
  rep c h xs → ∃ b, Contains value (St c h) = Ok b (St c h).
Proof.
  intros Hrep. destruct (Find_spec c h xs value Hrep) as (r & Hr & _).
  unfold Contains. run. rewrite Hr. eauto.
Qed.

Lemma ContainsIf_spec c h xs pred :
  rep c h xs → ∃ b, ContainsIf pred (St c h) = Ok b (St c h).
Proof.
  intros Hrep. destruct (FindIf_spec c h xs pred Hrep) as (r & Hr & _).
  unfold ContainsIf. run. rewrite Hr. eauto.
Qed.

Lemma Remove_spec c h xs value :
  rep c h xs →
  wp (Remove value) (St c h)
     (λ b s', ∃ xs', rep (self s') (mem s') xs' ∧ frame c h (self s') (mem s') ∧
                     (b = false → xs' = xs) ∧
                     (b = true → ∃ k : nat, (k < length xs)%nat ∧ xs' = without k 1 xs))
     no_throw.
Proof.
  intros Hrep. pose proof Hrep as (Hs & ? & ? & _).
  destruct (Find_spec c h xs value Hrep) as (r & Hr & Hm).
  unfold Remove, wp. run. rewrite Hr.
  destruct Hm as [[-> _]|(k & v & -> & _ & Hk & _)].
  - rewrite bool_decide_eq_false_2 by (intros ?; done). run.
    exists xs. split_and!; [done|apply frame_refl|done|done].
  - apply lookup_lt_Some in Hk.
    rewrite bool_decide_eq_true_2 by (rewrite INDEX_NONE_eq; lia).
    pose proof (RemoveAt_spec c h xs (Z.of_nat k) Hrep ltac:(lia)) as Hrm.
    unfold wp in Hrm. run.
    destruct (RemoveAt (Z.of_nat k) (St c h)) as [[] [c1 h1]|e s1|]; [|lia|done].
    destruct Hrm as (_ & Hr1 & Hf1 & _). rewrite Nat2Z.id in Hr1.
    exists (without k 1 xs). split_and!; [done|done|done|]. eauto.
Qed.

End Lookup.

(** ** Objects: moving, copying, swapping, comparing *)

Ltac wrun :=
  cbv beta iota zeta delta
      [mbind M_mbind M_bind mret M_mret M_ret exchange swap_fields];
  cbn [objs store self mem m_data m_size m_capacity].

Section Worlds.
Context {T : Type} `{!Element T}.
Implicit Types (c : DynamicArray) (h : gmap positive (list (option T))) (xs ys : list T)
  (w : @world T) (o a b this other : positive).

Lemma field_ok {A} w o c (f : DynamicArray → A) :
  objs w !! o = Some c → field o f w = Ok (f c) w.
Proof. unfold field. by intros ->. Qed.

Lemma invoke_ok {A} w this c (f : M (@state T) A) r c' h' :
  objs w !! this = Some c → f (St c (store w)) = Ok r (St c' h') →
  invoke this f w = Ok r (World (<[this := c']> (objs w)) h').
Proof. unfold invoke. intros Ho Hf. by rewrite Ho, Hf. Qed.

Lemma invoke_throw {A} w this c (f : M (@state T) A) e :
  objs w !! this = Some c → f (St c (store w)) = Throw e (St c (store w)) →
  invoke this f w = Throw e w.
Proof.
  unfold invoke. intros Ho Hf. rewrite Ho, Hf. simpl. rewrite insert_id by done.
  by destruct w.
Qed.

Lemma world_ok_foreign w o1 o2 c1 c2 :
  world_ok w → objs w !! o1 = Some c1 → objs w !! o2 = Some c2 → o1 ≠ o2 →
  foreign c1 (m_data c2).
Proof. intros [_ Hdis] H1 H2 Hne q Hq Hq'. apply Hne. by eapply Hdis. Qed.

(** A member function that keeps its container well formed and leaves
    foreign blocks alone keeps the world well formed. *)
Lemma world_ok_update w this c c' h' xs' :
  world_ok w → objs w !! this = Some c →
  rep c' h' xs' → frame c (store w) c' h' →
  world_ok (World (<[this := c']> (objs w)) h').
Proof.
  intros [Hreps Hdis] Hthis Hrep' Hfr.
  assert (∀ o co q, o ≠ this → objs w !! o = Some co → m_data co = Some q →
            ∃ xs, rep co (store w) xs ∧ h' !! q = store w !! q ∧ m_data c' ≠ Some q ∧
                  is_Some (store w !! q)) as Hother.
  { intros o co q Hne Ho Hq. destruct (Hreps o co Ho) as [xs Hxs].
    pose proof Hxs as (_ & _ & _ & Hb). rewrite Hq in Hb. destruct Hb as [_ Hb].
    destruct (Hfr q _ Hb) as [Hq' ?].
    { intros Hd. apply Hne. by eapply Hdis. }
    exists xs. split_and!; [done|congruence|done|eauto]. }
  split; simpl.
  - intros o co. rewrite lookup_insert. case_decide as Ho.
    + intros [= <-]. eauto.
    + intros Hco. destruct (Hreps o co Hco) as [xs Hxs]. exists xs.
      destruct Hxs as (? & ? & ? & Hb). unfold rep. split_and!; try done.
      destruct (m_data co) as [q|] eqn:Hq; [|done]. destruct Hb as [? Hb]. split; [done|].
      destruct (Hother o co q) as (_ & _ & -> & _); done || congruence.
  - intros o1 o2 c1 c2 q. rewrite !lookup_insert.
    repeat case_decide; simplify_eq; try done.
    + intros [= <-] H2 Hq1 Hq2.
      destruct (Hother o2 c2 q) as (_ & _ & _ & ? & _); done || congruence.
    + intros H1 [= <-] Hq1 Hq2.
      destruct (Hother o1 c1 q) as (_ & _ & _ & ? & _); done || congruence.
    + intros. by eapply Hdis.
Qed.

(** The other objects after a call on [this]. *)
Lemma holds_other w this c c' h' o xs :
  world_ok w → objs w !! this = Some c → frame c (store w) c' h' →
  o ≠ this → holds w o xs → holds (World (<[this := c']> (objs w)) h') o xs.
Proof.
  intros [Hreps Hdis] Hthis Hfr Hne (co & Ho & Hxs).
  exists co. simpl. rewrite lookup_insert_ne by done. split; [done|].
  destruct Hxs as (? & ? & ? & Hb). unfold rep. split_and!; try done.
  destruct (m_data co) as [q|] eqn:Hq; [|done]. destruct Hb as [? Hb]. split; [done|].
  apply (Hfr q _ Hb). intros Hd. apply Hne. by eapply Hdis.
Qed.

(** One step of a function on objects: reading a field, or calling a member
    function whose run is known by computation. *)
Ltac wstep :=
  first
    [ erewrite field_ok by (cbn [objs store]; simplify_map_eq; reflexivity)
    | erewrite invoke_ok;
      [ | cbn [objs store]; simplify_map_eq; reflexivity | reflexivity ] ];
  wrun.

Lemma Swap_ok w a b ca cb :
  objs w !! a = Some ca → objs w !! b = Some cb →
  Swap a b w = Ok tt (World (<[b := ca]> (<[a := cb]> (objs w))) (store w)).
Proof.
  intros Ha Hb. unfold Swap. wrun.
  destruct (decide (a = b)) as [->|Hne].
  - assert (ca = cb) as -> by congruence.
    repeat wstep. do 2 f_equal. destruct cb. apply map_eq. intros o.
    rewrite !lookup_insert. repeat case_decide; done.
  - repeat wstep. do 2 f_equal. destruct ca, cb. apply map_eq. intros o.
    rewrite !lookup_insert. repeat case_decide; simplify_eq; done.
Qed.

Lemma destroy_all_ok c h xs :
  rep c h xs →
  (d ← get m_data; sz ← get m_size; destroy_n d 0 sz) (St c h)
  = Ok tt (St c (set_block (m_data c) (storage [] (m_capacity c)) h)).
Proof.
  intros Hrep. run. pose proof (truncate_storage c h xs 0 Hrep) as Hd.
  rewrite Z.sub_0_r in Hd. rewrite Hd by (pose proof (rep_size_range _ _ _ Hrep); lia).
  done.
Qed.

Lemma deallocate_own_ok c h blk :
  (m_data c = None → True) →
  (d ← get m_data; deallocate d) (St c (set_block (m_data c) blk h))
  = Ok tt (St c (drop_block (m_data c) h)).
Proof.
  intros _. run. destruct (m_data c) as [a|]; simpl; [|done].
  unfold heap_deallocate. rewrite lookup_insert_eq, bool_decide_eq_true_2 by eauto.
  by rewrite delete_insert_eq.
Qed.

Lemma rep_drop_other c h xs (p : ptr) :
  rep c h xs → foreign c p → rep c (drop_block p h) xs.
Proof.
  intros (? & ? & ? & Hb) Hf. unfold rep. split_and!; try done.
  destruct (m_data c) as [a|] eqn:Hd; [|done]. destruct Hb as [? Hb]. split; [done|].
  destruct p as [q|]; simpl; [|done]. rewrite lookup_delete_ne; [done|].
  intros ->. by eapply Hf.
Qed.

Lemma move_assign_ok w this other cthis cother xs :
  objs w !! this = Some cthis → objs w !! other = Some cother → this ≠ other →
  rep cthis (store w) xs →
  move_assign this other w
  = Ok tt (World (<[this := cother]> (<[other := empty_array]> (objs w)))
                 (drop_block (m_data cthis) (store w))).
Proof.
  intros Hthis Hother Hne Hrep. unfold move_assign.
  rewrite bool_decide_eq_true_2 by done. wrun.
  erewrite invoke_ok; [|done|by apply (destroy_all_ok _ _ xs)]. wrun.
  erewrite invoke_ok; [|by simplify_map_eq|by apply deallocate_own_ok]. wrun.
  repeat wstep. do 2 f_equal. destruct cother. apply map_eq. intros o.
  rewrite !lookup_insert. repeat case_decide; simplify_eq; done.
Qed.

Lemma move_assign_self w this : move_assign this this w = Ok tt w.
Proof. unfold move_assign. by rewrite bool_decide_eq_false_2 by (intros ?; done). Qed.

Lemma copy_assign_self w this : copy_assign this this w = Ok tt w.
Proof. unfold copy_assign. by rewrite bool_decide_eq_false_2 by (intros ?; done). Qed.

Lemma create_ok w this c :
  objs w !! this = None → create this c w = Ok tt (World (<[this := c]> (objs w)) (store w)).
Proof. unfold create. by intros ->. Qed.

Lemma new_move_ok w this other cother :
  objs w !! this = None → objs w !! other = Some cother →
  new_move this other w
  = Ok tt (World (<[this := cother]> (<[other := empty_array]> (objs w))) (store w)).
Proof.
  intros Hthis Hother. assert (this ≠ other) by congruence.
  unfold new_move. wrun. repeat wstep.
  rewrite create_ok by (cbn [objs]; by simplify_map_eq).
  do 2 f_equal. destruct cother. cbn [objs store]. f_equal. apply map_eq. intros o.
  rewrite !lookup_insert. repeat case_decide; simplify_eq; done.
Qed.

(** The world a move leaves is well formed: the target owns what the source
    owned, the source owns nothing. *)
Lemma world_ok_moved w this other cother h' :
  world_ok w → objs w !! other = Some cother → this ≠ other →
  (∀ o c xs, o ≠ this → objs w !! o = Some c → rep c (store w) xs → rep c h' xs) →
  world_ok (World (<[this := cother]> (<[other := empty_array]> (objs w))) h').
Proof.
  intros [Hreps Hdis] Hother Hne Hkeep. split; simpl.
  - intros o c. rewrite !lookup_insert. repeat case_decide; simplify_eq.
    + intros [= <-]. destruct (Hreps other cother Hother) as [xs ?].
      exists xs. by eapply Hkeep.
    + intros [= <-]. exists []. apply rep_empty.
    + intros Ho. destruct (Hreps o c Ho) as [xs ?]. exists xs. by eapply Hkeep.
  - intros o1 o2 c1 c2 q. rewrite !lookup_insert.
    repeat case_decide; simplify_eq; try done; intros Ho1 Ho2 Hq1 Hq2; simplify_eq;
      try done.
    + exfalso. by pose proof (Hdis _ _ _ _ _ Hother Ho2 Hq1 Hq2).
    + exfalso. by pose proof (Hdis _ _ _ _ _ Ho1 Hother Hq1 Hq2).
    + by eapply Hdis.
Qed.

Lemma load_in_ok w c xs (j : nat) v :
  rep c (store w) xs → xs !! j = Some v → load_in (m_data c) (Z.of_nat j) w = Ok v w.
Proof. intros Hrep Hj. unfold load_in. by rewrite (load_element c _ xs j v). Qed.

Lemma equal_loop_ok w lhs rhs cl cr xs ys :
  objs w !! lhs = Some cl → objs w !! rhs = Some cr →
  rep cl (store w) xs → rep cr (store w) ys → length xs = length ys →
  ∀ (left i : nat), (i + left = length xs)%nat →
    equal_loop lhs rhs (Z.of_nat i) left w
    = Ok (no_pair_differs (drop i xs) (drop i ys)) w.
Proof.
  intros Hl Hr Hxs Hys Hlen. pose proof (rep_size_range _ _ _ Hxs).
  pose proof (rep_size _ _ _ Hxs).
  induction left as [|left IH]; intros i Hi.
  - rewrite !drop_ge by lia. done.
  - destruct (lookup_lt_is_Some_2 xs i) as [x Hx]; [lia|].
    destruct (lookup_lt_is_Some_2 ys i) as [y Hy]; [lia|].
    rewrite (drop_S _ _ _ Hx), (drop_S _ _ _ Hy).
    cbn [equal_loop no_pair_differs]. wrun.
    rewrite (field_ok _ _ _ _ Hl). wrun. rewrite (load_in_ok _ _ xs i x) by done. wrun.
    rewrite (field_ok _ _ _ _ Hr). wrun. rewrite (load_in_ok _ _ ys i y) by done. wrun.
    destruct (T_ne x y); [done|].
    replace (wrap (Z.of_nat i + 1)) with (Z.of_nat (S i)) by (unwrap; lia).
    apply IH. lia.
Qed.

Lemma equal_ok w lhs rhs cl cr xs ys :
  objs w !! lhs = Some cl → objs w !! rhs = Some cr →
  rep cl (store w) xs → rep cr (store w) ys →
  equal lhs rhs w
  = Ok (bool_decide (length xs = length ys) && no_pair_differs xs ys) w.
Proof.
  intros Hl Hr Hxs Hys. unfold equal. wrun.
  rewrite (field_ok _ _ _ _ Hl). wrun. rewrite (field_ok _ _ _ _ Hr). wrun.
  rewrite (rep_size _ _ _ Hxs), (rep_size _ _ _ Hys).
  case_bool_decide as Hne.
  - rewrite bool_decide_eq_false_2 by (intros ?; apply Hne; congruence). done.
  - assert (length xs = length ys) as Hlen by lia.
    rewrite bool_decide_eq_true_2 by done. wrun.
    rewrite (field_ok _ _ _ _ Hl). wrun. rewrite (rep_size _ _ _ Hxs), Nat2Z.id.
    pose proof (equal_loop_ok w lhs rhs cl cr xs ys Hl Hr Hxs Hys Hlen (length xs) 0
                  ltac:(lia)) as Hloop.
    rewrite !drop_0 in Hloop. change (Z.of_nat 0) with 0 in Hloop. by rewrite Hloop.
Qed.

Lemma compare_loop_ok w lhs rhs cl cr xs ys :
  objs w !! lhs = Some cl → objs w !! rhs = Some cr →
  rep cl (store w) xs → rep cr (store w) ys →
  ∀ (left i : nat), (i + left = length xs `min` length ys)%nat →
    compare_loop lhs rhs (Z.of_nat i) left w
    = Ok (first_difference (drop i xs) (drop i ys)) w.
Proof.
  intros Hl Hr Hxs Hys. pose proof (rep_size_range _ _ _ Hxs).
  pose proof (rep_size _ _ _ Hxs).
  induction left as [|left IH]; intros i Hi.
  - destruct (decide (length xs ≤ length ys)%nat).
    + rewrite (drop_ge xs) by lia. done.
    + rewrite (drop_ge ys) by lia. by destruct (drop i xs).
  - destruct (lookup_lt_is_Some_2 xs i) as [x Hx]; [lia|].
    destruct (lookup_lt_is_Some_2 ys i) as [y Hy]; [lia|].
    rewrite (drop_S _ _ _ Hx), (drop_S _ _ _ Hy).
    cbn [compare_loop first_difference]. wrun.
    rewrite (field_ok _ _ _ _ Hl). wrun. rewrite (load_in_ok _ _ xs i x) by done. wrun.
    rewrite (field_ok _ _ _ _ Hr). wrun. rewrite (load_in_ok _ _ ys i y) by done. wrun.
    replace (wrap (Z.of_nat i + 1)) with (Z.of_nat (S i)) by (unwrap; lia).
    destruct (T_cmp x y); simpl; [apply IH; lia|done..].
Qed.

Lemma three_way_ok w lhs rhs cl cr xs ys :
  objs w !! lhs = Some cl → objs w !! rhs = Some cr →
  rep cl (store w) xs → rep cr (store w) ys →
  three_way lhs rhs w
  = Ok (match first_difference xs ys with
        | Some cmp => cmp
        | None => Z.of_nat (length xs) ?= Z.of_nat (length ys)
        end) w.
Proof.
  intros Hl Hr Hxs Hys. unfold three_way. wrun.
  rewrite (field_ok _ _ _ _ Hl). wrun. rewrite (field_ok _ _ _ _ Hr). wrun.
  rewrite (rep_size _ _ _ Hxs), (rep_size _ _ _ Hys).
  replace (Z.to_nat (Z.of_nat (length xs) `min` Z.of_nat (length ys)))
    with (length xs `min` length ys)%nat by lia.
  pose proof (compare_loop_ok w lhs rhs cl cr xs ys Hl Hr Hxs Hys
                (length xs `min` length ys) 0 ltac:(lia)) as Hloop.
  rewrite !drop_0 in Hloop. change (Z.of_nat 0) with 0 in Hloop. rewrite Hloop.
  destruct (first_difference xs ys); [done|]. wrun.
  rewrite (field_ok _ _ _ _ Hl). wrun. rewrite (field_ok _ _ _ _ Hr). wrun.
  by rewrite (rep_size _ _ _ Hxs), (rep_size _ _ _ Hys).
Qed.

Lemma copy_assign_ok w this other cthis cother xs ys :
  world_ok w → objs w !! this = Some cthis → objs w !! other = Some cother →
  this ≠ other → rep cthis (store w) xs → rep cother (store w) ys →
  ∃ c' h',
    copy_assign this other w = Ok tt (World (<[this := c']> (objs w)) h') ∧
    rep c' h' ys ∧ frame cthis (store w) c' h'.
Proof.
  intros Hok Hthis Hother Hne Hxs Hys. unfold copy_assign.
  rewrite bool_decide_eq_true_2 by done. wrun.
  rewrite (field_ok _ _ _ _ Hother). wrun. cbv [id].
  pose proof (assign_spec cthis (store w) xs (m_data cother) ys Hxs
                (rep_readable _ _ _ Hys)
                (world_ok_foreign _ _ _ _ _ Hok Hthis Hother Hne)) as Hspec.
  rewrite <- (rep_size _ _ _ Hys) in Hspec.
  destruct (wp_ok_inv _ _ _ (Hspec ltac:(pose proof (rep_size_range _ _ _ Hys); lia)))
    as ([] & [c' h'] & Heq & Hrep' & Hfr & _).
  exists c', h'. split_and!; [|done..]. by apply (invoke_ok _ _ cthis).
Qed.

Lemma new_copy_ok w this other cother ys :
  world_ok w → objs w !! this = None → objs w !! other = Some cother →
  rep cother (store w) ys →
  ∃ c' h',
    new_copy this other w = Ok tt (World (<[this := c']> (objs w)) h') ∧
    rep c' h' ys ∧ frame empty_array (store w) c' h'.
Proof.
  intros Hok Hthis Hother Hys. assert (this ≠ other) by congruence.
  unfold new_copy. wrun. rewrite create_ok by done. wrun.
  erewrite field_ok by (cbn [objs]; by simplify_map_eq). wrun. cbv [id].
  pose proof (assign_spec empty_array (store w) [] (m_data cother) ys (rep_empty _)
                (rep_readable _ _ _ Hys) ltac:(by intros ??)) as Hspec.
  rewrite <- (rep_size _ _ _ Hys) in Hspec.
  destruct (wp_ok_inv _ _ _ (Hspec ltac:(pose proof (rep_size_range _ _ _ Hys); lia)))
    as ([] & [c' h'] & Heq & Hrep' & Hfr & _).
  exists c', h'. split_and!; [|done..].
  erewrite invoke_ok; [|cbn [objs]; by simplify_map_eq|apply Heq].
  cbn [objs]. by rewrite insert_insert_eq.
Qed.

End Worlds.

Section Claims.
Context {T : Type} `{!Element T}.
Implicit Types (c : DynamicArray) (h : gmap positive (list (option T))) (xs ys : list T)
  (w : @world T).

Lemma heap_store_ok c h xs (i : nat) v v' :
  rep c h xs → xs !! i = Some v →
  ∃ h', heap_store h (m_data c) (Z.of_nat i) v' = Some h' ∧ rep c h' (<[i := v']> xs).
Proof.
  intros Hrep Hi. pose proof (lookup_lt_Some _ _ _ Hi).
  pose proof Hrep as (Hs & ? & ? & _).
  destruct (rep_block c h xs) as (a & Hd & Ha); [done|lia|].
  unfold heap_store. rewrite (load_element c h xs i v) by done. rewrite Hd.
  rewrite (heap_construct_at_ok _ _ _ _ _ Ha) by (rewrite length_storage; lia).
  eexists. split; [done|]. unfold rep. rewrite Hd, length_insert.
  split_and!; [done..|lia|]. rewrite lookup_insert_eq. f_equal.
  rewrite Nat2Z.id. apply storage_intro; [by rewrite length_insert, length_storage|].
  intros j ?. slots.
Qed.


(** With the memory granted, [Reserve(n)] changes nothing when
    [n <= Capacity()] and makes the capacity exactly [n] otherwise;
    [ensureCapacity] settles on [max(n, capacity + capacity/2)], clamped to
    the largest [size_t]. *)
Lemma Reserve_when_granted c h xs n :
  rep c h xs → 0 ≤ n ≤ SIZE_MAX →
  (∃ c' h',
     Reserve n (St c h) = Ok tt (St c' h') ∧ rep c' h' xs ∧
     (n ≤ m_capacity c → c' = c ∧ h' = h) ∧
     (m_capacity c < n → m_capacity c' = n) ∧
     n ≤ m_capacity c' ∧ m_capacity c ≤ m_capacity c') ∧
  (∃ c' h',
     ensureCapacity n (St c h) = Ok tt (St c' h') ∧ rep c' h' xs ∧
     m_capacity c' =
       if bool_decide (n ≤ m_capacity c) then m_capacity c
       else Z.max n (Z.min (m_capacity c + m_capacity c / 2) SIZE_MAX)).
Proof.
  intros Hrep Hn. split.
  - destruct (wp_ok_inv _ _ _ (Reserve_spec c h xs n Hrep Hn))
      as ([] & [c' h'] & Heq & Hrep' & _ & Hcap & Hsame). simpl in *.
    exists c', h'. split_and!; [done|done| | |lia..].
    + intros Hle. by injection (Hsame Hle).
    + lia.
  - destruct (wp_ok_inv _ _ _ (ensureCapacity_spec c h xs n no_throw Hrep ltac:(lia)))
      as ([] & [c' h'] & Heq & Hrep' & _ & Hcap & _). simpl in *.
    exists c', h'. split_and!; done.
Qed.

(** C3: indexed access.  [c[i]] throws [out_of_range] exactly when
    [i >= c.Size()], leaving the container as it was; otherwise it returns a
    reference to the element at index [i], through which that element is read
    and written. *)
Theorem subscript_contract c h xs (i : Z) :
  rep c h xs → 0 ≤ i →
  (subscript i (St c h) = Throw out_of_range (St c h) ↔ m_size c ≤ i) ∧
  (i < m_size c →
     ∃ v, xs !! Z.to_nat i = Some v ∧
          subscript i (St c h) = Ok (Ref (m_data c) i) (St c h) ∧
          deref h (Ref (m_data c) i) = Some v ∧
          ∀ v', ∃ h', heap_store h (m_data c) i v' = Some h' ∧
                      rep c h' (<[Z.to_nat i := v']> xs) ∧
                      deref h' (Ref (m_data c) i) = Some v').
Proof.
  intros Hrep Hi. pose proof (rep_size _ _ _ Hrep) as Hs.
  rewrite (subscript_spec c h xs i Hrep). split_and!.
  - case_bool_decide; split; (done || lia).
  - intros ?. rewrite bool_decide_eq_false_2 by lia.
    destruct (lookup_lt_is_Some_2 xs (Z.to_nat i)) as [v Hv]; [lia|].
    exists v. split_and!; [done|done| |].
    + rewrite <- (Z2Nat.id i) at 1 by lia. by apply (deref_element c h xs).
    + intros v'. destruct (heap_store_ok c h xs (Z.to_nat i) v v' Hrep Hv) as (h' & Hst & Hrep').
      rewrite Z2Nat.id in Hst by lia. exists h'. split_and!; [done..|].
      rewrite <- (Z2Nat.id i) at 1 by lia.
      apply (deref_element c h' _ _ _ Hrep'). rewrite list_lookup_insert_eq; [done|lia].
Qed.


Lemma length_filter_split (pred : T → bool) xs :
  (length (List.filter pred xs) + length (kept_by pred xs) = length xs)%nat.
Proof.
  unfold kept_by. induction xs as [|x xs IH]; simpl; [done|].
  destruct (pred x); simpl; lia.
Qed.

(** C6: [RemoveAll(pred)] leaves exactly the elements for which [pred] is
    false, in their original order, returns the number of elements for which
    [pred] is true, and keeps the capacity. *)
Theorem RemoveAll_stable c h xs (pred : T → bool) :
  rep c h xs →
  ∃ c' h',
    RemoveAll pred (St c h) = Ok (Z.of_nat (length (List.filter pred xs))) (St c' h') ∧
    rep c' h' (List.filter (λ x, negb (pred x)) xs) ∧
    m_capacity c' = m_capacity c.
Proof.
  intros Hrep.
  destruct (wp_ok_inv _ _ _ (RemoveAll_spec c h xs pred Hrep))
    as (r & [c' h'] & Heq & Hrep' & _ & -> & _ & Hcap). simpl in *.
  exists c', h'. split_and!; [|done..].
  rewrite Heq. do 2 f_equal. pose proof (length_filter_split pred xs). lia.
Qed.

End Claims.

Section ObjectClaims.
Context {T : Type} `{!Element T}.
Implicit Types (c : DynamicArray) (h : gmap positive (list (option T))) (xs ys : list T)
  (w : @world T) (a b : positive).

Lemma rep_drop_block_other w a b ca cb xs :
  world_ok w → objs w !! a = Some ca → objs w !! b = Some cb → a ≠ b →
  rep ca (store w) xs → rep ca (drop_block (m_data cb) (store w)) xs.
Proof.
  intros Hok Ha Hb Hne Hrep. apply rep_drop_other; [done|].
  by apply (world_ok_foreign w a b ca cb).
Qed.

(** C7: moving.  After move construction or move assignment from [a] into a
    different object [b], [b] holds what [a] held and [a] is the empty
    state: size 0, capacity 0, null storage.  Move assignment and copy
    assignment of an object to itself change nothing. *)
Theorem move_validity w a b xs :
  world_ok w → holds w a xs → a ≠ b →
  (objs w !! b = None →
     ∃ w', new_move b a w = Ok tt w' ∧ holds w' b xs ∧
           objs w' !! a = Some (Fields None 0 0) ∧ world_ok w') ∧
  (∀ ys, holds w b ys →
     ∃ w', move_assign b a w = Ok tt w' ∧ holds w' b xs ∧
           objs w' !! a = Some (Fields None 0 0) ∧ world_ok w') ∧
  move_assign a a w = Ok tt w ∧
  copy_assign a a w = Ok tt w.
Proof.
  intros Hok (ca & Ha & Hxs) Hne. split_and!.
  - intros Hb. eexists. split; [by apply new_move_ok|]. split_and!.
    + exists ca. simpl. by rewrite lookup_insert_eq.
    + simpl. by rewrite lookup_insert_ne, lookup_insert_eq by done.
    + apply world_ok_moved; done.
  - intros ys (cb & Hb & Hys). eexists.
    split; [by apply (move_assign_ok w b a cb ca ys)|]. split_and!.
    + exists ca. simpl. rewrite lookup_insert_eq. split; [done|].
      by apply (rep_drop_block_other w a b ca cb).
    + simpl. by rewrite lookup_insert_ne, lookup_insert_eq by done.
    + apply world_ok_moved; [done..|].
      intros o c zs ? Ho Hzs. by apply (rep_drop_block_other w o b c cb).
  - apply move_assign_self.
  - apply copy_assign_self.
Qed.

Lemma no_pair_differs_spec xs ys :
  (∀ x y, T_ne x y = negb (T_eq x y)) → length xs = length ys →
  no_pair_differs xs ys = true ↔
  ∀ (j : nat) x y, xs !! j = Some x → ys !! j = Some y → T_eq x y = true.
Proof.
  intros Hne. revert ys. induction xs as [|x xs IH]; intros [|y ys] Hlen; try done.
  simpl. rewrite Hne. destruct (T_eq x y) eqn:Hxy; simpl.
  - rewrite IH by (simpl in Hlen; lia). split.
    + intros Hall [|j] x' y' Hx Hy; simpl in *; [congruence|]. by eapply Hall.
    + intros Hall j x' y' Hx Hy. by apply (Hall (S j)).
  - split; [done|]. intros Hall. rewrite <- Hxy. by apply (Hall 0%nat).
Qed.

Lemma first_difference_found xs ys (k : nat) x y :
  xs !! k = Some x → ys !! k = Some y → T_cmp x y ≠ Eq →
  (∀ (j : nat) x' y', (j < k)%nat → xs !! j = Some x' → ys !! j = Some y' →
                      T_cmp x' y' = Eq) →
  first_difference xs ys = Some (T_cmp x y).
Proof.
  revert ys k. induction xs as [|x0 xs IH]; intros [|y0 ys] k Hx Hy Hne Hbefore; try done.
  destruct k as [|k]; simpl in *.
  - simplify_eq. by destruct (T_cmp x y).
  - rewrite (Hbefore 0%nat x0 y0) by (done || lia).
    apply (IH ys k); [done..|]. intros j x' y' ? Hx' Hy'.
    apply (Hbefore (S j)); [lia|done..].
Qed.

Lemma first_difference_none xs ys :
  (∀ (j : nat) x y, xs !! j = Some x → ys !! j = Some y → T_cmp x y = Eq) →
  first_difference xs ys = None.
Proof.
  revert ys. induction xs as [|x xs IH]; intros [|y ys] Hall; try done.
  simpl. rewrite (Hall 0%nat x y) by done. apply IH.
  intros j x' y' Hx Hy. by apply (Hall (S j)).
Qed.

(** C8: comparison.  [a <=> b] is decided by the first pair of elements, up
    to the shorter length, that does not compare equal; when there is none,
    by the sizes.  [a == b] holds exactly when the sizes are equal and the
    elements are pairwise equal. *)
Theorem lexicographic_comparison w a b xs ys :
  holds w a xs → holds w b ys → (∀ x y : T, T_ne x y = negb (T_eq x y)) →
  ∃ cmp eq,
    three_way a b w = Ok cmp w ∧ equal a b w = Ok eq w ∧
    (∀ (k : nat) x y,
       xs !! k = Some x → ys !! k = Some y → T_cmp x y ≠ Eq →
       (∀ (j : nat) x' y', (j < k)%nat → xs !! j = Some x' → ys !! j = Some y' →
                           T_cmp x' y' = Eq) →
       cmp = T_cmp x y) ∧
    ((∀ (j : nat) x y, xs !! j = Some x → ys !! j = Some y → T_cmp x y = Eq) →
     cmp = (Z.of_nat (length xs) ?= Z.of_nat (length ys))) ∧
    (eq = true ↔
     length xs = length ys ∧
     ∀ (j : nat) x y, xs !! j = Some x → ys !! j = Some y → T_eq x y = true).
Proof.
  intros (ca & Ha & Hxs) (cb & Hb & Hys) Hne.
  eexists _, _. split; [by apply (three_way_ok w a b ca cb xs ys)|].
  split; [by apply (equal_ok w a b ca cb xs ys)|]. split_and!.
  - intros k x y Hx Hy Hd Hbefore. by rewrite (first_difference_found xs ys k x y).
  - intros Hall. by rewrite first_difference_none.
  - rewrite andb_true_iff, bool_decide_eq_true. split.
    + intros [Hlen Hall]. split; [done|]. by apply no_pair_differs_spec.
    + intros [Hlen Hall]. split; [done|]. by apply no_pair_differs_spec.
Qed.

(** C10: [a.Swap(b)] always returns and exchanges the two containers
    whole: fields, hence sequence and capacity; the heap is untouched, and a
    second [Swap] restores both. *)
Theorem Swap_exchanges w a b ca cb :
  objs w !! a = Some ca → objs w !! b = Some cb →
  ∃ w',
    Swap a b w = Ok tt w' ∧
    objs w' !! a = Some cb ∧ objs w' !! b = Some ca ∧ store w' = store w ∧
    (∀ o, o ≠ a → o ≠ b → objs w' !! o = objs w !! o) ∧
    (∀ xs ys, holds w a xs → holds w b ys → holds w' a ys ∧ holds w' b xs) ∧
    Swap a b w' = Ok tt w.
Proof.
  intros Ha Hb. eexists. split; [by apply Swap_ok|].
  assert (objs (World (<[b:=ca]> (<[a:=cb]> (objs w))) (store w)) !! a = Some cb) as Ha'.
  { simpl. destruct (decide (a = b)) as [->|]; by simplify_map_eq. }
  assert (objs (World (<[b:=ca]> (<[a:=cb]> (objs w))) (store w)) !! b = Some ca) as Hb'.
  { simpl. by simplify_map_eq. }
  split_and!; [done|done|done| | |].
  - intros o ??. simpl. by rewrite !lookup_insert_ne.
  - intros xs ys (ca' & ? & Hxs) (cb' & ? & Hys). simplify_eq.
    split; [by exists cb|by exists ca].
  - rewrite (Swap_ok _ a b cb ca Ha' Hb'). simpl.
    destruct w as [os st]. simpl in *. do 2 f_equal. apply map_eq. intros o.
    rewrite !lookup_insert. repeat case_decide; simplify_eq; congruence.
Qed.

End ObjectClaims.

(** ** Every member function keeps the container well formed *)

Section Calls.
Context {T : Type} `{!Element T}.
Implicit Types (c : DynamicArray) (h : gmap positive (list (option T))) (xs ys : list T)
  (w : @world T).

Lemma returning_wp {A} `{!Returns A} (m : M (@state T) A) c h (Q : A → @state T → Prop) E :
  wp m (St c h) Q E →
  (∀ a s', Q a s' → well_formed_after c h (as_value a) s') →
  (∀ e s', E e s' → unchanged_after c h e s') →
  wp (returning m) (St c h) (well_formed_after c h) (unchanged_after c h).
Proof.
  intros Hm HQ HE. unfold returning, wp in *. run.
  destruct (m (St c h)); [by apply HQ|by apply HE|done].
Qed.

Lemma returning_pure {A} `{!Returns A} (m : M (@state T) A) c h xs :
  rep c h xs → (∃ a, m (St c h) = Ok a (St c h)) →
  wp (returning m) (St c h) (well_formed_after c h) (unchanged_after c h).
Proof.
  intros Hrep [a Ha]. unfold returning, wp. run. rewrite Ha.
  split; [by exists xs|apply frame_refl].
Qed.

Ltac by_spec H :=
  eapply returning_wp; [apply H; eauto; lia| |];
  [ intros ? [? ?] HQ; hnf in HQ; cbn [self mem] in *; destruct_and?; split; eauto
  | intros ? ? HE; hnf in HE; try done; destruct_and?; by split ].

(** Every member function, called with arguments in range on a well-formed
    container, returns with the container well formed, or throws
    [out_of_range] with the container unchanged; blocks of other owners are
    not touched. *)
Lemma member_calls_preserve c h xs call :
  rep c h xs → in_range c h call →
  wp (perform call) (St c h) (well_formed_after c h) (unchanged_after c h).
Proof.
  intros Hrep Hin.
  destruct call as [index| | | | |n| |v|il|x|index x|index v|index il|v|index|index count
                   |pred| |n|n v|v|pred|v|pred|v|pred|il];
    cbn [perform in_range] in *.
  - eapply returning_wp with (Q := λ _ s', s' = St c h)
                             (E := λ e s', e = out_of_range ∧ s' = St c h).
    + unfold wp. rewrite (subscript_spec c h xs) by done. by case_bool_decide.
    + intros ? ? ->. split; [by exists xs|apply frame_refl].
    + done.
  - by apply (returning_pure _ c h xs); [|eexists].
  - by apply (returning_pure _ c h xs); [|eexists].
  - by apply (returning_pure _ c h xs); [|eexists].
  - by apply (returning_pure _ c h xs); [|eexists].
  - by_spec (Reserve_spec c h xs n).
  - by_spec (Shrink_spec c h xs).
  - by_spec (Add_spec c h xs v).
  - destruct Hin as (vs & (Hsz & ? & ? & ?) & ?). destruct il as [src k].
    simpl in *. subst k. by_spec (AddRange_spec c h xs src vs).
  - by_spec (Emplace_spec c h xs x).
  - by_spec (EmplaceAt_spec c h xs index x).
  - by_spec (Insert_spec c h xs index v).
  - destruct Hin as (vs & (Hsz & ? & ? & ?) & ? & ? & ?). destruct il as [src k].
    simpl in *. subst k. by_spec (InsertRange_spec c h xs index src vs).
  - eapply returning_wp; [by apply (Remove_spec c h xs v)| |done].
    intros ? [? ?] (xs' & ? & ? & _). split; eauto.
  - by_spec (RemoveAt_spec c h xs index).
  - by_spec (RemoveRange_spec c h xs index count).
  - by_spec (RemoveAll_spec c h xs pred).
  - by_spec (Clear_spec c h xs).
  - by_spec (Resize_with_spec c h xs n T_default).
  - by_spec (Resize_with_spec c h xs n v).
  - apply (returning_pure _ c h xs); [done|]. apply (Contains_spec c h xs v Hrep).
  - apply (returning_pure _ c h xs); [done|]. apply (ContainsIf_spec c h xs pred Hrep).
  - apply (returning_pure _ c h xs); [done|].
    destruct (Find_spec c h xs v Hrep) as (r & ? & _). eauto.
  - apply (returning_pure _ c h xs); [done|].
    destruct (FindIf_spec c h xs pred Hrep) as (r & ? & _). eauto.
  - apply (returning_pure _ c h xs); [done|].
    destruct (FindLast_spec c h xs v Hrep) as (r & ? & _). eauto.
  - apply (returning_pure _ c h xs); [done|].
    destruct (FindLastIf_spec c h xs pred Hrep) as (r & ? & _). eauto.
  - destruct Hin as (vs & (Hsz & ? & ? & ?)). destruct il as [src k].
    simpl in *. subst k. by_spec (assign_spec c h xs src vs).
Qed.

End Calls.

(** ** Every operation keeps the world well formed *)

Section Operations.
Context {T : Type} `{!Element T}.
Implicit Types (c : DynamicArray) (h : gmap positive (list (option T))) (xs ys : list T)
  (w : @world T) (this other : positive).

Lemma world_ok_create w this :
  world_ok w → objs w !! this = None →
  world_ok (World (<[this := empty_array]> (objs w)) (store w)).
Proof.
  intros [Hreps Hdis] Hfree. split; simpl.
  - intros o c. rewrite lookup_insert. case_decide; [|apply Hreps].
    intros [= <-]. exists []. apply rep_empty.
  - intros o1 o2 c1 c2 q. rewrite !lookup_insert.
    repeat case_decide; simplify_eq; try done; intros Ho1 Ho2 Hq1 Hq2; simplify_eq.
    by eapply Hdis.
Qed.

Lemma world_ok_release w this :
  world_ok w → world_ok (World (delete this (objs w)) (store w)).
Proof.
  intros [Hreps Hdis]. split; simpl.
  - intros o c [_ Ho]%lookup_delete_Some. by apply (Hreps o).
  - intros o1 o2 c1 c2 q [_ Ho1]%lookup_delete_Some [_ Ho2]%lookup_delete_Some.
    by apply Hdis.
Qed.

Lemma world_ok_swapped w a b ca cb :
  world_ok w → objs w !! a = Some ca → objs w !! b = Some cb →
  world_ok (World (<[b := ca]> (<[a := cb]> (objs w))) (store w)).
Proof.
  intros [Hreps Hdis] Ha Hb. split; simpl.
  - intros o c. rewrite !lookup_insert. repeat case_decide; simplify_eq.
    + intros [= <-]. by apply (Hreps a).
    + intros [= <-]. by apply (Hreps b).
    + apply Hreps.
  - intros o1 o2 c1 c2 q. rewrite !lookup_insert.
    repeat case_decide; simplify_eq; try done; intros Ho1 Ho2 Hq1 Hq2; simplify_eq;
      try done;
      match goal with
      | H1 : objs w !! _ = Some ?c1, H2 : objs w !! _ = Some ?c2,
        Hc1 : m_data ?c1 = Some ?q, Hc2 : m_data ?c2 = Some ?q |- _ =>
          solve [pose proof (Hdis _ _ _ _ _ H1 H2 Hc1 Hc2); simplify_eq; done]
      end.
Qed.

(** A constructor body run on the freshly initialised object. *)
Lemma construct_ok w this (body : M (@state T) unit) Q :
  world_ok w → objs w !! this = None →
  wp body (St empty_array (store w))
     (λ _ s', (∃ xs', rep (self s') (mem s') xs') ∧
              frame empty_array (store w) (self s') (mem s') ∧ Q s')
     no_throw →
  wp (create this empty_array;; invoke this body) w
     (λ _ w', world_ok w' ∧ ∃ s', objs w' !! this = Some (self s') ∧
                                   store w' = mem s' ∧ Q s')
     (λ _ _, False).
Proof.
  intros Hok Hfree Hbody. unfold wp in *. wrun. rewrite create_ok by done. wrun.
  unfold invoke. cbn [objs store]. rewrite lookup_insert_eq.
  destruct (body (St empty_array (store w))) as [[] [c' h']| |]; [|done..].
  destruct Hbody as ([xs' Hrep'] & Hfr & HQ). cbn [self mem] in *. split.
  - rewrite insert_insert_eq.
    pose proof (world_ok_create w this Hok Hfree) as Hok1.
    pose proof (world_ok_update _ this empty_array c' h' xs' Hok1
                  ltac:(simpl; by rewrite lookup_insert_eq) Hrep' Hfr) as Hok2.
    simpl in Hok2. by rewrite insert_insert_eq in Hok2.
  - exists (St c' h'). simpl. by rewrite lookup_insert_eq.
Qed.

(** Every operation of the interface, applied with arguments in range in a
    well-formed world, returns in a well-formed world, or throws
    [out_of_range] leaving the world as it was. *)
Lemma operations_preserve w op :
  world_ok w → operation_in_range w op →
  wp (run_operation op) w (λ _ w', world_ok w') (λ e w', e = out_of_range ∧ w' = w).
Proof.
  intros Hok Hin.
  destruct op as [this|this count|this count v|this init|this other|this other|this
                 |this other|this other|this call|this other|lhs rhs|lhs rhs];
    cbn [run_operation operation_in_range] in *.
  - unfold new_default, wp. rewrite create_ok by done. by apply world_ok_create.
  - destruct Hin as [Hfree ?]. unfold new_sized, ctor_sized.
    eapply wp_mono; [apply (construct_ok w this _ (λ _, True)); [done..|]| |done].
    + eapply wp_mono; [by apply (ctor_fill_spec (store w) count T_default)| |done].
      intros ? ? (? & ? & _). eauto.
    + by intros ? ? [? _].
  - destruct Hin as [Hfree ?]. unfold new_fill.
    eapply wp_mono; [apply (construct_ok w this _ (λ _, True)); [done..|]| |done].
    + eapply wp_mono; [by apply (ctor_fill_spec (store w) count v)| |done].
      intros ? ? (? & ? & _). eauto.
    + by intros ? ? [? _].
  - destruct Hin as (Hfree & vs & Hsz & ? & ? & ?). destruct init as [src k].
    simpl in *. subst k. unfold new_ilist, ctor_ilist. cbn [il_begin il_size].
    eapply wp_mono; [apply (construct_ok w this _ (λ _, True)); [done..|]| |done].
    + eapply wp_mono;
        [by apply (assign_spec empty_array (store w) [] src vs (rep_empty _))| |done].
      intros ? ? (? & ? & _). eauto.
    + by intros ? ? [? _].
  - destruct Hin as (Hfree & cother & Hother).
    destruct Hok as [Hreps Hdis]. destruct (Hreps _ _ Hother) as [ys Hys].
    destruct (new_copy_ok w this other cother ys (conj Hreps Hdis) Hfree Hother Hys)
      as (c' & h' & Heq & Hrep' & Hfr).
    unfold wp. rewrite Heq.
    pose proof (world_ok_create w this (conj Hreps Hdis) Hfree) as Hok1.
    pose proof (world_ok_update _ this empty_array c' h' ys Hok1
                  ltac:(simpl; by rewrite lookup_insert_eq) Hrep' Hfr) as Hok2.
    simpl in Hok2. by rewrite insert_insert_eq in Hok2.
  - destruct Hin as (Hfree & cother & Hother).
    unfold wp. rewrite (new_move_ok w this other cother) by done.
    apply world_ok_moved; [done|done|congruence|done].
  - destruct Hin as (c & Hthis). destruct Hok as [Hreps Hdis].
    destruct (Hreps _ _ Hthis) as [xs Hxs].
    unfold delete_object, dtor, wp. wrun.
    pose proof (tidy_spec c (store w) xs Hxs) as Ht. unfold wp in Ht.
    destruct (tidy (St c (store w))) as [[] [c1 h1]| |] eqn:Htidy; [|done..].
    destruct Ht as (Hc1 & Hr & Hf). simpl in *.
    rewrite (invoke_ok w this c _ tt c1 h1 Hthis Htidy). wrun.
    unfold release. cbn [objs store]. rewrite lookup_insert_eq.
    rewrite delete_insert_eq.
    pose proof (world_ok_update w this c c1 h1 [] (conj Hreps Hdis) Hthis Hr Hf) as Hok1.
    pose proof (world_ok_release _ this Hok1) as Hok2. simpl in Hok2.
    by rewrite delete_insert_eq in Hok2.
  - destruct Hin as ((cthis & Hthis) & (cother & Hother)).
    destruct (decide (this = other)) as [->|Hne].
    { unfold wp. by rewrite copy_assign_self. }
    pose proof Hok as [Hreps Hdis].
    destruct (Hreps _ _ Hthis) as [xs Hxs]. destruct (Hreps _ _ Hother) as [ys Hys].
    destruct (copy_assign_ok w this other cthis cother xs ys Hok Hthis Hother Hne Hxs Hys)
      as (c' & h' & Heq & Hrep' & Hfr).
    unfold wp. rewrite Heq. by apply (world_ok_update w this cthis c' h' ys).
  - destruct Hin as ((cthis & Hthis) & (cother & Hother)).
    destruct (decide (this = other)) as [->|Hne].
    { unfold wp. by rewrite move_assign_self. }
    pose proof Hok as [Hreps Hdis]. destruct (Hreps _ _ Hthis) as [xs Hxs].
    unfold wp. rewrite (move_assign_ok w this other cthis cother xs) by done.
    apply world_ok_moved; [done..|].
    intros o c zs ? Ho Hzs. by apply (rep_drop_block_other w o this c cthis).
  - destruct Hin as (c & Hthis & Hin). pose proof Hok as [Hreps Hdis].
    destruct (Hreps _ _ Hthis) as [xs Hxs].
    pose proof (member_calls_preserve c (store w) xs call Hxs Hin) as Hcall.
    unfold wp in *. wrun. unfold invoke. rewrite Hthis.
    destruct (perform call (St c (store w))) as [r [c' h']|e s'|]; [| |done].
    + destruct Hcall as [[xs' Hrep'] Hfr]. by apply (world_ok_update w this c c' h' xs').
    + destruct Hcall as [-> ->]. simpl. rewrite insert_id by done. by destruct w.
  - destruct Hin as ((cthis & Hthis) & (cother & Hother)).
    unfold wp. rewrite (Swap_ok w this other cthis cother) by done.
    by apply world_ok_swapped.
  - destruct Hin as ((cl & Hl) & (cr & Hr)). pose proof Hok as [Hreps Hdis].
    destruct (Hreps _ _ Hl) as [xs Hxs]. destruct (Hreps _ _ Hr) as [ys Hys].
    unfold wp. wrun. by rewrite (equal_ok w lhs rhs cl cr xs ys).
  - destruct Hin as ((cl & Hl) & (cr & Hr)). pose proof Hok as [Hreps Hdis].
    destruct (Hreps _ _ Hl) as [xs Hxs]. destruct (Hreps _ _ Hr) as [ys Hys].
    unfold wp. wrun. by rewrite (three_way_ok w lhs rhs cl cr xs ys).
Qed.

(** In a well-formed world every container satisfies the invariant of the
    data model. *)
Lemma world_ok_invariant w o c :
  world_ok w → objs w !! o = Some c → size_capacity_invariant c.
Proof. intros [Hreps _] Ho. destruct (Hreps o c Ho) as [xs Hxs]. by eapply rep_invariant. Qed.

End Operations.

(** ** The claims on concrete containers of integers *)

Lemma SIZE_MAX_pos : 1000 < SIZE_MAX.
Proof. rewrite SIZE_MAX_eq. lia. Qed.

Lemma rep_array123 : rep array123 heap123 [1; 2; 3].
Proof.
  unfold rep. simpl. pose proof SIZE_MAX_pos. split_and!; try lia. reflexivity.
Qed.

Lemma built_array123 :
  (with_ilist [1; 2; 3] (new_ilist 1%positive)) empty_world
  = Ok tt (World {[ 1%positive := array123 ]} heap123).
Proof. vm_compute. reflexivity. Qed.

Lemma world_ok_two_arrays : world_ok two_arrays.
Proof.
  pose proof SIZE_MAX_pos. split.
  - intros o c Ho. simpl in Ho.
    apply lookup_insert_Some in Ho as [[<- <-]|[? Ho]].
    + exists [1; 2; 3]. unfold rep. simpl. split_and!; try lia. reflexivity.
    + apply lookup_singleton_Some in Ho as [<- <-].
      exists [1; 2; 4]. unfold rep. simpl. split_and!; try lia. reflexivity.
  - intros o1 o2 c1 c2 q Ho1 Ho2. simpl in Ho1, Ho2.
    apply lookup_insert_Some in Ho1 as [[<- <-]|[? Ho1]];
      apply lookup_insert_Some in Ho2 as [[<- <-]|[? Ho2]]; try done.
    + apply lookup_singleton_Some in Ho2 as [<- <-]. simpl. congruence.
    + apply lookup_singleton_Some in Ho1 as [<- <-]. simpl. congruence.
    + apply lookup_singleton_Some in Ho1 as [<- <-].
      by apply lookup_singleton_Some in Ho2 as [<- <-].
Qed.

Lemma holds_two_arrays_1 : holds two_arrays 1%positive [1; 2; 3].
Proof.
  pose proof SIZE_MAX_pos. eexists. split; [reflexivity|].
  unfold rep. simpl. split_and!; try lia. reflexivity.
Qed.

Lemma holds_two_arrays_2 : holds two_arrays 2%positive [1; 2; 4].
Proof.
  pose proof SIZE_MAX_pos. eexists. split; [reflexivity|].
  unfold rep. simpl. split_and!; try lia. reflexivity.
Qed.



(** An argument that is not a value: [a.Add(a[0])] on a full container.  The
    reference designates storage that [ensureCapacity] has released by the
    time it is read. *)
Example Add_of_own_element :
  subscript 0 (St array123 heap123) = Ok (Ref (Some 2%positive) 0) (St array123 heap123) ∧
  Add_ref (Ref (Some 2%positive) 0) (St array123 heap123) = Undefined.
Proof. split; vm_compute; reflexivity. Qed.

(** [Reserve] does not grow by half: with capacity 10, [Reserve(11)] gives 11,
    where [max(n, capacity + capacity/2)] is 15. *)
Lemma Reserve_not_geometric :
  ∃ s1 s2 : @state Z,
    Reserve 10 (St empty_array ∅) = Ok tt s1 ∧ m_capacity (self s1) = 10 ∧
    Reserve 11 s1 = Ok tt s2 ∧ m_capacity (self s2) = 11 ∧
    m_capacity (self s2) ≠ Z.max 11 (m_capacity (self s1) + m_capacity (self s1) / 2).
Proof.
  eexists _, _. split; [vm_compute; reflexivity|]. split; [reflexivity|].
  split; [vm_compute; reflexivity|]. split; [reflexivity|]. vm_compute. discriminate.
Qed.

(** Indexed access to [{1, 2, 3}] at index 1. *)
Lemma subscript_contract_witness :
  rep array123 heap123 [1; 2; 3] ∧ 0 ≤ 1 ∧
  (subscript 1 (St array123 heap123) = Throw out_of_range (St array123 heap123)
   ↔ m_size array123 ≤ 1) ∧
  (1 < m_size array123 →
     ∃ v, [1; 2; 3] !! Z.to_nat 1 = Some v ∧
          subscript 1 (St array123 heap123) = Ok (Ref (m_data array123) 1) (St array123 heap123) ∧
          deref heap123 (Ref (m_data array123) 1) = Some v ∧
          ∀ v', ∃ h', heap_store heap123 (m_data array123) 1 v' = Some h' ∧
                      rep array123 h' (<[Z.to_nat 1 := v']> [1; 2; 3]) ∧
                      deref h' (Ref (m_data array123) 1) = Some v').
Proof.
  split; [apply rep_array123|]. split; [lia|].
  apply (subscript_contract array123 heap123 [1; 2; 3] 1); [apply rep_array123|lia].
Defined.



(** [RemoveAll] on [{1, 2, 3}] with [v > 2]. *)
Lemma RemoveAll_stable_witness :
  rep array123 heap123 [1; 2; 3] ∧
  ∃ c' h',
    RemoveAll (λ v, bool_decide (v > 2)) (St array123 heap123)
    = Ok (Z.of_nat (length (List.filter (λ v, bool_decide (v > 2)) [1; 2; 3]))) (St c' h') ∧
    rep c' h' (List.filter (λ v, negb (bool_decide (v > 2))) [1; 2; 3]) ∧
    m_capacity c' = m_capacity array123.
Proof.
  split; [apply rep_array123|].
  apply (RemoveAll_stable array123 heap123 [1; 2; 3] (λ v, bool_decide (v > 2)) rep_array123).
Defined.

(** The example of the specification: [{1,2,3,4,5}] and [v > 2] leave
    [{1,2}] and return 3. *)
Example RemoveAll_example :
  ∃ w, (with_ilist [1; 2; 3; 4; 5] (new_ilist 1%positive);;
        invoke 1%positive (RemoveAll (λ v, bool_decide (v > 2)))) empty_world = Ok 3 w ∧
       elements_of w 1%positive = Some [1; 2].
Proof. eexists. split; vm_compute; reflexivity. Qed.

(** C4: the count that makes [index + count] wrap.  On [{1, 2, 3}],
    [RemoveRange(1, SIZE_MAX)] passes the range check, skips the clamp because
    [1 + SIZE_MAX] wraps to 0, and destroys past the end of the block. *)
Lemma RemoveRange_wrapping_count_undefined :
  rep array123 heap123 [1; 2; 3] ∧
  wrap (1 + SIZE_MAX) = 0 ∧
  RemoveRange 1 SIZE_MAX (St array123 heap123) = Undefined.
Proof.
  split; [apply rep_array123|]. split; vm_compute; reflexivity.
Qed.

(** A count that is merely too long is clamped. *)
Example RemoveRange_clamped :
  ∃ s', RemoveRange 1 100 (St array123 heap123) = Ok tt s' ∧
        self s' = Fields (Some 2%positive) 1 3 ∧
        mem s' !! 2%positive = Some [Some 1; None; None].
Proof. eexists. split; [vm_compute; reflexivity|]. split; reflexivity. Qed.

(** C9: on a container that satisfies the invariant, the same call neither
    returns nor throws into a state with [size <= capacity]: it has no
    defined outcome at all. *)
Lemma RemoveRange_wrapping_count_no_invariant :
  rep array123 heap123 [1; 2; 3] ∧ size_capacity_invariant array123 ∧
  ¬ wp (RemoveRange 1 SIZE_MAX) (St array123 heap123)
       (λ _ s', size_capacity_invariant (self s'))
       (λ _ s', size_capacity_invariant (self s')).
Proof.
  split; [apply rep_array123|]. split.
  - apply (rep_invariant _ _ _ rep_array123).
  - unfold wp.
    assert (RemoveRange 1 SIZE_MAX (St array123 heap123) = Undefined) as ->
      by (vm_compute; reflexivity).
    tauto.
Qed.

(** Moving [{1, 2, 3}] from object 1 into object 3 (new) or object 2. *)
Lemma move_validity_witness :
  world_ok two_arrays ∧ holds two_arrays 1%positive [1; 2; 3] ∧
  (∃ w', new_move 3%positive 1%positive two_arrays = Ok tt w' ∧
         holds w' 3%positive [1; 2; 3] ∧
         objs w' !! 1%positive = Some (Fields None 0 0) ∧ world_ok w') ∧
  (∃ w', move_assign 2%positive 1%positive two_arrays = Ok tt w' ∧
         holds w' 2%positive [1; 2; 3] ∧
         objs w' !! 1%positive = Some (Fields None 0 0) ∧ world_ok w').
Proof.
  split; [apply world_ok_two_arrays|]. split; [apply holds_two_arrays_1|].
  split.
  - apply (move_validity two_arrays 1%positive 3%positive [1; 2; 3]
             world_ok_two_arrays holds_two_arrays_1); [done|reflexivity].
  - apply (move_validity two_arrays 1%positive 2%positive [1; 2; 3]
             world_ok_two_arrays holds_two_arrays_1 ltac:(done)) with (ys := [1; 2; 4]).
    apply holds_two_arrays_2.
Defined.

Lemma Z_ne_law (x y : Z) : T_ne x y = negb (T_eq x y).
Proof. reflexivity. Qed.

(** Comparing [{1, 2, 3}] with [{1, 2, 4}]. *)
Lemma lexicographic_comparison_witness :
  holds two_arrays 1%positive [1; 2; 3] ∧ holds two_arrays 2%positive [1; 2; 4] ∧
  (∀ x y : Z, T_ne x y = negb (T_eq x y)) ∧
  three_way 1%positive 2%positive two_arrays = Ok Lt two_arrays ∧
  equal 1%positive 2%positive two_arrays = Ok false two_arrays.
Proof.
  split; [apply holds_two_arrays_1|]. split; [apply holds_two_arrays_2|].
  split; [apply Z_ne_law|].
  destruct (lexicographic_comparison two_arrays 1%positive 2%positive [1; 2; 3] [1; 2; 4]
              holds_two_arrays_1 holds_two_arrays_2 Z_ne_law)
    as (cmp & eq & Hcmp & Heq & Hfirst & _ & Hiff).
  rewrite Hcmp, Heq. split.
  - f_equal. apply (Hfirst 2%nat 3 4); [reflexivity|reflexivity|done|].
    intros [|[|j]] x y ? Hx Hy; simpl in *; simplify_eq; [reflexivity|reflexivity|lia].
  - f_equal. destruct eq; [|done]. exfalso.
    destruct (proj1 Hiff eq_refl) as [_ Hall]. by specialize (Hall 2%nat 3 4 eq_refl eq_refl).
Defined.

(** The orderings of the specification: [{1,2,3} < {1,2,4}],
    [{1,2} < {1,2,3}], [{1,2,3} == {1,2,3}], and two empty containers are
    equal. *)
Example ordering_examples :
  let compare (xs ys : list Z) :=
    (with_ilist xs (new_ilist 1%positive);; with_ilist ys (new_ilist 2%positive);;
     cmp ← three_way 1%positive 2%positive; eq ← equal 1%positive 2%positive;
     mret (cmp, eq)) in
  returned_pair (compare [1; 2; 3] [1; 2; 4]) = Some (Lt, false) ∧
  returned_pair (compare [1; 2] [1; 2; 3]) = Some (Lt, false) ∧
  returned_pair (compare [1; 2; 3] [1; 2]) = Some (Gt, false) ∧
  returned_pair (compare [1; 2; 3] [1; 2; 3]) = Some (Eq, true) ∧
  returned_pair (compare [] []) = Some (Eq, true).
Proof. vm_compute. repeat split. Qed.

(** Swapping the two containers. *)
Lemma Swap_exchanges_witness :
  ∃ w',
    Swap 1%positive 2%positive two_arrays = Ok tt w' ∧
    holds w' 1%positive [1; 2; 4] ∧ holds w' 2%positive [1; 2; 3] ∧
    Swap 1%positive 2%positive w' = Ok tt two_arrays.
Proof.
  destruct (Swap_exchanges two_arrays 1%positive 2%positive
              (Fields (Some 1%positive) 3 3) (Fields (Some 2%positive) 3 3)
              eq_refl eq_refl)
    as (w' & Hswap & _ & _ & _ & _ & Hholds & Hback).
  exists w'. destruct (Hholds _ _ holds_two_arrays_1 holds_two_arrays_2). done.
Defined.

(** The scenario of the specification, end to end. *)
Example end_to_end :
  let a := 1%positive in
  let contents (m : M (@world Z) unit) :=
    match m empty_world with Ok _ w => elements_of w a | _ => None end in
  let s1 := new_default a;; invoke a (Add 1);;
            with_ilist [2; 3] (λ il, invoke a (AddRange il)) in
  let s2 := s1;; invoke a (Emplace 4);; mret tt in
  let s3 := s2;; invoke a (EmplaceAt 0 0);; mret tt in
  let s4 := s3;; invoke a (Insert 2 99) in
  let s5 := s4;; invoke a (Remove 99);; mret tt in
  let s6 := s5;; invoke a (RemoveAt 0) in
  let s7 := s6;; invoke a Clear in
  contents s1 = Some [1; 2; 3] ∧ contents s2 = Some [1; 2; 3; 4] ∧
  contents s3 = Some [0; 1; 2; 3; 4] ∧ contents s4 = Some [0; 1; 99; 2; 3; 4] ∧
  contents s5 = Some [0; 1; 2; 3; 4] ∧ contents s6 = Some [1; 2; 3; 4] ∧
  contents s7 = Some [].
Proof. vm_compute. repeat split. Qed.

(** * Further properties of the member functions *)

(** ** Removal by index *)

Section Inversion.
Context {S : Type}.

Lemma wp_inv {A} (m : M S A) s (Q : A → S → Prop) (E : exn → S → Prop) :
  wp m s Q E →
  (∃ a s', m s = Ok a s' ∧ Q a s') ∨ (∃ e s', m s = Throw e s' ∧ E e s').
Proof. unfold wp. destruct (m s); [left|right|done]; eauto. Qed.

End Inversion.

Section RemovalContracts.
Context {T : Type} `{!Element T}.
Implicit Types (c : DynamicArray) (h : gmap positive (list (option T))) (xs vs : list T).

Lemma without_1 (i : nat) xs : without i 1 xs = delete i xs.
Proof. unfold without. rewrite delete_take_drop. do 2 f_equal. lia. Qed.

Lemma without_clamped (i k : nat) xs :
  (i ≤ length xs)%nat →
  without i (k `min` (length xs - i)) xs = take i xs ++ drop (i + k) xs.
Proof.
  intros ?. unfold without. f_equal.
  destruct (decide (k ≤ length xs - i)%nat).
  - by rewrite Nat.min_l.
  - rewrite Nat.min_r by lia. by rewrite !drop_ge by lia.
Qed.

(** X1: [RemoveAt(index)] throws [out_of_range] and changes nothing when
    [index >= size]; otherwise it removes exactly the element at [index],
    the others keep their order, the size drops by one, and capacity and
    storage stay as they were. *)
Theorem RemoveAt_contract c h xs (index : Z) :
  rep c h xs → 0 ≤ index →
  (m_size c ≤ index → RemoveAt index (St c h) = Throw out_of_range (St c h)) ∧
  (index < m_size c →
     ∃ c' h',
       RemoveAt index (St c h) = Ok tt (St c' h') ∧
       rep c' h' (delete (Z.to_nat index) xs) ∧
       m_size c' = m_size c - 1 ∧
       m_capacity c' = m_capacity c ∧ m_data c' = m_data c).
Proof.
  intros Hrep ?.
  destruct (wp_inv _ _ _ _ (RemoveAt_spec c h xs index Hrep ltac:(done)))
    as [([] & [c' h'] & Hrun & ? & Hrep' & _ & ? & ?)|(e & s' & Hrun & -> & ? & ->)];
    simpl in *.
  - split; [lia|]. intros _. exists c', h'. rewrite without_1 in Hrep'.
    split_and!; try done.
    rewrite (rep_size _ _ _ Hrep'), (rep_size _ _ _ Hrep), length_delete.
    + pose proof (rep_size _ _ _ Hrep). lia.
    + apply lookup_lt_is_Some. pose proof (rep_size _ _ _ Hrep). lia.
  - split; [done|lia].
Qed.

(** X2: [RemoveRange(index, count)] with [index + count] representable:
    it throws [out_of_range] and changes nothing when [index >= size], also
    for a count of 0; otherwise it removes the elements at
    [index, index + count), as many of them as there are, without touching
    capacity or storage, and a count of 0 leaves the state as it is. *)
Theorem RemoveRange_clamps c h xs (index count : Z) :
  rep c h xs → 0 ≤ index → 0 ≤ count → index + count ≤ SIZE_MAX →
  (m_size c ≤ index → RemoveRange index count (St c h) = Throw out_of_range (St c h)) ∧
  (index < m_size c →
     ∃ c' h',
       RemoveRange index count (St c h) = Ok tt (St c' h') ∧
       rep c' h' (take (Z.to_nat index) xs ++ drop (Z.to_nat (index + count)) xs) ∧
       m_size c' = m_size c - Z.min count (m_size c - index) ∧
       m_capacity c' = m_capacity c ∧ m_data c' = m_data c ∧
       (count = 0 → c' = c ∧ h' = h)).
Proof.
  intros Hrep ???. pose proof (rep_size _ _ _ Hrep) as Hs.
  pose proof (rep_size_range _ _ _ Hrep).
  destruct (wp_inv _ _ _ _ (RemoveRange_spec c h xs index count Hrep
                              ltac:(done) ltac:(done) ltac:(done)))
    as [([] & [c' h'] & Hrun & ? & Hrep' & _ & ? & ?)|(e & s' & Hrun & -> & ? & ->)];
    simpl in *.
  - split; [lia|]. intros _. exists c', h'.
    assert (without (Z.to_nat index) (Z.to_nat (count `min` (m_size c - index))) xs
            = take (Z.to_nat index) xs ++ drop (Z.to_nat (index + count)) xs) as Heq.
    { rewrite Z2Nat.inj_add by lia.
      rewrite <- (without_clamped (Z.to_nat index) (Z.to_nat count)) by lia.
      f_equal; lia. }
    split_and!; try done.
    + by rewrite <- Heq.
    + rewrite (rep_size _ _ _ Hrep'), length_without by lia. lia.
    + intros ->. revert Hrun. unfold RemoveRange. run.
      rewrite checkRange_strict by lia.
      rewrite bool_decide_eq_false_2 by lia. run.
      rewrite bool_decide_eq_true_2 by done. by intros [= -> ->].
  - split; [done|lia].
Qed.

End RemovalContracts.

(** ** Insertion by index, ranges and capacity *)

Section InsertionContracts.
Context {T : Type} `{!Element T}.
Implicit Types (c : DynamicArray) (h : gmap positive (list (option T))) (xs vs : list T).

Lemma lookup_inserted_at (i : nat) x xs :
  (i ≤ length xs)%nat → (take i xs ++ x :: drop i xs) !! i = Some x.
Proof.
  intros ?. rewrite lookup_app_r; rewrite length_take; [|lia].
  by replace (i - i `min` length xs)%nat with 0%nat by lia.
Qed.

(** With the memory granted and the argument passed as its value. *)
Lemma EmplaceAt_when_granted c h xs (index : Z) x :
  rep c h xs → m_size c < SIZE_MAX → 0 ≤ index →
  (m_size c < index →
     EmplaceAt index x (St c h) = Throw out_of_range (St c h) ∧
     Insert index x (St c h) = Throw out_of_range (St c h)) ∧
  (index ≤ m_size c →
     ∃ c' h',
       EmplaceAt index x (St c h) = Ok (Ref (m_data c') index) (St c' h') ∧
       Insert index x (St c h) = Ok tt (St c' h') ∧
       rep c' h' (take (Z.to_nat index) xs ++ x :: drop (Z.to_nat index) xs) ∧
       m_size c' = m_size c + 1 ∧
       deref h' (Ref (m_data c') index) = Some x).
Proof.
  intros Hrep ??. pose proof (rep_size _ _ _ Hrep) as Hs.
  destruct (wp_inv _ _ _ _ (EmplaceAt_spec c h xs index x Hrep ltac:(done) ltac:(done)))
    as [(r & [c' h'] & Hrun & ? & Hrep' & _ & ->)|(e & s' & Hrun & -> & ? & ->)];
    simpl in *.
  - split; [lia|]. intros _. exists c', h'.
    unfold inserted in Hrep'. simpl in Hrep'.
    split_and!; try done.
    + unfold Insert. run. by rewrite Hrun.
    + rewrite (rep_size _ _ _ Hrep'), length_app, length_take. simpl.
      rewrite length_drop. lia.
    + pose proof (deref_element _ _ _ (Z.to_nat index) x Hrep') as Hd.
      rewrite Z2Nat.id in Hd by done. apply Hd, lookup_inserted_at. lia.
  - split; [|lia]. intros _. split; [done|]. unfold Insert. run. by rewrite Hrun.
Qed.


(** With the memory granted: the elements of the list are appended in
    order, the capacity becomes what [ensureCapacity] settles on, and an empty
    list leaves the state as it is. *)
Lemma AddRange_when_granted c h xs ilist vs :
  rep c h xs → ilist_holds c h ilist vs →
  m_size c + Z.of_nat (length vs) ≤ SIZE_MAX →
  ∃ c' h',
    AddRange ilist (St c h) = Ok tt (St c' h') ∧
    rep c' h' (xs ++ vs) ∧
    m_size c' = m_size c + Z.of_nat (length vs) ∧
    m_capacity c' = grown (m_capacity c) (m_size c + Z.of_nat (length vs)) ∧
    (vs = [] → c' = c ∧ h' = h).
Proof.
  intros Hrep (Hn & Hsrc & Hfor & ?) ?. pose proof Hrep as (Hs & ? & ? & _).
  destruct ilist as [src n]. simpl in *. subst n.
  unfold AddRange. run. case_bool_decide as Hn; run.
  { assert (vs = []) as -> by (apply nil_length_inv; lia).
    exists c, h. rewrite app_nil_r. simpl. unfold grown.
    rewrite bool_decide_eq_true_2 by lia. split_and!; [done|done|lia|done|done]. }
  rewrite wrap_small by lia.
  destruct (wp_ok_inv _ _ _ (ensureCapacity_spec c h xs (m_size c + Z.of_nat (length vs)) no_throw
                               Hrep ltac:(lia)))
    as ([] & [c1 h1] & -> & Hrep1 & Hfr & Hcap & Hge). simpl in *.
  pose proof Hrep1 as (Hs1 & ? & ? & _).
  destruct (readable_frame _ _ _ _ _ _ Hsrc Hfor Hfr) as [Hsrc1 Hfor1].
  destruct (rep_block c1 h1 xs) as (a & Hd & Ha); [done|lia|].
  run. rewrite Hd.
  rewrite (heap_copy_n_ok _ _ vs a _ _ Hsrc1 Ha) by (rewrite ?length_storage; lia).
  run. rewrite Hd, Hs1, storage_append by lia. rewrite wrap_small by lia.
  eexists _, _. split; [done|]. simpl. split_and!; [|lia|done|].
  - unfold rep; simpl. rewrite length_app.
    split_and!; [lia|lia|lia|lia|apply lookup_insert_eq].
  - intros ->. simpl in *. lia.
Qed.

End InsertionContracts.

Section CapacityContracts.
Context {T : Type} `{!Element T}.
Implicit Types (c : DynamicArray) (h : gmap positive (list (option T))) (xs vs : list T).


(** With the memory granted and [value] passed as its value. *)
Lemma Resize_when_granted c h xs (newSize : Z) value :
  rep c h xs → 0 ≤ newSize ≤ SIZE_MAX →
  ∃ c' h',
    Resize_with newSize value (St c h) = Ok tt (St c' h') ∧
    rep c' h' (take (Z.to_nat newSize) xs ++ replicate (Z.to_nat newSize - length xs) value) ∧
    m_size c' = newSize ∧
    m_capacity c' = grown (m_capacity c) newSize ∧
    (newSize ≤ m_capacity c → m_data c' = m_data c) ∧
    (newSize = m_size c → c' = c ∧ h' = h).
Proof.
  intros Hrep ?. pose proof Hrep as (Hs & ? & ? & _).
  unfold Resize_with. run. case_bool_decide; run.
  - rewrite wrap_small by lia.
    rewrite (truncate_storage c h xs newSize Hrep) by lia. run.
    replace (Z.to_nat newSize - length xs)%nat with 0%nat by lia.
    simpl. rewrite app_nil_r. eexists _, _. split; [done|]. simpl.
    unfold grown. rewrite bool_decide_eq_true_2 by lia.
    split_and!; [apply (rep_truncate c h xs newSize Hrep); lia|done..|lia].
  - case_bool_decide; run.
    + destruct (wp_ok_inv _ _ _ (ensureCapacity_spec c h xs newSize no_throw Hrep ltac:(lia)))
        as ([] & [c1 h1] & Hrun & Hrep1 & Hfr & Hcap & Hge). rewrite Hrun. simpl in *.
      pose proof Hrep1 as (Hs1 & ? & ? & _).
      destruct (rep_block c1 h1 xs) as (a & Hd & Ha); [done|lia|].
      run. rewrite Hd, wrap_small by lia.
      rewrite (heap_fill_n_ok _ _ _ _ _ _ Ha) by (rewrite ?length_storage; lia).
      run. rewrite Hd, Hs1, storage_append by (rewrite length_replicate; lia).
      rewrite take_ge by lia.
      replace (Z.to_nat (newSize - Z.of_nat (length xs)))
        with (Z.to_nat newSize - length xs)%nat by lia.
      eexists _, _. split; [done|]. simpl. split_and!; [|done|done| |lia].
      * unfold rep; simpl. rewrite length_app, length_replicate.
        split_and!; [lia|lia|lia|lia|apply lookup_insert_eq].
      * intros Hle. revert Hrun. unfold ensureCapacity. run.
        rewrite bool_decide_eq_true_2 by done. intros [= -> ->]. done.
    + assert (newSize = m_size c) as -> by lia.
      rewrite take_ge by lia.
      replace (Z.to_nat (m_size c) - length xs)%nat with 0%nat by lia.
      simpl. rewrite app_nil_r. exists c, h. destruct c. simpl in *.
      unfold grown. rewrite bool_decide_eq_true_2 by lia. done.
Qed.

(** X8: [Resize(0)] and [Resize(0, value)] do exactly what [Clear()]
    does: the container is empty, [IsEmpty()] answers true, capacity and
    storage are kept, and clearing again changes nothing. *)
Theorem Resize_zero_is_Clear c h xs value :
  rep c h xs →
  Resize_with 0 value (St c h) = Clear (St c h) ∧
  Resize 0 (St c h) = Clear (St c h) ∧
  ∃ c' h',
    Clear (St c h) = Ok tt (St c' h') ∧ rep c' h' [] ∧
    m_capacity c' = m_capacity c ∧ m_data c' = m_data c ∧
    IsEmpty (St c' h') = Ok true (St c' h') ∧
    Clear (St c' h') = Ok tt (St c' h').
Proof.
  intros Hrep. pose proof (rep_size_range _ _ _ Hrep).
  assert (∀ v, Resize_with 0 v (St c h) = Clear (St c h)) as Heq.
  { intros v. unfold Resize_with, Clear. run. case_bool_decide; run.
    - by rewrite Z.sub_0_r, wrap_small by lia.
    - rewrite bool_decide_eq_false_2 by lia. run.
      assert (m_size c = 0) as -> by lia. done. }
  split; [apply Heq|]. split; [apply Heq|].
  destruct (wp_ok_inv _ _ _ (Clear_spec c h xs Hrep))
    as ([] & [c' h'] & Hrun & Hrep' & _ & Hd & Hcap). simpl in *.
  exists c', h'. split_and!; try done.
  - unfold IsEmpty. run. by rewrite (rep_size _ _ _ Hrep').
  - pose proof (rep_size _ _ _ Hrep') as Hs'. destruct c' as [d' s' cap'].
    simpl in *. subst s'. unfold Clear. by run.
Qed.

End CapacityContracts.

(** ** Searching *)

Section LookupContracts.
Context {T : Type} `{!Element T}.
Implicit Types (c : DynamicArray) (h : gmap positive (list (option T))) (xs vs : list T).

(** A forward search answers [INDEX_NONE] exactly when nothing matches: an
    index that was found is below the size, hence below [INDEX_NONE]. *)
Lemma first_match_cases (pred : T → bool) xs r :
  Z.of_nat (length xs) ≤ SIZE_MAX → first_match pred xs 0 r →
  (r = INDEX_NONE ∧ ∀ v, v ∈ xs → pred v = false) ∨
  (r ≠ INDEX_NONE ∧
   ∃ (k : nat) v, r = Z.of_nat k ∧ xs !! k = Some v ∧ pred v = true ∧
                  ∀ (j : nat) u, (j < k)%nat → xs !! j = Some u → pred u = false).
Proof.
  intros ? [[-> Hnone]|(k & v & -> & _ & Hk & Hp & Hbefore)].
  - left. split; [done|]. intros v [j Hj]%list_elem_of_lookup. apply (Hnone j); [lia|done].
  - right. pose proof (lookup_lt_Some _ _ _ Hk). split; [rewrite INDEX_NONE_eq; lia|].
    exists k, v. split_and!; [done..|]. intros j u ?. apply Hbefore. lia.
Qed.

Lemma last_match_cases (pred : T → bool) xs r :
  Z.of_nat (length xs) ≤ SIZE_MAX → last_match pred xs (length xs) r →
  (r = INDEX_NONE ∧ ∀ v, v ∈ xs → pred v = false) ∨
  (r ≠ INDEX_NONE ∧
   ∃ (k : nat) v, r = Z.of_nat k ∧ xs !! k = Some v ∧ pred v = true ∧
                  ∀ (j : nat) u, (k < j)%nat → xs !! j = Some u → pred u = false).
Proof.
  intros ? [[-> Hnone]|(k & v & -> & _ & Hk & Hp & Hafter)].
  - left. split; [done|]. intros v [j Hj]%list_elem_of_lookup.
    apply (Hnone j); [|done]. by eapply lookup_lt_Some.
  - right. pose proof (lookup_lt_Some _ _ _ Hk). split; [rewrite INDEX_NONE_eq; lia|].
    exists k, v. split_and!; [done..|]. intros j u ? Hj. apply (Hafter j); [|done].
    pose proof (lookup_lt_Some _ _ _ Hj). lia.
Qed.

Lemma rep_length_range c h xs : rep c h xs → Z.of_nat (length xs) ≤ SIZE_MAX.
Proof. intros (? & ? & ? & _). lia. Qed.

(** X9: [FindIf(pred)] leaves the container as it is and returns the
    index of the first element satisfying [pred]; it returns [INDEX_NONE]
    exactly when no element does, and [ContainsIf(pred)] answers whether the
    result is not [INDEX_NONE]. *)
Theorem FindIf_first_match c h xs (pred : T → bool) :
  rep c h xs →
  ∃ r,
    FindIf pred (St c h) = Ok r (St c h) ∧
    ContainsIf pred (St c h) = Ok (bool_decide (r ≠ INDEX_NONE)) (St c h) ∧
    (r = INDEX_NONE ↔ ∀ v, v ∈ xs → pred v = false) ∧
    (r ≠ INDEX_NONE →
       ∃ v, 0 ≤ r < m_size c ∧ xs !! Z.to_nat r = Some v ∧ pred v = true ∧
            ∀ (j : nat) u, (j < Z.to_nat r)%nat → xs !! j = Some u → pred u = false).
Proof.
  intros Hrep. destruct (FindIf_spec c h xs pred Hrep) as (r & Hr & Hm).
  exists r. split; [done|]. split; [unfold ContainsIf; run; by rewrite Hr|].
  apply first_match_cases in Hm; [|by eapply rep_length_range].
  destruct Hm as [[-> Hnone]|(Hne & k & v & -> & Hk & Hp & Hbefore)].
  - split; [done|]. intros Hne. by destruct Hne.
  - pose proof (lookup_lt_Some _ _ _ Hk). split.
    + split; [done|]. intros Hnone. rewrite (Hnone v) in Hp; [done|].
      by eapply list_elem_of_lookup_2.
    + intros _. exists v. rewrite Nat2Z.id, (rep_size _ _ _ Hrep).
      split_and!; [lia|lia|done..].
Qed.

(** X10: [FindLastIf(pred)] leaves the container as it is and returns
    the index of the last element satisfying [pred], or [INDEX_NONE] exactly
    when no element does. *)
Theorem FindLastIf_last_match c h xs (pred : T → bool) :
  rep c h xs →
  ∃ r,
    FindLastIf pred (St c h) = Ok r (St c h) ∧
    (r = INDEX_NONE ↔ ∀ v, v ∈ xs → pred v = false) ∧
    (r ≠ INDEX_NONE →
       ∃ v, 0 ≤ r < m_size c ∧ xs !! Z.to_nat r = Some v ∧ pred v = true ∧
            ∀ (j : nat) u, (Z.to_nat r < j)%nat → xs !! j = Some u → pred u = false).
Proof.
  intros Hrep. destruct (FindLastIf_spec c h xs pred Hrep) as (r & Hr & Hm).
  exists r. split; [done|].
  apply last_match_cases in Hm; [|by eapply rep_length_range].
  destruct Hm as [[-> Hnone]|(Hne & k & v & -> & Hk & Hp & Hafter)].
  - split; [done|]. intros Hne. by destruct Hne.
  - pose proof (lookup_lt_Some _ _ _ Hk). split.
    + split; [done|]. intros Hnone. rewrite (Hnone v) in Hp; [done|].
      by eapply list_elem_of_lookup_2.
    + intros _. exists v. rewrite Nat2Z.id, (rep_size _ _ _ Hrep).
      split_and!; [lia|lia|done..].
Qed.

(** X11: [Find], [FindLast] and [Contains] on a value agree:
    [Contains] is true exactly when some element is [==] to the value; then
    [Find] and [FindLast] return indices below the size, [Find] no larger
    than [FindLast], both of matching elements, with no match before the one
    or after the other; else both return [INDEX_NONE]. *)
Theorem Find_FindLast_Contains c h xs value :
  rep c h xs →
  ∃ first last b,
    Find value (St c h) = Ok first (St c h) ∧
    FindLast value (St c h) = Ok last (St c h) ∧
    Contains value (St c h) = Ok b (St c h) ∧
    (b = true ↔ ∃ v, v ∈ xs ∧ T_eq v value = true) ∧
    (b = false → first = INDEX_NONE ∧ last = INDEX_NONE) ∧
    (b = true →
       0 ≤ first ≤ last ∧ last < m_size c ∧
       (∃ v, xs !! Z.to_nat first = Some v ∧ T_eq v value = true) ∧
       (∃ v, xs !! Z.to_nat last = Some v ∧ T_eq v value = true) ∧
       ∀ (j : nat) u, (j < Z.to_nat first ∨ Z.to_nat last < j)%nat →
                      xs !! j = Some u → T_eq u value = false).
Proof.
  intros Hrep. pose proof (rep_length_range _ _ _ Hrep).
  destruct (Find_spec c h xs value Hrep) as (first & Hf & Hfm).
  destruct (FindLast_spec c h xs value Hrep) as (last & Hl & Hlm).
  exists first, last, (bool_decide (first ≠ INDEX_NONE)).
  split; [done|]. split; [done|]. split; [unfold Contains; run; by rewrite Hf|].
  apply first_match_cases in Hfm; [|done]. apply last_match_cases in Hlm; [|done].
  destruct Hfm as [[-> Hnone]|(Hne & k & v & -> & Hk & Hp & Hbefore)].
  - rewrite bool_decide_eq_false_2 by (intros ?; done).
    split; [split; [done|]; intros (v & Hv & Hp); by rewrite (Hnone v) in Hp|].
    split; [|done]. intros _. split; [done|].
    destruct Hlm as [[-> _]|(_ & k & v & _ & Hk & Hp & _)]; [done|].
    rewrite (Hnone v) in Hp; [done|]. by eapply list_elem_of_lookup_2.
  - rewrite bool_decide_eq_true_2 by done.
    split; [split; [|done]; intros _; exists v; split; [|done];
            by eapply list_elem_of_lookup_2|].
    split; [done|]. intros _.
    destruct Hlm as [[-> Hnone]|(_ & k' & v' & -> & Hk' & Hp' & Hafter)].
    { rewrite (Hnone v) in Hp; [done|]. by eapply list_elem_of_lookup_2. }
    pose proof (lookup_lt_Some _ _ _ Hk'). rewrite !Nat2Z.id, (rep_size _ _ _ Hrep).
    assert (k ≤ k')%nat.
    { destruct (decide (k ≤ k')%nat); [done|].
      rewrite (Hbefore k' v') in Hp'; [done|lia|done]. }
    split_and!; [lia|lia|lia|eauto|eauto|].
    intros j u [?|?] Hj; [by eapply Hbefore|by eapply Hafter].
Qed.

(** X12: [Remove(value)] returns whether [Find(value)] found an index;
    if not, nothing changes; if so, exactly the first element [==] to the
    value is removed, the size drops by one, and capacity and storage stay. *)
Theorem Remove_first_occurrence c h xs value :
  rep c h xs →
  ∃ i c' h',
    Find value (St c h) = Ok i (St c h) ∧
    Remove value (St c h) = Ok (bool_decide (i ≠ INDEX_NONE)) (St c' h') ∧
    (i = INDEX_NONE → c' = c ∧ h' = h) ∧
    (i ≠ INDEX_NONE →
       (∃ v, xs !! Z.to_nat i = Some v ∧ T_eq v value = true) ∧
       (∀ (j : nat) u, (j < Z.to_nat i)%nat → xs !! j = Some u → T_eq u value = false) ∧
       rep c' h' (delete (Z.to_nat i) xs) ∧
       m_size c' = m_size c - 1 ∧ m_capacity c' = m_capacity c ∧ m_data c' = m_data c).
Proof.
  intros Hrep. pose proof (rep_length_range _ _ _ Hrep).
  pose proof (rep_size _ _ _ Hrep) as Hs.
  destruct (Find_spec c h xs value Hrep) as (i & Hf & Hm).
  apply first_match_cases in Hm; [|done]. exists i.
  unfold Remove. run. rewrite Hf.
  destruct Hm as [[-> _]|(Hne & k & v & -> & Hk & Hp & Hbefore)].
  - rewrite bool_decide_eq_false_2 by (intros ?; done). run.
    exists c, h. split_and!; [done..|]. intros Hne. by destruct Hne.
  - rewrite bool_decide_eq_true_2 by done. run.
    pose proof (lookup_lt_Some _ _ _ Hk).
    destruct (wp_inv _ _ _ _ (RemoveAt_spec c h xs (Z.of_nat k) Hrep ltac:(lia)))
      as [([] & [c' h'] & -> & ? & Hrep' & _ & ? & ?)|(e & s' & _ & _ & ? & _)];
      [|lia]. simpl in *.
    rewrite Nat2Z.id, without_1 in Hrep'.
    exists c', h'. split_and!; [done|done|done|]. intros _. rewrite Nat2Z.id.
    split_and!; [eauto|done|done| |done|done].
    rewrite (rep_size _ _ _ Hrep'), length_delete by eauto. lia.
Qed.

End LookupContracts.

(** ** Growth and the validity of references *)

Section Growth.
Context {T : Type} `{!Element T}.
Implicit Types (c : DynamicArray) (h : gmap positive (list (option T))) (xs vs : list T).

(** [ensureCapacity] on a container that has to grow: the elements move to
    a fresh block and the old one is released. *)
Lemma ensureCapacity_moves c h xs minCapacity :
  rep c h xs → m_capacity c < minCapacity ≤ SIZE_MAX →
  ∃ a', h !! a' = None ∧ m_data c ≠ Some a' ∧
    ensureCapacity minCapacity (St c h)
    = Ok tt (St (Fields (Some a') (m_size c) (grown (m_capacity c) minCapacity))
                (<[a' := storage xs (grown (m_capacity c) minCapacity)]>
                   (drop_block (m_data c) h))).
Proof.
  intros Hrep ?. pose proof Hrep as (Hs & ? & ? & Hd).
  unfold ensureCapacity, grown. run.
  rewrite !bool_decide_eq_false_2 by lia.
  set (nc := if bool_decide (_ < minCapacity) then minCapacity else _).
  assert (nc = minCapacity `max` ((m_capacity c + m_capacity c / 2) `min` SIZE_MAX)) as Hnc.
  { unfold nc.
    assert (0 ≤ m_capacity c / 2 ≤ m_capacity c)
      by (split; [apply Z.div_pos|apply Z.div_le_upper_bound]; lia).
    repeat case_bool_decide; rewrite ?wrap_small in * by lia; lia. }
  rewrite <- Hnc.
  destruct (reallocate_ok c h xs nc) as (a' & Hfresh & ->); [done|lia..|].
  exists a'. split_and!; [done| |done].
  intros Heq. rewrite Heq in Hd. destruct Hd. congruence.
Qed.

(** [Emplace] into spare capacity constructs the element in place. *)
Lemma Emplace_in_place c h xs x :
  rep c h xs → m_size c < m_capacity c →
  ∃ h',
    Emplace x (St c h)
    = Ok (Ref (m_data c) (m_size c))
         (St (Fields (m_data c) (m_size c + 1) (m_capacity c)) h') ∧
    rep (Fields (m_data c) (m_size c + 1) (m_capacity c)) h' (xs ++ [x]).
Proof.
  intros Hrep Hcap. pose proof Hrep as (Hs & ? & ? & Hd).
  unfold Emplace. run. rewrite wrap_small by lia.
  unfold ensureCapacity. run. rewrite bool_decide_eq_true_2 by lia. run.
  destruct (rep_push c h xs x) as (a & Ha & Hc & Hrep'); [done..|].
  rewrite Ha, Hc. run. rewrite wrap_small by lia. rewrite ?Ha. eauto.
Qed.


End Growth.

(** ** Calls in sequence *)

Section Compositions.
Context {T : Type} `{!Element T}.
Implicit Types (c : DynamicArray) (h : gmap positive (list (option T))) (xs vs : list T).


(** X16: inserting at the end is appending: [EmplaceAt(size, x)] does
    what [Emplace(x)] does, and [Insert(size, x)] what [Add(x)] does. *)
Theorem EmplaceAt_end_is_Emplace c h xs x :
  rep c h xs → m_size c < SIZE_MAX →
  EmplaceAt (m_size c) x (St c h) = Emplace x (St c h) ∧
  Insert (m_size c) x (St c h) = Add x (St c h).
Proof.
  intros Hrep ?. pose proof (rep_size_range _ _ _ Hrep).
  assert (EmplaceAt (m_size c) x (St c h) = Emplace x (St c h)) as Heq.
  { unfold EmplaceAt, Emplace. run.
    rewrite (checkRange_spec c h xs) by done. simpl.
    rewrite bool_decide_eq_false_2 by lia. run. rewrite wrap_small by lia.
    destruct (wp_ok_inv _ _ _ (ensureCapacity_spec c h xs (m_size c + 1) no_throw
                                 Hrep ltac:(lia)))
      as ([] & [c1 h1] & -> & Hrep1 & _). simpl in *.
    assert (m_size c1 = m_size c) as Hs1
      by (rewrite (rep_size _ _ _ Hrep), (rep_size _ _ _ Hrep1); done).
    unfold shiftRight. run. rewrite Hs1, Z.sub_diag. 
    replace (wrap 0) with 0 by (by rewrite wrap_small by lia). simpl. run.
    destruct (heap_construct_at h1 (m_data c1) (m_size c) x); run; by rewrite ?Hs1. }
  split; [done|]. unfold Insert, Add. run. by rewrite Heq.
Qed.


End Compositions.

(** ** Searching after an update *)

Section SearchAfterUpdate.
Context {T : Type} `{!Element T}.
Implicit Types (c : DynamicArray) (h : gmap positive (list (option T))) (xs vs : list T).

Lemma kept_by_no_match (pred : T → bool) xs v : v ∈ kept_by pred xs → pred v = false.
Proof.
  unfold kept_by. rewrite list_elem_of_In, filter_In. intros [_ Hp].
  by destruct (pred v).
Qed.

Lemma kept_by_idemp (pred : T → bool) xs : kept_by pred (kept_by pred xs) = kept_by pred xs.
Proof.
  unfold kept_by. induction xs as [|x xs IH]; simpl; [done|].
  destruct (pred x) eqn:Hp; simpl; [done|]. by rewrite Hp, IH.
Qed.

(** X18: after [RemoveAll(pred)] no element satisfies [pred]: [FindIf]
    and [FindLastIf] return [INDEX_NONE], [ContainsIf] answers false, and a
    second [RemoveAll(pred)] removes nothing. *)
Theorem RemoveAll_leaves_no_match c h xs (pred : T → bool) :
  rep c h xs →
  ∃ n c' h',
    RemoveAll pred (St c h) = Ok n (St c' h') ∧
    FindIf pred (St c' h') = Ok INDEX_NONE (St c' h') ∧
    FindLastIf pred (St c' h') = Ok INDEX_NONE (St c' h') ∧
    ContainsIf pred (St c' h') = Ok false (St c' h') ∧
    ∃ c'' h'', RemoveAll pred (St c' h') = Ok 0 (St c'' h'') ∧
               m_size c'' = m_size c'.
Proof.
  intros Hrep.
  destruct (wp_ok_inv _ _ _ (RemoveAll_spec c h xs pred Hrep))
    as (n & [c' h'] & Hrun & Hrep' & _). simpl in *.
  exists n, c', h'. split; [done|].
  pose proof (rep_length_range _ _ _ Hrep').
  destruct (FindIf_spec c' h' _ pred Hrep') as (r & Hr & Hm).
  apply first_match_cases in Hm; [|done].
  destruct Hm as [[-> _]|(_ & k & v & _ & Hk & Hp & _)].
  2:{ rewrite (kept_by_no_match pred xs v) in Hp; [done|].
      by eapply list_elem_of_lookup_2. }
  destruct (FindLastIf_spec c' h' _ pred Hrep') as (r & Hr' & Hm).
  apply last_match_cases in Hm; [|done].
  destruct Hm as [[-> _]|(_ & k & v & _ & Hk & Hp & _)].
  2:{ rewrite (kept_by_no_match pred xs v) in Hp; [done|].
      by eapply list_elem_of_lookup_2. }
  split; [done|]. split; [done|].
  split; [unfold ContainsIf; run; rewrite Hr; run;
          by rewrite bool_decide_eq_false_2 by (intros ?; done)|].
  destruct (wp_ok_inv _ _ _ (RemoveAll_spec c' h' _ pred Hrep'))
    as (n' & [c'' h''] & Hrun' & Hrep'' & _ & -> & _). simpl in *.
  exists c'', h''. rewrite kept_by_idemp in *.
  rewrite Z.sub_diag in Hrun'. split; [done|].
  by rewrite (rep_size _ _ _ Hrep''), (rep_size _ _ _ Hrep').
Qed.


End SearchAfterUpdate.

(** ** Constructors and assignment of a list *)

Section ExactStates.
Context {T : Type} `{!Element T}.
Implicit Types (c : DynamicArray) (h : gmap positive (list (option T))) (xs vs : list T).

(** The state [assign] leaves: the elements in the container's own block when
    they fit, else in a fresh block of exactly their number, the old block
    released. *)
Lemma assign_exact c h xs src vs :
  rep c h xs → readable h src vs → foreign c src → Z.of_nat (length vs) ≤ SIZE_MAX →
  let n := Z.of_nat (length vs) in
  (n ≤ m_capacity c →
     assign src n (St c h)
     = Ok tt (St (Fields (m_data c) n (m_capacity c))
                 (set_block (m_data c) (storage vs (m_capacity c)) h))) ∧
  (m_capacity c < n →
     ∃ a', h !! a' = None ∧ m_data c ≠ Some a' ∧
       assign src n (St c h)
       = Ok tt (St (Fields (Some a') n n) (<[a' := storage vs n]> (drop_block (m_data c) h)))).
Proof.
  intros Hrep Hsrc Hfor ? n. pose proof Hrep as (Hs & ? & ? & _).
  unfold n. split; intros Hn; unfold assign; run.
  - rewrite bool_decide_eq_true_2 by done. run.
    pose proof (truncate_storage c h xs 0 Hrep) as Hdes.
    rewrite Z.sub_0_r in Hdes. rewrite Hdes by lia. run.
    change (take (Z.to_nat 0) xs) with (@nil T) in *.
    case_bool_decide; run.
    + destruct (rep_block c h xs) as (a & Hd & Ha); [done|lia|]. rewrite Hd. simpl.
      rewrite (heap_copy_n_ok _ _ vs a (storage [] (m_capacity c)));
        [|by eapply readable_own_update|apply lookup_insert_eq|lia|rewrite length_storage; lia].
      run. by rewrite insert_insert_eq, Hd, storage_fresh by lia.
    + assert (vs = []) as -> by (apply nil_length_inv; lia). done.
  - rewrite bool_decide_eq_false_2 by lia. run.
    destruct (heap_allocate h (Z.of_nat (length vs))) as [p h1] eqn:Hal.
    apply heap_allocate_fresh in Hal. destruct p as [a'|]; [|lia].
    destruct Hal as (_ & Hfresh & ->). run.
    rewrite bool_decide_eq_true_2 by lia. run.
    assert (m_data c ≠ Some a') as Hne.
    { intros Hd. destruct Hrep as (_ & _ & _ & Hb). rewrite Hd in Hb.
      destruct Hb. congruence. }
    assert (src ≠ Some a') as Hne'.
    { intros ->. destruct Hsrc as (? & ? & _). congruence. }
    rewrite (heap_copy_n_ok _ _ vs a' (storage [] (Z.of_nat (length vs))));
      [|destruct src as [q|]; [|done]; destruct Hsrc as (cap & ? & ?); exists cap;
        rewrite lookup_insert_ne by congruence; done
       |apply lookup_insert_eq|lia|rewrite length_storage; lia].
    rewrite insert_insert_eq, storage_fresh by lia.
    assert (rep c (<[a':=storage vs (Z.of_nat (length vs))]> h) xs) as Hrep2.
    { destruct Hrep as (? & ? & ? & Hd). unfold rep. split_and!; try done.
      destruct (m_data c) as [a|]; [|done]. destruct Hd as [? Ha]. split; [done|].
      rewrite lookup_insert_ne; [done|congruence]. }
    rewrite (replaceStorage_ok _ _ xs) by done. rewrite drop_block_insert by done.
    exists a'. done.
Qed.

Lemma rep_assigned_in_place c h xs vs :
  rep c h xs → Z.of_nat (length vs) ≤ m_capacity c →
  rep (Fields (m_data c) (Z.of_nat (length vs)) (m_capacity c))
      (set_block (m_data c) (storage vs (m_capacity c)) h) vs.
Proof.
  intros (Hs & ? & ? & Hd) ?. unfold rep; simpl. split_and!; [done..|].
  destruct (m_data c) as [a|]; simpl; [|done].
  split; [tauto|apply lookup_insert_eq].
Qed.

Lemma rep_fresh_block h0 a' vs :
  Z.of_nat (length vs) ≤ SIZE_MAX → vs ≠ [] →
  rep (Fields (Some a') (Z.of_nat (length vs)) (Z.of_nat (length vs)))
      (<[a' := storage vs (Z.of_nat (length vs))]> h0) vs.
Proof.
  intros ? Hne. unfold rep; simpl. split_and!; [done|lia|done| |apply lookup_insert_eq].
  destruct vs; [done|simpl; lia].
Qed.

(** The state the filling constructor leaves. *)
Lemma ctor_fill_exact h (count : Z) value :
  0 < count ≤ SIZE_MAX →
  ∃ a', h !! a' = None ∧
    ctor_fill count value (St empty_array h)
    = Ok tt (St (Fields (Some a') count count)
                (<[a' := storage (replicate (Z.to_nat count) value) count]> h)).
Proof.
  intros ?. unfold ctor_fill. rewrite bool_decide_eq_true_2 by lia. run.
  destruct (heap_allocate h count) as [p h1] eqn:Hal.
  apply heap_allocate_fresh in Hal. destruct p as [a'|]; [|lia].
  destruct Hal as (_ & Hfresh & ->). run.
  rewrite (heap_fill_n_ok _ _ (storage [] count)) by
    (rewrite ?lookup_insert_eq, ?length_storage; done || lia).
  run. rewrite insert_insert_eq, storage_fresh by (rewrite length_replicate; lia).
  by exists a'.
Qed.

End ExactStates.

Section Construction.
Context {T : Type} `{!Element T}.
Implicit Types (c : DynamicArray) (h : gmap positive (list (option T))) (xs vs : list T).

(** With the memory granted and [value] passed as its value. *)
Lemma ctor_fill_when_granted h (count : Z) value :
  0 ≤ count ≤ SIZE_MAX →
  ∃ c' h',
    ctor_fill count value (St empty_array h) = Ok tt (St c' h') ∧
    rep c' h' (replicate (Z.to_nat count) value) ∧
    m_size c' = count ∧ m_capacity c' = count ∧
    (count = 0 → c' = empty_array ∧ h' = h) ∧
    (∀ q blk, h !! q = Some blk → h' !! q = Some blk) ∧
    ∃ h'', ctor_sized count (St empty_array h) = Ok tt (St c' h'') ∧
           rep c' h'' (replicate (Z.to_nat count) T_default).
Proof.
  intros ?. destruct (decide (count = 0)) as [->|].
  - exists empty_array, h. unfold ctor_sized, ctor_fill. simpl.
    split_and!; [done|apply rep_empty|done..|].
    exists h. split; [done|apply rep_empty].
  - assert (∀ v a', rep (Fields (Some a') count count)
                        (<[a' := storage (replicate (Z.to_nat count) v) count]> h)
                        (replicate (Z.to_nat count) v)) as Hrep.
    { intros v a'. unfold rep; simpl. rewrite length_replicate.
      split_and!; [lia|lia|lia|lia|apply lookup_insert_eq]. }
    destruct (ctor_fill_exact h count value) as (a' & Hfresh & Hrun); [lia|].
    destruct (ctor_fill_exact h count T_default) as (a'' & _ & Hrun'); [lia|].
    assert (a'' = a') as ->.
    { revert Hrun Hrun'. unfold ctor_fill. rewrite bool_decide_eq_true_2 by lia. run.
      destruct (heap_allocate h count) as [p h1]. run.
      destruct (heap_fill_n h1 p 0 count value), (heap_fill_n h1 p 0 count T_default);
        run; congruence. }
    eexists _, _. split; [done|]. simpl. split_and!; [done..| | |eauto].
    + intros ->. done.
    + intros q blk Hq. rewrite lookup_insert_ne; [done|congruence].
Qed.

(** What [assign] does to capacity and storage. *)
Lemma assign_storage c h xs src vs :
  rep c h xs → readable h src vs → foreign c src → Z.of_nat (length vs) ≤ SIZE_MAX →
  ∃ c' h',
    assign src (Z.of_nat (length vs)) (St c h) = Ok tt (St c' h') ∧
    rep c' h' vs ∧
    m_capacity c' = Z.max (m_capacity c) (Z.of_nat (length vs)) ∧
    (Z.of_nat (length vs) ≤ m_capacity c → m_data c' = m_data c) ∧
    (m_capacity c < Z.of_nat (length vs) →
       m_data c' ≠ m_data c ∧
       ∀ a i, m_data c = Some a → deref h' (Ref (Some a) i) = None).
Proof.
  intros Hrep Hsrc Hfor ?.
  destruct (assign_exact c h xs src vs Hrep Hsrc Hfor ltac:(done)) as [Hfit Hgrow].
  destruct (decide (Z.of_nat (length vs) ≤ m_capacity c)) as [Hle|Hgt].
  - rewrite Hfit by done. eexists _, _. split; [done|]. simpl.
    split_and!; [by eapply rep_assigned_in_place|lia|done|lia].
  - destruct Hgrow as (a' & Hfresh & Hne & ->); [lia|].
    eexists _, _. split; [done|]. simpl.
    pose proof (rep_size_range _ _ _ Hrep).
    split_and!; [|lia|lia|].
    + apply rep_fresh_block; [done|]. intros ->. simpl in *. destruct Hrep as (? & ? & _). lia.
    + intros _. split; [congruence|]. intros a i Ha. unfold deref, heap_load. simpl.
      rewrite lookup_insert_ne by congruence. rewrite Ha. simpl.
      by rewrite lookup_delete_eq.
Qed.


End Construction.

(** ** Copies *)

Section Copies.
Context {T : Type} `{!Element T}.
Implicit Types (c : DynamicArray) (h : gmap positive (list (option T))) (xs ys : list T)
  (w : @world T).

(** Assigning to an element of one container leaves a container with other
    storage as it is. *)
Lemma heap_store_elsewhere c1 c2 h xs ys (i : nat) v v' :
  rep c1 h xs → rep c2 h ys → foreign c1 (m_data c2) → ys !! i = Some v →
  ∃ h', heap_store h (m_data c2) (Z.of_nat i) v' = Some h' ∧
        rep c1 h' xs ∧ rep c2 h' (<[i := v']> ys).
Proof.
  intros H1 H2 Hfor Hi.
  destruct (heap_store_ok c2 h ys i v v' H2 Hi) as (h' & Hst & Hrep').
  exists h'. split_and!; [done| |done].
  revert Hst. unfold heap_store, heap_construct_at.
  destruct (heap_load h (m_data c2) (Z.of_nat i)); [|done].
  destruct (m_data c2) as [a|] eqn:Ha; simpl; [|done].
  destruct (h !! a) as [blk|]; simpl; [|done].
  case_match; [|done]. intros [= <-].
  destruct H1 as (? & ? & ? & Hd). unfold rep. split_and!; [done..|].
  destruct (m_data c1) as [a1|] eqn:Ha1; [|done]. destruct Hd as [? Hb]. split; [done|].
  rewrite lookup_insert_ne; [done|]. intros ->. by apply (Hfor a1).
Qed.



End Copies.

(** ** Destruction *)

Section Lifetimes.
Context {T : Type} `{!Element T}.
Implicit Types (c : DynamicArray) (h : gmap positive (list (option T))) (xs ys : list T)
  (w : @world T).

Lemma delete_object_ok w this c xs :
  objs w !! this = Some c → rep c (store w) xs →
  delete_object this w
  = Ok tt (World (delete this (objs w)) (drop_block (m_data c) (store w))).
Proof.
  intros Hthis Hrep. unfold delete_object, dtor, tidy. wrun.
  rewrite (invoke_ok w this c _ tt _ _ Hthis (replaceStorage_ok c _ xs _ _ _ Hrep)).
  wrun. unfold release. cbn [objs store]. rewrite lookup_insert_eq.
  by rewrite delete_insert_eq.
Qed.

(** X24: the destructor releases the storage of the container and
    nothing else: the object and its block are gone, every other block and
    every other container is as it was. *)
Theorem destructor_releases_storage w this c xs :
  world_ok w → objs w !! this = Some c → rep c (store w) xs →
  ∃ w',
    delete_object this w = Ok tt w' ∧ world_ok w' ∧
    objs w' !! this = None ∧
    (∀ a, m_data c = Some a → store w' !! a = None) ∧
    (∀ a, m_data c ≠ Some a → store w' !! a = store w !! a) ∧
    (∀ o zs, o ≠ this → holds w o zs → holds w' o zs).
Proof.
  intros Hok Hthis Hrep. rewrite (delete_object_ok w this c xs) by done.
  eexists. split; [done|]. simpl.
  assert (∀ o zs, o ≠ this → holds w o zs →
            holds (World (delete this (objs w)) (drop_block (m_data c) (store w))) o zs)
    as Hothers.
  { intros o zs Hne (co & Ho & Hzs). exists co. simpl.
    split; [by rewrite lookup_delete_ne|].
    apply rep_drop_other; [done|]. by eapply (world_ok_foreign w o this). }
  split_and!; [|apply lookup_delete_eq| | |done].
  - destruct Hok as [Hreps Hdis]. split; simpl.
    + intros o co [Hne Ho]%lookup_delete_Some.
      destruct (Hreps o co Ho) as [zs Hzs].
      destruct (Hothers o zs) as (co' & Ho' & ?); [done|by exists co|].
      simpl in Ho'. rewrite lookup_delete_ne in Ho' by done.
      assert (co' = co) as -> by congruence. by exists zs.
    + intros o1 o2 c1 c2 q [_ H1]%lookup_delete_Some [_ H2]%lookup_delete_Some.
      by apply Hdis.
  - intros a ->. simpl. apply lookup_delete_eq.
  - intros a Hne. destruct (m_data c) as [a0|]; simpl; [|done].
    apply lookup_delete_ne. congruence.
Qed.

(** With the memory granted: construction followed by destruction leaves
    the objects and the heap as they were. *)
Lemma construct_then_destroy_when_granted w this other cother ys (count : Z) value :
  objs w !! this = None → 0 ≤ count ≤ SIZE_MAX →
  objs w !! other = Some cother → rep cother (store w) ys →
  (new_default this;; delete_object this) w = Ok tt w ∧
  (new_fill this count value;; delete_object this) w = Ok tt w ∧
  (new_sized this count;; delete_object this) w = Ok tt w ∧
  (new_copy this other;; delete_object this) w = Ok tt w.
Proof.
  intros Hthis ? Hother Hys.
  assert (World (delete this (objs w)) (store w) = w) as Hw
    by (destruct w; simpl in *; by rewrite delete_id).
  assert (∀ c' h' zs,
            rep c' h' zs → drop_block (m_data c') h' = store w →
            delete_object this (World (<[this := c']> (objs w)) h') = Ok tt w) as Hdel.
  { intros c' h' zs Hrep' Hdrop.
    rewrite (delete_object_ok _ this c' zs); simpl; [|apply lookup_insert_eq|done].
    by rewrite delete_insert_eq, Hdrop, Hw. }
  assert (∀ v, (new_fill this count v;; delete_object this) w = Ok tt w) as Hfill.
  { intros v. unfold new_fill. wrun. rewrite create_ok by done. wrun.
    destruct (decide (count = 0)) as [->|].
    - erewrite invoke_ok; [|simpl; apply lookup_insert_eq|reflexivity].
      simpl. rewrite insert_insert_eq. by apply (Hdel _ _ []); [apply rep_empty|].
    - destruct (ctor_fill_exact (store w) count v) as (a' & Hfresh & Hrun); [lia|].
      erewrite invoke_ok; [|simpl; apply lookup_insert_eq|apply Hrun].
      simpl. rewrite insert_insert_eq.
      apply (Hdel _ _ (replicate (Z.to_nat count) v)); simpl.
      + unfold rep; simpl. rewrite length_replicate.
        split_and!; [lia|lia|lia|lia|apply lookup_insert_eq].
      + by apply delete_insert_id. }
  split_and!.
  - unfold new_default. wrun. rewrite create_ok by done.
    by apply (Hdel _ _ []); [apply rep_empty|].
  - apply Hfill.
  - apply Hfill.
  - assert (this ≠ other) by congruence.
    unfold new_copy. wrun. rewrite create_ok by done. wrun.
    erewrite field_ok by (cbn [objs]; by simplify_map_eq). wrun. cbv [id].
    pose proof (rep_size_range _ _ _ Hys).
    destruct (assign_exact empty_array (store w) [] (m_data cother) ys (rep_empty _)
                (rep_readable _ _ _ Hys) ltac:(by intros ??)) as [Hfit Hgrow].
    { rewrite <- (rep_size _ _ _ Hys). lia. }
    rewrite <- (rep_size _ _ _ Hys) in Hfit, Hgrow. simpl in *.
    destruct (decide (m_size cother = 0)) as [Hz|Hnz].
    + erewrite invoke_ok; [|simpl; apply lookup_insert_eq|apply Hfit; lia].
      simpl. rewrite insert_insert_eq.
      apply (Hdel _ _ []); [|done]. rewrite Hz. apply rep_empty.
    + destruct Hgrow as (a' & Hfresh & _ & Hrun); [lia|].
      erewrite invoke_ok; [|simpl; apply lookup_insert_eq|apply Hrun].
      simpl. rewrite insert_insert_eq.
      apply (Hdel _ _ ys); simpl; [|by apply delete_insert_id].
      rewrite (rep_size _ _ _ Hys). apply rep_fresh_block.
      * rewrite <- (rep_size _ _ _ Hys). lia.
      * intros ->. by rewrite (rep_size _ _ _ Hys) in Hnz.
Qed.

End Lifetimes.

(** ** Comparisons *)

Section Comparisons.
Context {T : Type} `{!Element T}.
Implicit Types (c : DynamicArray) (h : gmap positive (list (option T))) (xs ys : list T)
  (w : @world T).

Lemma no_pair_differs_refl xs : (∀ x : T, T_ne x x = false) → no_pair_differs xs xs = true.
Proof. intros Hne. induction xs as [|x xs IH]; simpl; [done|]. by rewrite Hne. Qed.

Lemma first_difference_refl xs : (∀ x : T, T_cmp x x = Eq) → first_difference xs xs = None.
Proof. intros Hcmp. induction xs as [|x xs IH]; simpl; [done|]. by rewrite Hcmp. Qed.

Lemma no_pair_differs_sym xs ys :
  (∀ x y : T, T_ne y x = T_ne x y) → no_pair_differs ys xs = no_pair_differs xs ys.
Proof.
  intros Hsym. revert ys. induction xs as [|x xs IH]; intros [|y ys]; simpl; try done.
  rewrite (Hsym x y). destruct (T_ne x y); auto.
Qed.

Lemma first_difference_sym xs ys :
  (∀ x y : T, T_cmp y x = CompOpp (T_cmp x y)) →
  first_difference ys xs = CompOpp <$> first_difference xs ys.
Proof.
  intros Hsym. revert ys. induction xs as [|x xs IH]; intros [|y ys]; simpl; try done.
  rewrite (Hsym x y). destruct (T_cmp x y); simpl; auto.
Qed.

Lemma first_difference_not_Eq xs ys : first_difference xs ys ≠ Some Eq.
Proof.
  revert ys. induction xs as [|x xs IH]; intros [|y ys]; simpl; try done.
  destruct (T_cmp x y); auto.
Qed.

Lemma no_pair_differs_first_difference xs ys :
  (∀ x y : T, T_ne x y = false ↔ T_cmp x y = Eq) →
  no_pair_differs xs ys = true ↔ first_difference xs ys = None.
Proof.
  intros Hagree. revert ys. induction xs as [|x xs IH]; intros [|y ys]; simpl; try done.
  specialize (Hagree x y). destruct (T_ne x y), (T_cmp x y); auto;
    destruct Hagree as [H1 H2]; try (by specialize (H1 eq_refl));
    try (by specialize (H2 eq_refl)); done.
Qed.

(** X26: for an element type whose [!=] is symmetric and whose [<=>]
    reverses when its operands are exchanged, [a == b] and [b == a] agree,
    and [b <=> a] is the reverse of [a <=> b]. *)
Theorem comparisons_exchange_operands w a b xs ys :
  holds w a xs → holds w b ys →
  (∀ x y : T, T_ne y x = T_ne x y) → (∀ x y : T, T_cmp y x = CompOpp (T_cmp x y)) →
  ∃ eq cmp,
    equal a b w = Ok eq w ∧ equal b a w = Ok eq w ∧
    three_way a b w = Ok cmp w ∧ three_way b a w = Ok (CompOpp cmp) w.
Proof.
  intros (ca & Ha & Hxs) (cb & Hb & Hys) Hne Hcmp.
  rewrite (equal_ok w a b ca cb xs ys), (equal_ok w b a cb ca ys xs) by done.
  rewrite (three_way_ok w a b ca cb xs ys), (three_way_ok w b a cb ca ys xs) by done.
  eexists _, _. split; [done|]. split_and!; [|done|].
  - rewrite (no_pair_differs_sym xs ys Hne). do 2 f_equal. apply bool_decide_ext. done.
  - rewrite (first_difference_sym xs ys Hcmp).
    destruct (first_difference xs ys); simpl; [done|].
    by rewrite (Z.compare_antisym (Z.of_nat (length xs))).
Qed.

(** X27: [==] agrees with [<=>]: for an element type on which [!=] is
    false exactly when [<=>] is [equal], [a == b] is true exactly when
    [a <=> b] is [equal]. *)
Theorem equal_agrees_with_three_way w a b xs ys :
  holds w a xs → holds w b ys →
  (∀ x y : T, T_ne x y = false ↔ T_cmp x y = Eq) →
  ∃ eq cmp,
    equal a b w = Ok eq w ∧ three_way a b w = Ok cmp w ∧
    (eq = true ↔ cmp = Eq).
Proof.
  intros (ca & Ha & Hxs) (cb & Hb & Hys) Hagree.
  rewrite (equal_ok w a b ca cb xs ys), (three_way_ok w a b ca cb xs ys) by done.
  eexists _, _. split; [done|]. split; [done|].
  rewrite andb_true_iff, bool_decide_eq_true.
  rewrite (no_pair_differs_first_difference xs ys Hagree).
  pose proof (first_difference_not_Eq xs ys).
  destruct (first_difference xs ys) as [cmp|].
  - split; [by intros [_ ?]|]. intros ->. done.
  - rewrite Z.compare_eq_iff. split; [intros [? _]; lia|]. intros ?. split; [lia|done].
Qed.


End Comparisons.

(** ** The properties on concrete containers of integers *)

Lemma rep_array12 : rep array12 heap12 [1; 2].
Proof.
  unfold rep. simpl. pose proof SIZE_MAX_pos. split_and!; try lia. reflexivity.
Qed.

Lemma rep_array123_78 : rep array123 heap123_78 [1; 2; 3].
Proof.
  unfold rep. simpl. pose proof SIZE_MAX_pos. split_and!; try lia. reflexivity.
Qed.

Lemma ilist_holds_78 : ilist_holds array123 heap123_78 list78 [7; 8].
Proof.
  pose proof SIZE_MAX_pos. split_and!; [done| |by intros ? [= <-]|simpl; lia].
  exists 2. split; [reflexivity|simpl; lia].
Qed.

(** Removing the middle element of [{1, 2, 3}]. *)
Lemma RemoveAt_contract_witness :
  rep array123 heap123 [1; 2; 3] ∧ 0 ≤ 1 ∧
  ∃ c' h', RemoveAt 1 (St array123 heap123) = Ok tt (St c' h') ∧ rep c' h' [1; 3].
Proof.
  split; [apply rep_array123|]. split; [lia|].
  destruct (RemoveAt_contract array123 heap123 [1; 2; 3] 1 rep_array123 ltac:(lia))
    as [_ Hin].
  destruct Hin as (c' & h' & Hrun & Hrep & _); [simpl; lia|].
  exists c', h'. split; [exact Hrun|exact Hrep].
Defined.

(** [RemoveRange(1, 5)] on [{1, 2, 3}] removes the two elements there are. *)
Lemma RemoveRange_clamps_witness :
  rep array123 heap123 [1; 2; 3] ∧ 0 ≤ 1 ∧ 0 ≤ 5 ∧ 1 + 5 ≤ SIZE_MAX ∧
  ∃ c' h', RemoveRange 1 5 (St array123 heap123) = Ok tt (St c' h') ∧ rep c' h' [1].
Proof.
  pose proof SIZE_MAX_pos.
  split; [apply rep_array123|]. split; [lia|]. split; [lia|]. split; [lia|].
  destruct (RemoveRange_clamps array123 heap123 [1; 2; 3] 1 5 rep_array123
              ltac:(lia) ltac:(lia) ltac:(lia)) as [_ Hin].
  destruct Hin as (c' & h' & Hrun & Hrep & _); [simpl; lia|].
  exists c', h'. split; [exact Hrun|exact Hrep].
Defined.



(** [Resize(0)] and [Clear()] on [{1, 2, 3}]. *)
Lemma Resize_zero_is_Clear_witness :
  rep array123 heap123 [1; 2; 3] ∧
  Resize 0 (St array123 heap123) = Clear (St array123 heap123).
Proof.
  split; [apply rep_array123|].
  apply (Resize_zero_is_Clear array123 heap123 [1; 2; 3] 0 rep_array123).
Defined.

(** The first element of [{1, 2, 3}] above 1 is at index 1. *)
Lemma FindIf_first_match_witness :
  rep array123 heap123 [1; 2; 3] ∧
  FindIf (λ v, bool_decide (v > 1)) (St array123 heap123) = Ok 1 (St array123 heap123) ∧
  ContainsIf (λ v, bool_decide (v > 1)) (St array123 heap123) = Ok true (St array123 heap123).
Proof.
  split; [apply rep_array123|].
  destruct (FindIf_first_match array123 heap123 [1; 2; 3] (λ v, bool_decide (v > 1))
              rep_array123) as (r & Hr & Hc & _).
  assert (r = 1) as -> by (vm_compute in Hr; congruence).
  split; [exact Hr|exact Hc].
Defined.

(** The last element of [{1, 2, 3}] below 3 is at index 1. *)
Lemma FindLastIf_last_match_witness :
  rep array123 heap123 [1; 2; 3] ∧
  FindLastIf (λ v, bool_decide (v < 3)) (St array123 heap123) = Ok 1 (St array123 heap123).
Proof.
  split; [apply rep_array123|].
  destruct (FindLastIf_last_match array123 heap123 [1; 2; 3] (λ v, bool_decide (v < 3))
              rep_array123) as (r & Hr & _).
  assert (r = 1) as -> by (vm_compute in Hr; congruence).
  exact Hr.
Defined.

(** Searching [{1, 2, 3}] for 2. *)
Lemma Find_FindLast_Contains_witness :
  rep array123 heap123 [1; 2; 3] ∧
  Find 2 (St array123 heap123) = Ok 1 (St array123 heap123) ∧
  FindLast 2 (St array123 heap123) = Ok 1 (St array123 heap123) ∧
  Contains 2 (St array123 heap123) = Ok true (St array123 heap123).
Proof.
  split; [apply rep_array123|].
  destruct (Find_FindLast_Contains array123 heap123 [1; 2; 3] 2 rep_array123)
    as (first & last & b & Hf & Hl & Hb & _).
  assert (first = 1) as -> by (vm_compute in Hf; congruence).
  assert (last = 1) as -> by (vm_compute in Hl; congruence).
  assert (b = true) as -> by (vm_compute in Hb; congruence).
  split; [exact Hf|]. split; [exact Hl|exact Hb].
Defined.

(** Removing 2 from [{1, 2, 3}]. *)
Lemma Remove_first_occurrence_witness :
  rep array123 heap123 [1; 2; 3] ∧
  ∃ c' h', Remove 2 (St array123 heap123) = Ok true (St c' h') ∧ rep c' h' [1; 3].
Proof.
  split; [apply rep_array123|].
  destruct (Remove_first_occurrence array123 heap123 [1; 2; 3] 2 rep_array123)
    as (i & c' & h' & Hf & Hrun & _ & Hfound).
  assert (i = 1) as -> by (vm_compute in Hf; congruence).
  destruct Hfound as (_ & _ & Hrep & _); [done|].
  exists c', h'. split; [exact Hrun|exact Hrep].
Defined.



(** [EmplaceAt(3, 4)] and [Emplace(4)] on [{1, 2, 3}]. *)
Lemma EmplaceAt_end_is_Emplace_witness :
  rep array123 heap123 [1; 2; 3] ∧ m_size array123 < SIZE_MAX ∧
  EmplaceAt 3 4 (St array123 heap123) = Emplace 4 (St array123 heap123).
Proof.
  pose proof SIZE_MAX_pos.
  split; [apply rep_array123|]. split; [simpl; lia|].
  apply (EmplaceAt_end_is_Emplace array123 heap123 [1; 2; 3] 4 rep_array123).
  simpl; lia.
Defined.


(** Removing the elements of [{1, 2, 3}] above 1. *)
Lemma RemoveAll_leaves_no_match_witness :
  rep array123 heap123 [1; 2; 3] ∧
  ∃ c' h',
    RemoveAll (λ v, bool_decide (v > 1)) (St array123 heap123) = Ok 2 (St c' h') ∧
    ContainsIf (λ v, bool_decide (v > 1)) (St c' h') = Ok false (St c' h').
Proof.
  split; [apply rep_array123|].
  destruct (RemoveAll_leaves_no_match array123 heap123 [1; 2; 3]
              (λ v, bool_decide (v > 1)) rep_array123)
    as (n & c' & h' & Hrun & _ & _ & Hc & _).
  assert (n = 2) as -> by (vm_compute in Hrun; congruence).
  exists c', h'. split; [exact Hrun|exact Hc].
Defined.



Lemma rep_two_arrays_1 :
  rep (Fields (Some 1%positive) 3 3) (store two_arrays) [1; 2; 3].
Proof.
  unfold rep. simpl. pose proof SIZE_MAX_pos. split_and!; try lia. reflexivity.
Qed.

Lemma rep_two_arrays_2 :
  rep (Fields (Some 2%positive) 3 3) (store two_arrays) [1; 2; 4].
Proof.
  unfold rep. simpl. pose proof SIZE_MAX_pos. split_and!; try lia. reflexivity.
Qed.



(** Destroying object 1 of the two containers. *)
Lemma destructor_releases_storage_witness :
  world_ok two_arrays ∧
  ∃ w',
    delete_object 1%positive two_arrays = Ok tt w' ∧ world_ok w' ∧
    objs w' !! 1%positive = None ∧ store w' !! 1%positive = None ∧
    holds w' 2%positive [1; 2; 4].
Proof.
  split; [apply world_ok_two_arrays|].
  destruct (destructor_releases_storage two_arrays 1%positive
              (Fields (Some 1%positive) 3 3) [1; 2; 3]
              world_ok_two_arrays eq_refl rep_two_arrays_1)
    as (w' & Hrun & Hok & Hgone & Hfreed & _ & Hothers).
  exists w'. split; [exact Hrun|]. split; [exact Hok|]. split; [exact Hgone|].
  split; [by apply Hfreed|]. apply Hothers; [done|apply holds_two_arrays_2].
Defined.

Lemma Z_ne_sym (x y : Z) : T_ne y x = T_ne x y.
Proof. simpl. by rewrite Z.eqb_sym. Qed.

Lemma Z_cmp_antisym (x y : Z) : T_cmp y x = CompOpp (T_cmp x y).
Proof. simpl. apply Z.compare_antisym. Qed.

Lemma Z_ne_cmp_agree (x y : Z) : T_ne x y = false ↔ T_cmp x y = Eq.
Proof. simpl. rewrite negb_false_iff, Z.eqb_eq, Z.compare_eq_iff. done. Qed.

Lemma Z_ne_irrefl (x : Z) : T_ne x x = false.
Proof. simpl. by rewrite Z.eqb_refl. Qed.

Lemma Z_cmp_refl (x : Z) : T_cmp x x = Eq.
Proof. simpl. apply Z.compare_refl. Qed.

(** [{1, 2, 3}] and [{1, 2, 4}] compared both ways. *)
Lemma comparisons_exchange_operands_witness :
  holds two_arrays 1%positive [1; 2; 3] ∧ holds two_arrays 2%positive [1; 2; 4] ∧
  three_way 1%positive 2%positive two_arrays = Ok Lt two_arrays ∧
  three_way 2%positive 1%positive two_arrays = Ok Gt two_arrays.
Proof.
  split; [apply holds_two_arrays_1|]. split; [apply holds_two_arrays_2|].
  destruct (comparisons_exchange_operands two_arrays 1%positive 2%positive
              [1; 2; 3] [1; 2; 4] holds_two_arrays_1 holds_two_arrays_2
              Z_ne_sym Z_cmp_antisym)
    as (eq & cmp & _ & _ & Hab & Hba).
  assert (cmp = Lt) as -> by (vm_compute in Hab; congruence).
  split; [exact Hab|exact Hba].
Defined.

(** [{1, 2, 3}] and [{1, 2, 4}] are neither [==] nor equivalent. *)
Lemma equal_agrees_with_three_way_witness :
  holds two_arrays 1%positive [1; 2; 3] ∧ holds two_arrays 2%positive [1; 2; 4] ∧
  ∃ eq cmp,
    equal 1%positive 2%positive two_arrays = Ok eq two_arrays ∧
    three_way 1%positive 2%positive two_arrays = Ok cmp two_arrays ∧
    (eq = true ↔ cmp = Eq).
Proof.
  split; [apply holds_two_arrays_1|]. split; [apply holds_two_arrays_2|].
  apply (equal_agrees_with_three_way two_arrays 1%positive 2%positive
           [1; 2; 3] [1; 2; 4] holds_two_arrays_1 holds_two_arrays_2 Z_ne_cmp_agree).
Defined.


(** * The container with allocation in bytes and arguments by reference *)

(** ** Allocation: granted or refused *)

Section ExactAllocation.
Context {T : Type} `{!Element T, !Allocation T}.
Implicit Types (c : DynamicArray) (h : gmap positive (list (option T)))
  (xs ys vs : list T).

Lemma representable_range n : representable n → 0 ≤ n ≤ SIZE_MAX.
Proof. intros [? ?]. split; [done|]. nia. Qed.

Lemma representable_0 : representable 0.
Proof. split; [done|]. pose proof SIZE_MAX_pos. lia. Qed.

Lemma representable_le n m : representable n → 0 ≤ m ≤ n → representable m.
Proof. intros [? ?] ?. split; [lia|nia]. Qed.

Lemma granted_0 h : granted h 0 = true.
Proof. unfold granted. by rewrite bool_decide_eq_true_2. Qed.

Lemma requested_fit (cap minCapacity : Z) : minCapacity ≤ cap → requested cap minCapacity = 0.
Proof. intros ?. unfold requested. by rewrite bool_decide_eq_true_2. Qed.

Lemma granted_fit h (cap minCapacity : Z) :
  minCapacity ≤ cap → granted h (requested cap minCapacity) = true.
Proof. intros ?. rewrite requested_fit by done. apply granted_0. Qed.

Lemma allocate_granted c h n :
  representable n → granted h n = true →
  Exact.allocate n (St c h) = allocate n (St c h).
Proof.
  intros [? ?] Hg. unfold Exact.allocate, allocate, Exact.heap_allocate, heap_allocate.
  cbn [mem self]. unfold granted in Hg. case_bool_decide; [done|]. simpl in Hg.
  rewrite wrap_small by lia. rewrite Hg. by rewrite Z.div_mul by lia.
Qed.

Lemma allocate_refused c h n :
  representable n → granted h n = false →
  Exact.allocate n (St c h) = Throw bad_alloc (St c h).
Proof.
  intros [? ?] Hg. unfold Exact.allocate, Exact.heap_allocate.
  cbn [mem self]. unfold granted in Hg. case_bool_decide; [done|]. simpl in Hg.
  rewrite wrap_small by lia. by rewrite Hg.
Qed.

Lemma reallocate_granted c h n :
  representable n → granted h n = true →
  Exact.reallocate n (St c h) = reallocate n (St c h).
Proof.
  intros ? ?. unfold Exact.reallocate, reallocate.
  cbv beta iota zeta delta [mbind M_mbind M_bind].
  by rewrite allocate_granted.
Qed.

Lemma reallocate_refused c h n :
  representable n → granted h n = false →
  Exact.reallocate n (St c h) = Throw bad_alloc (St c h).
Proof.
  intros ? ?. unfold Exact.reallocate.
  cbv beta iota zeta delta [mbind M_mbind M_bind].
  by rewrite allocate_refused.
Qed.

(** What [ensureCapacity] computes, without the wrap-around. *)
Lemma new_capacity_grown (cap minCapacity : Z) :
  0 ≤ cap ≤ SIZE_MAX → cap < minCapacity ≤ SIZE_MAX →
  (let newCapacity := wrap (cap + cap / 2) in
   let newCapacity :=
     if bool_decide (cap > SIZE_MAX - cap / 2) then SIZE_MAX else newCapacity in
   if bool_decide (newCapacity < minCapacity) then minCapacity else newCapacity)
  = requested cap minCapacity.
Proof.
  intros ? ?. unfold requested, grown.
  rewrite !(bool_decide_eq_false_2 (minCapacity ≤ cap)) by lia.
  assert (0 ≤ cap / 2 ≤ cap)
    by (split; [apply Z.div_pos|apply Z.div_le_upper_bound]; lia).
  cbv zeta. destruct (decide (cap > SIZE_MAX - cap / 2)).
  - rewrite (bool_decide_eq_true_2 (cap > _)) by done. case_bool_decide; lia.
  - rewrite (bool_decide_eq_false_2 (cap > _)) by done. rewrite wrap_small by lia.
    case_bool_decide; lia.
Qed.

Lemma ensureCapacity_granted c h xs minCapacity :
  rep c h xs → minCapacity ≤ SIZE_MAX →
  representable (requested (m_capacity c) minCapacity) →
  granted h (requested (m_capacity c) minCapacity) = true →
  Exact.ensureCapacity minCapacity (St c h) = ensureCapacity minCapacity (St c h).
Proof.
  intros Hrep ? Hr Hg. pose proof Hrep as (Hs & ? & ? & _).
  unfold Exact.ensureCapacity, ensureCapacity. run. case_bool_decide; [done|].
  rewrite new_capacity_grown by lia. by apply reallocate_granted.
Qed.

Lemma ensureCapacity_refused c h xs minCapacity :
  rep c h xs → minCapacity ≤ SIZE_MAX →
  representable (requested (m_capacity c) minCapacity) →
  granted h (requested (m_capacity c) minCapacity) = false →
  Exact.ensureCapacity minCapacity (St c h) = Throw bad_alloc (St c h).
Proof.
  intros Hrep ? Hr Hg. pose proof Hrep as (Hs & ? & ? & _).
  unfold Exact.ensureCapacity. run. case_bool_decide as Hle.
  { unfold requested, granted in Hg. by rewrite (bool_decide_eq_true_2 _ Hle) in Hg. }
  rewrite new_capacity_grown by lia. by apply reallocate_refused.
Qed.

End ExactAllocation.

(** ** Functions that read an argument after they grew the storage *)

Section ExactFunctions.
Context {T : Type} `{!Element T, !Allocation T}.
Implicit Types (c : DynamicArray) (h : gmap positive (list (option T)))
  (xs ys vs : list T).

(** An argument that refers outside the container's storage reads the same
    after the container changed. *)
Lemma read_framed c h c' h' arg x :
  refers_to c h arg x → frame c h c' h' →
  Exact.read arg (St c' h') = Ok x (St c' h').
Proof.
  destruct arg as [y|r]; simpl.
  - by intros -> _.
  - intros [Hr Hfor] Hfr. unfold load, deref, heap_load in *. simpl.
    destruct (ref_block r) as [q|]; [|done]. simpl in *.
    destruct (h !! q) as [blk|] eqn:Hq; [|done].
    destruct (Hfr q blk Hq (Hfor q eq_refl)) as [-> _]. simpl in *.
    by rewrite Hr.
Qed.

Lemma refers_to_framed c h c' h' arg x :
  refers_to c h arg x → frame c h c' h' → refers_to c' h' arg x.
Proof.
  destruct arg as [y|r]; simpl; [done|].
  intros [Hr Hfor] Hfr. unfold deref, heap_load in *.
  destruct (ref_block r) as [q|]; [|done]. simpl in *.
  destruct (h !! q) as [blk|] eqn:Hq; [|done].
  destruct (Hfr q blk Hq (Hfor q eq_refl)) as [-> Hne]. simpl in *.
  split; [done|]. by intros ? [= <-].
Qed.

Lemma Reserve_exact_run c h n :
  representable n →
  Exact.Reserve n (St c h)
  = if bool_decide (n > m_capacity c)
    then (if granted h n then Reserve n (St c h) else Throw bad_alloc (St c h))
    else Ok tt (St c h).
Proof.
  intros Hr. unfold Exact.Reserve, Reserve. run. case_bool_decide; [|done].
  destruct (granted h n) eqn:Hg.
  - by apply reallocate_granted.
  - by apply reallocate_refused.
Qed.

Lemma Emplace_exact_run c h xs arg x :
  rep c h xs → m_size c < SIZE_MAX → refers_to c h arg x →
  representable (requested (m_capacity c) (m_size c + 1)) →
  Exact.Emplace arg (St c h)
  = if granted h (requested (m_capacity c) (m_size c + 1))
    then Emplace x (St c h) else Throw bad_alloc (St c h).
Proof.
  intros Hrep ? Harg Hr. pose proof (rep_size_range _ _ _ Hrep).
  unfold Exact.Emplace, Emplace. run. rewrite wrap_small by lia.
  destruct (granted h _) eqn:Hg.
  - rewrite (ensureCapacity_granted c h xs) by (done || lia).
    destruct (wp_ok_inv _ _ _ (ensureCapacity_spec c h xs (m_size c + 1) no_throw
                                 Hrep ltac:(lia)))
      as ([] & [c1 h1] & -> & Hrep1 & Hfr & _). run.
    by rewrite (read_framed c h c1 h1 arg x).
  - by rewrite (ensureCapacity_refused c h xs) by (done || lia).
Qed.

Lemma Add_exact_run c h xs arg x :
  rep c h xs → m_size c < SIZE_MAX → refers_to c h arg x →
  representable (requested (m_capacity c) (m_size c + 1)) →
  Exact.Add arg (St c h)
  = if granted h (requested (m_capacity c) (m_size c + 1))
    then Add x (St c h) else Throw bad_alloc (St c h).
Proof.
  intros Hrep ? Harg Hr. unfold Exact.Add, Add. run.
  rewrite (Emplace_exact_run c h xs arg x) by done.
  by destruct (granted h _).
Qed.

Lemma EmplaceAt_exact_run c h xs (index : Z) arg x :
  rep c h xs → m_size c < SIZE_MAX → 0 ≤ index → refers_to c h arg x →
  representable (requested (m_capacity c) (m_size c + 1)) →
  Exact.EmplaceAt index arg (St c h)
  = if bool_decide (m_size c < index) || granted h (requested (m_capacity c) (m_size c + 1))
    then EmplaceAt index x (St c h) else Throw bad_alloc (St c h).
Proof.
  intros Hrep ? ? Harg Hr. pose proof Hrep as (Hs & ? & ? & _).
  unfold Exact.EmplaceAt, EmplaceAt. run. rewrite (checkRange_spec c h xs) by done.
  case_bool_decide; run.
  { by rewrite bool_decide_eq_true_2 by lia. }
  rewrite bool_decide_eq_false_2 by lia. simpl. rewrite wrap_small by lia.
  destruct (granted h _) eqn:Hg.
  - rewrite (ensureCapacity_granted c h xs) by (done || lia).
    destruct (wp_ok_inv _ _ _ (ensureCapacity_spec c h xs (m_size c + 1) no_throw
                                 Hrep ltac:(lia)))
      as ([] & [c1 h1] & -> & Hrep1 & Hfr & Hcap & Hge). simpl in *.
    pose proof Hrep1 as (Hs1 & ? & ? & _).
    destruct (open_gap c1 h1 xs (Z.to_nat index) 1 Hrep1)
      as (a & blk & Hd & Hshift & Hlen & Hfill); [lia..|].
    rewrite Z2Nat.id in Hshift by lia. change (Z.of_nat 1) with 1 in Hshift.
    run. rewrite Hshift. run.
    rewrite (read_framed c h c1 (<[a := blk]> h1) arg x); [done|done|].
    eapply frame_trans; [done|]. destruct c1. simpl in *. subst.
    by apply frame_own_block.
  - by rewrite (ensureCapacity_refused c h xs) by (done || lia).
Qed.

Lemma Insert_exact_run c h xs (index : Z) arg x :
  rep c h xs → m_size c < SIZE_MAX → 0 ≤ index → refers_to c h arg x →
  representable (requested (m_capacity c) (m_size c + 1)) →
  Exact.Insert index arg (St c h)
  = if bool_decide (m_size c < index) || granted h (requested (m_capacity c) (m_size c + 1))
    then Insert index x (St c h) else Throw bad_alloc (St c h).
Proof.
  intros Hrep ? ? Harg Hr. unfold Exact.Insert, Insert. run.
  rewrite (EmplaceAt_exact_run c h xs index arg x) by done.
  by destruct (_ || _).
Qed.

End ExactFunctions.

(** ** Ranges, resizing, shrinking and assignment *)

Section ExactRanges.
Context {T : Type} `{!Element T, !Allocation T}.
Implicit Types (c : DynamicArray) (h : gmap positive (list (option T)))
  (xs ys vs : list T).

Lemma AddRange_exact_run c h xs ilist vs :
  rep c h xs → ilist_holds c h ilist vs →
  m_size c + Z.of_nat (length vs) ≤ SIZE_MAX →
  representable (requested (m_capacity c) (m_size c + Z.of_nat (length vs))) →
  Exact.AddRange ilist (St c h)
  = if granted h (requested (m_capacity c) (m_size c + Z.of_nat (length vs)))
    then AddRange ilist (St c h) else Throw bad_alloc (St c h).
Proof.
  intros Hrep (Hn & _) ? Hr. pose proof (rep_size_range _ _ _ Hrep).
  pose proof Hrep as (_ & ? & _).
  unfold Exact.AddRange, AddRange. rewrite Hn. case_bool_decide as Hz; run.
  { by rewrite granted_fit by lia. }
  rewrite wrap_small by lia.
  destruct (granted h _) eqn:Hg.
  - by rewrite (ensureCapacity_granted c h xs) by (done || lia).
  - by rewrite (ensureCapacity_refused c h xs) by (done || lia).
Qed.

Lemma InsertRange_exact_run c h xs (index : Z) ilist vs :
  rep c h xs → ilist_holds c h ilist vs →
  m_size c + Z.of_nat (length vs) ≤ SIZE_MAX → m_size c < SIZE_MAX → 0 ≤ index →
  representable (requested (m_capacity c) (m_size c + Z.of_nat (length vs))) →
  Exact.InsertRange index ilist (St c h)
  = if bool_decide (m_size c < index)
       || granted h (requested (m_capacity c) (m_size c + Z.of_nat (length vs)))
    then InsertRange index ilist (St c h) else Throw bad_alloc (St c h).
Proof.
  intros Hrep (Hn & _) ? ? ? Hr. pose proof (rep_size_range _ _ _ Hrep).
  pose proof Hrep as (_ & ? & _).
  unfold Exact.InsertRange, InsertRange. run. rewrite (checkRange_spec c h xs) by done.
  rewrite Hn. case_bool_decide; run.
  { by rewrite (bool_decide_eq_true_2 (m_size c < index)) by lia. }
  rewrite (bool_decide_eq_false_2 (m_size c < index)) by lia. simpl.
  case_bool_decide as Hz; run.
  { by rewrite granted_fit by lia. }
  rewrite wrap_small by lia.
  destruct (granted h _) eqn:Hg.
  - by rewrite (ensureCapacity_granted c h xs) by (done || lia).
  - by rewrite (ensureCapacity_refused c h xs) by (done || lia).
Qed.

Lemma Resize_with_exact_run c h xs (newSize : Z) arg x :
  rep c h xs → 0 ≤ newSize ≤ SIZE_MAX → refers_to c h arg x →
  representable (requested (m_capacity c) newSize) →
  Exact.Resize_with newSize arg (St c h)
  = if granted h (requested (m_capacity c) newSize)
    then Resize_with newSize x (St c h) else Throw bad_alloc (St c h).
Proof.
  intros Hrep ? Harg Hr. pose proof Hrep as (Hs & ? & ? & _).
  unfold Exact.Resize_with, Resize_with. run.
  assert (newSize ≤ m_size c → granted h (requested (m_capacity c) newSize) = true) as Hfit.
  { intros ?. apply granted_fit. lia. }
  case_bool_decide; run; [by rewrite Hfit by lia|].
  case_bool_decide; run; [|by rewrite Hfit by lia].
  destruct (granted h _) eqn:Hg.
  - rewrite (ensureCapacity_granted c h xs) by (done || lia).
    destruct (wp_ok_inv _ _ _ (ensureCapacity_spec c h xs newSize no_throw
                                 Hrep ltac:(lia)))
      as ([] & [c1 h1] & -> & Hrep1 & Hfr & _). run.
    by rewrite (read_framed c h c1 h1 arg x).
  - by rewrite (ensureCapacity_refused c h xs) by (done || lia).
Qed.

Lemma Shrink_exact_run c h xs :
  rep c h xs → representable (m_size c) →
  Exact.Shrink (St c h)
  = if bool_decide (m_size c = m_capacity c) || granted h (m_size c)
    then Shrink (St c h) else Throw bad_alloc (St c h).
Proof.
  intros Hrep Hr. unfold Exact.Shrink, Shrink. run.
  case_bool_decide; run; [done|]. simpl.
  case_bool_decide as Hz; run.
  { by rewrite Hz, granted_0. }
  destruct (granted h _) eqn:Hg.
  - by apply reallocate_granted.
  - by apply reallocate_refused.
Qed.

Lemma assign_exact_run c h src (count : Z) :
  representable count →
  Exact.assign src count (St c h)
  = if bool_decide (count ≤ m_capacity c) || granted h count
    then assign src count (St c h) else Throw bad_alloc (St c h).
Proof.
  intros Hr. unfold Exact.assign, assign. run.
  case_bool_decide; run; [done|]. simpl.
  destruct (granted h _) eqn:Hg.
  - by rewrite allocate_granted.
  - by rewrite allocate_refused.
Qed.

Lemma ctor_fill_exact_run h (count : Z) arg x :
  representable count → refers_to empty_array h arg x →
  Exact.ctor_fill count arg (St empty_array h)
  = if granted h count
    then ctor_fill count x (St empty_array h) else Throw bad_alloc (St empty_array h).
Proof.
  intros Hr Harg. unfold Exact.ctor_fill, ctor_fill.
  case_bool_decide; run.
  2:{ assert (count = 0) as -> by (destruct Hr; lia). by rewrite granted_0. }
  destruct (granted h _) eqn:Hg.
  - rewrite allocate_granted by done. unfold allocate. cbn [mem self].
    destruct (heap_allocate h count) as [p h1] eqn:Hal.
    apply heap_allocate_fresh in Hal. destruct p as [a'|]; [|lia].
    destruct Hal as (_ & Hfresh & ->). run.
    rewrite (read_framed empty_array h _ _ arg x); [done|done|].
    by apply (frame_drop_block empty_array).
  - by rewrite allocate_refused.
Qed.

End ExactRanges.

(** ** Contracts *)

Section ExactContracts.
Context {T : Type} `{!Element T, !Allocation T}.
Implicit Types (c : DynamicArray) (h : gmap positive (list (option T)))
  (xs ys vs : list T).

(** C2, as amended: [Reserve(n)], for [n] whose byte count [n * sizeof(T)] is
    a [size_t], changes nothing when [n <= Capacity()]; when [n > Capacity()]
    it throws [std::bad_alloc] and changes nothing if the memory is not
    granted, and else returns with the elements kept and a capacity of
    exactly [n].  The rule [max(n, capacity + capacity/2)], clamped to the
    largest [size_t], is the one of [ensureCapacity], which the append,
    insert and resize paths use. *)
Theorem Reserve_exact c h xs n :
  rep c h xs → representable n →
  (n ≤ m_capacity c → Exact.Reserve n (St c h) = Ok tt (St c h)) ∧
  (m_capacity c < n → granted h n = false →
     Exact.Reserve n (St c h) = Throw bad_alloc (St c h)) ∧
  (m_capacity c < n → granted h n = true →
     ∃ c' h',
       Exact.Reserve n (St c h) = Ok tt (St c' h') ∧
       Reserve n (St c h) = Ok tt (St c' h') ∧
       rep c' h' xs ∧ m_capacity c' = n) ∧
  (representable (requested (m_capacity c) n) →
   granted h (requested (m_capacity c) n) = true →
     ∃ c' h',
       Exact.ensureCapacity n (St c h) = Ok tt (St c' h') ∧ rep c' h' xs ∧
       m_capacity c' =
         if bool_decide (n ≤ m_capacity c) then m_capacity c
         else Z.max n (Z.min (m_capacity c + m_capacity c / 2) SIZE_MAX)).
Proof.
  intros Hrep Hr. pose proof (representable_range _ Hr).
  destruct (Reserve_when_granted c h xs n Hrep ltac:(done))
    as [(c1 & h1 & Hres & Hrep1 & _ & Hcap1 & _) (c2 & h2 & Hens & Hrep2 & Hcap2)].
  rewrite Reserve_exact_run by done. split_and!.
  - intros ?. by rewrite bool_decide_eq_false_2 by lia.
  - intros ? ->. by rewrite bool_decide_eq_true_2 by lia.
  - intros ? ->. rewrite bool_decide_eq_true_2 by lia.
    exists c1, h1. split_and!; [done..|]. by apply Hcap1.
  - intros Hr' Hg. rewrite (ensureCapacity_granted c h xs) by (done || lia). eauto.
Qed.

(** X3: [EmplaceAt(index, arg)] and [Insert(index, arg)], for an argument
    that refers to an object of value [x] outside the container's own
    storage: both throw [out_of_range] and change nothing when
    [index > size]; else both throw [std::bad_alloc] and change nothing when
    the container must grow and the memory is not granted; else both leave
    the same container, with [x] before the element that was at [index] and
    the size one larger, and [EmplaceAt] returns a reference to the new
    element at [index]. *)
Theorem EmplaceAt_contract c h xs (index : Z) arg x :
  rep c h xs → m_size c < SIZE_MAX → 0 ≤ index → refers_to c h arg x →
  representable (requested (m_capacity c) (m_size c + 1)) →
  (m_size c < index →
     Exact.EmplaceAt index arg (St c h) = Throw out_of_range (St c h) ∧
     Exact.Insert index arg (St c h) = Throw out_of_range (St c h)) ∧
  (index ≤ m_size c → granted h (requested (m_capacity c) (m_size c + 1)) = false →
     Exact.EmplaceAt index arg (St c h) = Throw bad_alloc (St c h) ∧
     Exact.Insert index arg (St c h) = Throw bad_alloc (St c h)) ∧
  (index ≤ m_size c → granted h (requested (m_capacity c) (m_size c + 1)) = true →
     ∃ c' h',
       Exact.EmplaceAt index arg (St c h) = Ok (Ref (m_data c') index) (St c' h') ∧
       Exact.Insert index arg (St c h) = Ok tt (St c' h') ∧
       rep c' h' (take (Z.to_nat index) xs ++ x :: drop (Z.to_nat index) xs) ∧
       m_size c' = m_size c + 1 ∧
       deref h' (Ref (m_data c') index) = Some x).
Proof.
  intros Hrep ? ? Harg Hr.
  rewrite (EmplaceAt_exact_run c h xs index arg x),
          (Insert_exact_run c h xs index arg x) by done.
  destruct (EmplaceAt_when_granted c h xs index x Hrep ltac:(done) ltac:(done))
    as [Hout Hin].
  split_and!.
  - intros ?. rewrite (bool_decide_eq_true_2 (m_size c < index)) by done. by apply Hout.
  - intros ? ->. by rewrite (bool_decide_eq_false_2 (m_size c < index)) by lia.
  - intros ? ->. rewrite orb_true_r. by apply Hin.
Qed.

(** X5: [AddRange(list)]: when the container must grow and the memory is
    not granted it throws [std::bad_alloc] and changes nothing; else it
    appends the elements of the list in order, the capacity becomes what
    [ensureCapacity] settles on for the new size, and an empty list leaves
    the state as it is. *)
Theorem AddRange_contract c h xs ilist vs :
  rep c h xs → ilist_holds c h ilist vs →
  m_size c + Z.of_nat (length vs) ≤ SIZE_MAX →
  representable (requested (m_capacity c) (m_size c + Z.of_nat (length vs))) →
  (granted h (requested (m_capacity c) (m_size c + Z.of_nat (length vs))) = false →
     Exact.AddRange ilist (St c h) = Throw bad_alloc (St c h)) ∧
  (granted h (requested (m_capacity c) (m_size c + Z.of_nat (length vs))) = true →
     ∃ c' h',
       Exact.AddRange ilist (St c h) = Ok tt (St c' h') ∧
       rep c' h' (xs ++ vs) ∧
       m_size c' = m_size c + Z.of_nat (length vs) ∧
       m_capacity c' = grown (m_capacity c) (m_size c + Z.of_nat (length vs)) ∧
       (vs = [] → c' = c ∧ h' = h)).
Proof.
  intros Hrep Hil ? Hr. rewrite (AddRange_exact_run c h xs ilist vs) by done.
  split; intros ->; [done|].
  by apply (AddRange_when_granted c h xs ilist vs).
Qed.

(** X7: [Resize(newSize, value)], for a [value] that refers to an object of
    value [x] outside the container's own storage: when the container must
    grow and the memory is not granted it throws [std::bad_alloc] and
    changes nothing; else it keeps the first [newSize] elements and pads with
    copies of [x] up to [newSize]; the capacity only grows, as
    [ensureCapacity] decides; the storage stays where it is whenever
    [newSize] fits the capacity, and nothing changes when [newSize] is the
    size. *)
Theorem Resize_contract c h xs (newSize : Z) arg x :
  rep c h xs → 0 ≤ newSize ≤ SIZE_MAX → refers_to c h arg x →
  representable (requested (m_capacity c) newSize) →
  (granted h (requested (m_capacity c) newSize) = false →
     Exact.Resize_with newSize arg (St c h) = Throw bad_alloc (St c h)) ∧
  (granted h (requested (m_capacity c) newSize) = true →
     ∃ c' h',
       Exact.Resize_with newSize arg (St c h) = Ok tt (St c' h') ∧
       rep c' h' (take (Z.to_nat newSize) xs ++ replicate (Z.to_nat newSize - length xs) x) ∧
       m_size c' = newSize ∧
       m_capacity c' = grown (m_capacity c) newSize ∧
       (newSize ≤ m_capacity c → m_data c' = m_data c) ∧
       (newSize = m_size c → c' = c ∧ h' = h)).
Proof.
  intros Hrep ? Harg Hr. rewrite (Resize_with_exact_run c h xs newSize arg x) by done.
  split; intros ->; [done|].
  by apply (Resize_when_granted c h xs newSize x).
Qed.

Lemma Add_each_within vs :
  ∀ c h xs,
    rep c h xs → Z.of_nat (length xs + length vs) ≤ m_capacity c →
    ∃ h',
      Exact.Add_each vs (St c h)
      = Ok tt (St (Fields (m_data c) (m_size c + Z.of_nat (length vs)) (m_capacity c)) h') ∧
      rep (Fields (m_data c) (m_size c + Z.of_nat (length vs)) (m_capacity c)) h' (xs ++ vs).
Proof.
  induction vs as [|v vs IH]; intros c h xs Hrep Hcap; simpl in *.
  - exists h. rewrite Z.add_0_r, app_nil_r. by destruct c.
  - pose proof (rep_size _ _ _ Hrep) as Hs. pose proof Hrep as (_ & _ & ? & _).
    destruct (Emplace_in_place c h xs v Hrep ltac:(lia)) as (h1 & Hrun & Hrep1).
    run. rewrite (Add_exact_run c h xs (outside v) v); [|done|lia|done|].
    2:{ rewrite requested_fit by lia. apply representable_0. }
    rewrite granted_fit by lia. unfold Add. run. rewrite Hrun. run.
    destruct (IH _ h1 (xs ++ [v]) Hrep1) as (h2 & -> & Hrep2).
    { rewrite length_app. simpl in *. lia. }
    simpl in *. exists h2.
    replace (m_size c + Z.of_nat (S (length vs)))
      with (m_size c + 1 + Z.of_nat (length vs)) by lia.
    by rewrite <- app_assoc in Hrep2.
Qed.

(** X15: [Reserve(n)], for [n] whose byte count is a [size_t], followed by
    calls of [Add] up to a size of [n]: if [Reserve] must allocate and the
    memory is not granted it throws [std::bad_alloc] and changes nothing;
    else no call of [Add] reallocates: storage and capacity stay as
    [Reserve] left them, the values are appended in order, and references to
    the elements stay valid. *)
Theorem Reserve_then_Add_each c h xs vs (n : Z) :
  rep c h xs → m_size c + Z.of_nat (length vs) ≤ n → representable n →
  (m_capacity c < n → granted h n = false →
     Exact.Reserve n (St c h) = Throw bad_alloc (St c h)) ∧
  (n ≤ m_capacity c ∨ granted h n = true →
     ∃ c1 h1 c2 h2,
       Exact.Reserve n (St c h) = Ok tt (St c1 h1) ∧
       Exact.Add_each vs (St c1 h1) = Ok tt (St c2 h2) ∧
       rep c2 h2 (xs ++ vs) ∧
       m_data c2 = m_data c1 ∧ m_capacity c2 = m_capacity c1 ∧
       ∀ (i : nat) v, xs !! i = Some v →
         deref h1 (Ref (m_data c1) (Z.of_nat i)) = Some v ∧
         deref h2 (Ref (m_data c1) (Z.of_nat i)) = Some v).
Proof.
  intros Hrep ? Hr. pose proof (rep_size _ _ _ Hrep) as Hs.
  pose proof (representable_range _ Hr).
  rewrite Reserve_exact_run by done. split.
  - intros ? ->. by rewrite bool_decide_eq_true_2 by lia.
  - intros Hg.
    destruct (wp_ok_inv _ _ _ (Reserve_spec c h xs n Hrep ltac:(lia)))
      as (u & [c1 h1] & Hrun & Hrep1 & _ & Hcap & Hsame). destruct u. simpl in *.
    assert ((if bool_decide (n > m_capacity c)
             then if granted h n then Reserve n (St c h) else Throw bad_alloc (St c h)
             else Ok tt (St c h)) = Ok tt (St c1 h1)) as ->.
    { case_bool_decide.
      - destruct Hg as [?| ->]; [lia|done].
      - by rewrite Hsame by lia. }
    destruct (Add_each_within vs c1 h1 xs Hrep1) as (h2 & Hrun2 & Hrep2); [lia|].
    eexists c1, h1, _, h2. split_and!; [done..|].
    intros i v Hi. split.
    + by apply (deref_element _ _ _ i v Hrep1).
    + apply (deref_element _ _ _ i v Hrep2). by apply lookup_app_l_Some.
Qed.

(** X20: [DynamicArray(count, value)], for [count] whose byte count is a
    [size_t]: when the memory is not granted it throws [std::bad_alloc] and
    changes nothing; else the container holds [count] copies of the value
    with capacity [count], and [DynamicArray(count)] as many copies of
    [T{}]; a count of 0 allocates nothing, and no existing block is
    touched. *)
Theorem ctor_fill_contract h (count : Z) arg x :
  representable count → refers_to empty_array h arg x →
  (granted h count = false →
     Exact.ctor_fill count arg (St empty_array h) = Throw bad_alloc (St empty_array h) ∧
     Exact.ctor_sized count (St empty_array h) = Throw bad_alloc (St empty_array h)) ∧
  (granted h count = true →
     ∃ c' h',
       Exact.ctor_fill count arg (St empty_array h) = Ok tt (St c' h') ∧
       rep c' h' (replicate (Z.to_nat count) x) ∧
       m_size c' = count ∧ m_capacity c' = count ∧
       (count = 0 → c' = empty_array ∧ h' = h) ∧
       (∀ q blk, h !! q = Some blk → h' !! q = Some blk) ∧
       ∃ h'', Exact.ctor_sized count (St empty_array h) = Ok tt (St c' h'') ∧
              rep c' h'' (replicate (Z.to_nat count) T_default)).
Proof.
  intros Hr Harg. pose proof (representable_range _ Hr).
  unfold Exact.ctor_sized.
  rewrite (ctor_fill_exact_run h count arg x),
          (ctor_fill_exact_run h count (outside T_default) T_default) by done.
  split; intros ->; [done|].
  by apply (ctor_fill_when_granted h count x).
Qed.

End ExactContracts.

(** ** Constructors that throw *)

Section ExactObjects.
Context {T : Type} `{!Element T, !Allocation T}.
Implicit Types (c : DynamicArray) (h : gmap positive (list (option T)))
  (xs ys vs : list T) (w : @world T) (this other : positive).

(** A constructor body that either runs as its counterpart with the memory
    granted or throws [std::bad_alloc] before it changed anything: in the
    second case the destructor runs and the world is as before. *)
Lemma or_destroy_run w this (body body0 : M (@state T) unit) (g : bool) :
  objs w !! this = None →
  body (St empty_array (store w))
  = (if g then body0 (St empty_array (store w))
     else Throw bad_alloc (St empty_array (store w))) →
  (∀ e s', body0 (St empty_array (store w)) ≠ Throw e s') →
  Exact.or_destroy this (invoke this body)
    (World (<[this := empty_array]> (objs w)) (store w))
  = if g then invoke this body0 (World (<[this := empty_array]> (objs w)) (store w))
    else Throw bad_alloc w.
Proof.
  intros Hfree Hbody Hno. unfold Exact.or_destroy, invoke. cbn [objs store].
  rewrite lookup_insert_eq, Hbody. destruct g.
  - destruct (body0 (St empty_array (store w))) as [[] s'|e s'|] eqn:Hb; [done| |done].
    by destruct (Hno e s').
  - cbn [self mem]. rewrite insert_insert_eq. wrun.
    rewrite (delete_object_ok _ this empty_array []);
      [|simpl; apply lookup_insert_eq|apply rep_empty].
    cbn [objs store]. rewrite delete_insert_id by done.
    unfold throw. by destruct w.
Qed.

Lemma wp_never_throws {S A} (m : M S A) s (Q : A → S → Prop) :
  wp m s Q (λ _ _, False) → ∀ e s', m s ≠ Throw e s'.
Proof. unfold wp. intros Hwp e s' Heq. by rewrite Heq in Hwp. Qed.

Lemma new_fill_exact_run w this (count : Z) arg x :
  objs w !! this = None → representable count →
  refers_to empty_array (store w) arg x →
  Exact.new_fill this count arg w
  = if granted (store w) count then new_fill this count x w else Throw bad_alloc w.
Proof.
  intros Hfree Hr Harg. pose proof (representable_range _ Hr).
  unfold Exact.new_fill, new_fill. wrun. rewrite create_ok by done. wrun.
  apply or_destroy_run; [done|by apply ctor_fill_exact_run|].
  eapply wp_never_throws. by apply (ctor_fill_spec (store w) count x).
Qed.

Lemma new_sized_exact_run w this (count : Z) :
  objs w !! this = None → representable count →
  Exact.new_sized this count w
  = if granted (store w) count then new_sized this count w else Throw bad_alloc w.
Proof.
  intros Hfree Hr. by apply (new_fill_exact_run w this count (outside T_default) T_default).
Qed.

Lemma new_ilist_exact_run w this init vs :
  objs w !! this = None → ilist_holds empty_array (store w) init vs →
  representable (Z.of_nat (length vs)) →
  Exact.new_ilist this init w
  = if granted (store w) (Z.of_nat (length vs))
    then new_ilist this init w else Throw bad_alloc w.
Proof.
  intros Hfree (Hsz & ? & ? & ?) Hr. destruct init as [src k]. simpl in *. subst k.
  unfold Exact.new_ilist, new_ilist, Exact.ctor_ilist, ctor_ilist. cbn [il_begin il_size].
  wrun. rewrite create_ok by done. wrun.
  destruct (decide (length vs = 0%nat)) as [Hz|Hnz].
  - rewrite Hz. change (Z.of_nat 0) with 0. rewrite granted_0.
    apply (or_destroy_run w this _ _ true); [done| |].
    + rewrite assign_exact_run by apply representable_0.
      by rewrite bool_decide_eq_true_2 by (simpl; lia).
    + eapply wp_never_throws.
      apply (assign_spec empty_array (store w) [] src []); [apply rep_empty| | |simpl; lia].
      * destruct vs; [done|done].
      * done.
  - apply or_destroy_run; [done| |].
    + rewrite assign_exact_run by done.
      by rewrite bool_decide_eq_false_2 by (simpl; lia).
    + eapply wp_never_throws.
      by apply (assign_spec empty_array (store w) [] src vs); [apply rep_empty|..].
Qed.

Lemma new_copy_exact_run w this other cother ys :
  objs w !! this = None → objs w !! other = Some cother → rep cother (store w) ys →
  representable (m_size cother) →
  Exact.new_copy this other w
  = if granted (store w) (m_size cother) then new_copy this other w else Throw bad_alloc w.
Proof.
  intros Hfree Hother Hys Hr. assert (this ≠ other) by congruence.
  pose proof (rep_size _ _ _ Hys) as Hs. pose proof (rep_size_range _ _ _ Hys).
  unfold Exact.new_copy, new_copy, Exact.ctor_copy, ctor_copy.
  wrun. rewrite create_ok by done. wrun.
  erewrite field_ok by (cbn [objs]; by simplify_map_eq). wrun. cbv [id].
  assert (∀ e s', assign (m_data cother) (m_size cother) (St empty_array (store w))
                  ≠ Throw e s') as Hno.
  { eapply wp_never_throws. rewrite Hs.
    apply (assign_spec empty_array (store w) [] (m_data cother) ys);
      [apply rep_empty|by apply rep_readable|by intros ??|lia]. }
  destruct (decide (m_size cother = 0)) as [Hz|Hnz].
  - rewrite Hz in *. rewrite granted_0.
    apply (or_destroy_run w this _ _ true); [done| |done].
    rewrite assign_exact_run by apply representable_0.
    by rewrite bool_decide_eq_true_2 by (simpl; lia).
  - apply or_destroy_run; [done| |done].
    rewrite assign_exact_run by done.
    by rewrite bool_decide_eq_false_2 by (simpl; lia).
Qed.

Lemma copy_assign_exact_run w this other cthis cother :
  objs w !! this = Some cthis → objs w !! other = Some cother →
  representable (m_size cother) →
  Exact.copy_assign this other w
  = if bool_decide (this = other) || bool_decide (m_size cother ≤ m_capacity cthis)
       || granted (store w) (m_size cother)
    then copy_assign this other w else Throw bad_alloc w.
Proof.
  intros Hthis Hother Hr. unfold Exact.copy_assign, copy_assign.
  destruct (decide (this = other)) as [->|Hne].
  { rewrite bool_decide_eq_false_2 by (by intros ?).
    by rewrite (bool_decide_eq_true_2 (other = other)). }
  rewrite bool_decide_eq_true_2, (bool_decide_eq_false_2 (this = other)) by done.
  wrun. rewrite (field_ok _ _ _ _ Hother). wrun. cbv [id].
  unfold invoke. rewrite Hthis, assign_exact_run by done. simpl.
  destruct (_ || _); [done|]. simpl. rewrite insert_id by done. by destruct w.
Qed.


End ExactObjects.

(** ** What every call and every operation keeps *)

Section ExactSafety.
Context {T : Type} `{!Element T, !Allocation T}.
Implicit Types (c : DynamicArray) (h : gmap positive (list (option T)))
  (xs ys vs : list T) (w : @world T) (this other : positive).

Lemma returning_exact {A} `{!Returns A} (m m0 : M (@state T) A) (g : bool) s :
  m s = (if g then m0 s else Throw bad_alloc s) →
  returning m s = returning m0 s ∨ returning m s = Throw bad_alloc s.
Proof. intros Hm. unfold returning. run. rewrite Hm. destruct g; [by left|by right]. Qed.

(** A call of [Exact] either runs as the call with the memory granted and
    the arguments read beforehand, or throws [std::bad_alloc] before it
    changed anything. *)
Lemma perform_exact c h xs call :
  rep c h xs → Exact.in_range c h call →
  ∃ call0, in_range c h call0 ∧
    (Exact.perform call (St c h) = perform call0 (St c h) ∨
     Exact.perform call (St c h) = Throw bad_alloc (St c h)).
Proof.
  intros Hrep Hin.
  destruct call as [index| | | | |n| |arg|il|arg|index arg|index arg|index il|v|index
                   |index count|pred| |n|n arg|v|pred|v|pred|v|pred|il];
    cbn [Exact.perform Exact.in_range] in *.
  - exists (call_subscript index). split; [done|by left].
  - exists call_Data. split; [done|by left].
  - exists call_IsEmpty. split; [done|by left].
  - exists call_Size. split; [done|by left].
  - exists call_Capacity. split; [done|by left].
  - exists (call_Reserve n). split; [by apply representable_range|].
    apply (returning_exact _ _ (negb (bool_decide (n > m_capacity c)) || granted h n)).
    rewrite Reserve_exact_run by done. unfold Reserve. run.
    by case_bool_decide.
  - exists call_Shrink. split; [done|].
    eapply returning_exact. by apply (Shrink_exact_run c h xs).
  - destruct Hin as (? & [x Hx] & ?). exists (call_Add x). split; [done|].
    eapply returning_exact. by apply (Add_exact_run c h xs).
  - destruct Hin as (vs & ? & ? & ?). exists (call_AddRange il). split; [by exists vs|].
    eapply returning_exact. by apply (AddRange_exact_run c h xs il vs).
  - destruct Hin as (? & [x Hx] & ?). exists (call_Emplace x). split; [done|].
    eapply returning_exact. by apply (Emplace_exact_run c h xs).
  - destruct Hin as (? & ? & [x Hx] & ?). exists (call_EmplaceAt index x). split; [done|].
    eapply returning_exact. by apply (EmplaceAt_exact_run c h xs).
  - destruct Hin as (? & ? & [x Hx] & ?). exists (call_Insert index x). split; [done|].
    eapply returning_exact. by apply (Insert_exact_run c h xs).
  - destruct Hin as (vs & ? & ? & ? & ? & ?). exists (call_InsertRange index il).
    split; [by exists vs|].
    eapply returning_exact. by apply (InsertRange_exact_run c h xs index il vs).
  - exists (call_Remove v). split; [done|by left].
  - exists (call_RemoveAt index). split; [done|by left].
  - exists (call_RemoveRange index count). split; [done|by left].
  - exists (call_RemoveAll pred). split; [done|by left].
  - exists call_Clear. split; [done|by left].
  - destruct Hin as [? ?]. exists (call_Resize n). split; [done|].
    eapply returning_exact. by apply (Resize_with_exact_run c h xs n (outside T_default)).
  - destruct Hin as (? & [x Hx] & ?). exists (call_Resize_with n x). split; [done|].
    eapply returning_exact. by apply (Resize_with_exact_run c h xs).
  - exists (call_Contains v). split; [done|by left].
  - exists (call_ContainsIf pred). split; [done|by left].
  - exists (call_Find v). split; [done|by left].
  - exists (call_FindIf pred). split; [done|by left].
  - exists (call_FindLast v). split; [done|by left].
  - exists (call_FindLastIf pred). split; [done|by left].
  - destruct Hin as (vs & Hil & Hr). exists (call_assign_ilist il). split; [by exists vs|].
    destruct Hil as (Hsz & _). eapply returning_exact.
    unfold Exact.assign_ilist, assign_ilist. rewrite Hsz. by apply assign_exact_run.
Qed.

(** X29: every member function, called on a well-formed container with
    arguments in range (sizes and byte counts that are [size_t] values, and
    arguments by reference that refer outside the container's own storage),
    either returns, leaving the container well formed
    ([0 <= size <= capacity], storage exactly when the capacity is not 0)
    and every block that is not its own untouched, or throws [out_of_range]
    or [std::bad_alloc] and leaves everything exactly as it was. *)
Theorem member_call_returns_or_leaves_unchanged c h xs call :
  rep c h xs → Exact.in_range c h call →
  (∃ r c' h',
     Exact.perform call (St c h) = Ok r (St c' h') ∧
     (∃ xs', rep c' h' xs') ∧ size_capacity_invariant c' ∧
     ∀ q blk, h !! q = Some blk → m_data c ≠ Some q →
              h' !! q = Some blk ∧ m_data c' ≠ Some q) ∨
  Exact.perform call (St c h) = Throw out_of_range (St c h) ∨
  Exact.perform call (St c h) = Throw bad_alloc (St c h).
Proof.
  intros Hrep Hin.
  destruct (perform_exact c h xs call Hrep Hin) as (call0 & Hin0 & [->| ->]);
    [|by right; right].
  destruct (wp_inv _ _ _ _ (member_calls_preserve c h xs call0 Hrep Hin0))
    as [(r & [c' h'] & Hrun & [xs' Hrep'] & Hfr)|(e & s' & Hrun & -> & ->)];
    [left|by right; left].
  exists r, c', h'. split_and!; [done|by exists xs'|by eapply rep_invariant|done].
Qed.

(** An operation of [Exact] either runs as the operation with the memory
    granted and the arguments read beforehand, or throws [std::bad_alloc]
    leaving the world as it was. *)
Lemma run_operation_exact w op :
  world_ok w → Exact.operation_in_range w op →
  ∃ op0, operation_in_range w op0 ∧
    (Exact.run_operation op w = run_operation op0 w ∨
     Exact.run_operation op w = Throw bad_alloc w).
Proof.
  intros Hok Hin. pose proof Hok as [Hreps _].
  destruct op as [this|this count|this count arg|this init|this other|this other|this
                 |this other|this other|this call|this other|lhs rhs|lhs rhs];
    cbn [Exact.run_operation Exact.operation_in_range] in *.
  - exists (op_new_default this). split; [done|by left].
  - destruct Hin as [Hfree Hr]. exists (op_new_sized this count).
    split; [split; [done|by apply representable_range]|].
    cbn [run_operation]. rewrite new_sized_exact_run by done.
    destruct (granted _ _); [by left|by right].
  - destruct Hin as (Hfree & Hr & x & Hx). exists (op_new_fill this count x).
    split; [split; [done|by apply representable_range]|].
    cbn [run_operation]. rewrite (new_fill_exact_run w this count arg x) by done.
    destruct (granted _ _); [by left|by right].
  - destruct Hin as (Hfree & vs & Hil & Hr). exists (op_new_ilist this init).
    split; [split; [done|by exists vs]|].
    cbn [run_operation]. rewrite (new_ilist_exact_run w this init vs) by done.
    destruct (granted _ _); [by left|by right].
  - destruct Hin as (Hfree & cother & Hother & Hr). exists (op_new_copy this other).
    split; [split; [done|by exists cother]|].
    destruct (Hreps _ _ Hother) as [ys Hys].
    cbn [run_operation]. rewrite (new_copy_exact_run w this other cother ys) by done.
    destruct (granted _ _); [by left|by right].
  - exists (op_new_move this other). split; [done|by left].
  - exists (op_delete this). split; [done|by left].
  - destruct Hin as ([cthis Hthis] & cother & Hother & Hr).
    exists (op_copy_assign this other).
    split; [split; [by exists cthis|by exists cother]|].
    cbn [run_operation]. rewrite (copy_assign_exact_run w this other cthis cother) by done.
    destruct (_ || _); [by left|by right].
  - exists (op_move_assign this other). split; [done|by left].
  - destruct Hin as (c & Hthis & Hin). destruct (Hreps _ _ Hthis) as [xs Hxs].
    destruct (perform_exact c (store w) xs call Hxs Hin) as (call0 & Hin0 & Hrun).
    exists (op_call this call0). split; [by exists c|].
    cbn [run_operation]. wrun. unfold invoke. rewrite Hthis.
    destruct Hrun as [->| ->]; [by left|right].
    simpl. rewrite insert_id by done. by destruct w.
  - exists (op_Swap this other). split; [done|by left].
  - exists (op_equal lhs rhs). split; [done|by left].
  - exists (op_three_way lhs rhs). split; [done|by left].
Qed.

(** X30: every operation of the interface (constructors, destructor,
    assignments, member functions, [Swap], comparisons), applied in range to
    well-formed containers that share no storage, either returns with every
    container satisfying the invariant, no block owned by two containers and
    every container's block allocated, or throws [out_of_range] or
    [std::bad_alloc] leaving everything as it was. *)
Theorem operation_keeps_ownership w op :
  world_ok w → Exact.operation_in_range w op →
  (∃ w',
     Exact.run_operation op w = Ok tt w' ∧
     (∀ o c, objs w' !! o = Some c → size_capacity_invariant c) ∧
     (∀ o1 o2 c1 c2 q, objs w' !! o1 = Some c1 → objs w' !! o2 = Some c2 →
                       m_data c1 = Some q → m_data c2 = Some q → o1 = o2) ∧
     (∀ o c q, objs w' !! o = Some c → m_data c = Some q → is_Some (store w' !! q))) ∨
  Exact.run_operation op w = Throw out_of_range w ∨
  Exact.run_operation op w = Throw bad_alloc w.
Proof.
  intros Hok Hin.
  destruct (run_operation_exact w op Hok Hin) as (op0 & Hin0 & [->| ->]);
    [|by right; right].
  destruct (wp_inv _ _ _ _ (operations_preserve w op0 Hok Hin0))
    as [(u & w' & Hrun & Hok')|(e & s' & Hrun & -> & ->)]; [left|by right; left].
  destruct u. exists w'. split_and!; [done| | |].
  - intros o c. by apply world_ok_invariant.
  - by destruct Hok'.
  - intros o c q Ho Hq. destruct Hok' as [Hreps' _].
    destruct (Hreps' o c Ho) as (zs & _ & _ & _ & Hd). rewrite Hq in Hd.
    destruct Hd as [_ ->]. done.
Qed.

End ExactSafety.

(** ** The functions of [Exact] on concrete containers of integers *)

Lemma representable_small (n : Z) : 0 ≤ n ≤ 100 → representable n.
Proof. intros ?. pose proof SIZE_MAX_pos. split; [lia|]. simpl. lia. Qed.

(** [Reserve(2^62 + 1)] on [{1, 2, 3}] of [int]: the byte count wraps to 4,
    the block has room for one element, and moving the second element
    there is undefined. *)
Lemma Reserve_byte_count_wraps :
  Exact.Reserve (2 ^ 62 + 1) (St array123 heap123) = Undefined.
Proof. vm_compute. reflexivity. Qed.

(** [Reserve(100)] asks for 400 bytes, which are not granted. *)
Lemma Reserve_refused :
  Exact.Reserve 100 (St array123 heap123) = Throw bad_alloc (St array123 heap123).
Proof. vm_compute. reflexivity. Qed.

(** [a.Insert(0, a[1])] on [{1, 2}] with capacity 4: the argument is read
    after the elements were shifted, when [a[1]] is 1. *)
Lemma Insert_of_own_element :
  Exact.Insert 0 (element (Ref (Some 2%positive) 1)) (St array12 heap12)
  = Ok tt (St (Fields (Some 2%positive) 3 4)
              {[ 2%positive := [Some 1; Some 1; Some 2; None] ]}) ∧
  Insert 0 2 (St array12 heap12)
  = Ok tt (St (Fields (Some 2%positive) 3 4)
              {[ 2%positive := [Some 2; Some 1; Some 2; None] ]}).
Proof. split; vm_compute; reflexivity. Qed.

(** [a.Resize(5, a[0])] on the full [{1, 2, 3}]: the argument is read after
    the storage it refers to was deallocated. *)
Lemma Resize_with_own_element_dangles :
  Exact.Resize_with 5 (element (Ref (Some 2%positive) 0)) (St array123 heap123) = Undefined.
Proof. vm_compute. reflexivity. Qed.

(** [DynamicArray(100, 7)] asks for 400 bytes: it throws, and no object
    came into being. *)
Lemma new_fill_refused :
  Exact.new_fill 3%positive 100 (outside 7) two_arrays = Throw bad_alloc two_arrays.
Proof. vm_compute. reflexivity. Qed.

(** [Reserve(10)] on [{1, 2, 3}]. *)
Lemma Reserve_exact_witness :
  rep array123 heap123 [1; 2; 3] ∧ representable 10 ∧
  ∃ c' h',
    Exact.Reserve 10 (St array123 heap123) = Ok tt (St c' h') ∧
    rep c' h' [1; 2; 3] ∧ m_capacity c' = 10.
Proof.
  split; [apply rep_array123|]. split; [apply representable_small; lia|].
  destruct (Reserve_exact array123 heap123 [1; 2; 3] 10 rep_array123
              (representable_small 10 ltac:(lia))) as (_ & _ & Hgrow & _).
  destruct Hgrow as (c' & h' & Hrun & _ & Hrep & Hcap); [simpl; lia|reflexivity|].
  exists c', h'. split; [exact Hrun|]. split; [exact Hrep|exact Hcap].
Defined.

(** Inserting, at index 1 of [{1, 2, 3}], the first element of the array
    [{7, 8}]. *)
Lemma EmplaceAt_contract_witness :
  rep array123 heap123_78 [1; 2; 3] ∧ m_size array123 < SIZE_MAX ∧ 0 ≤ 1 ∧
  refers_to array123 heap123_78 (element (Ref (Some 1%positive) 0)) 7 ∧
  ∃ c' h',
    Exact.Insert 1 (element (Ref (Some 1%positive) 0)) (St array123 heap123_78)
    = Ok tt (St c' h') ∧
    rep c' h' [1; 7; 2; 3].
Proof.
  pose proof SIZE_MAX_pos.
  assert (refers_to array123 heap123_78 (element (Ref (Some 1%positive) 0)) 7) as Harg.
  { split; [reflexivity|]. intros q [= <-]. discriminate. }
  split; [apply rep_array123_78|]. split; [simpl; lia|]. split; [lia|].
  split; [exact Harg|].
  destruct (EmplaceAt_contract array123 heap123_78 [1; 2; 3] 1
              (element (Ref (Some 1%positive) 0)) 7 rep_array123_78
              ltac:(simpl; lia) ltac:(lia) Harg
              ltac:(apply representable_small; vm_compute; split; intros ?; discriminate))
    as (_ & _ & Hin).
  destruct Hin as (c' & h' & _ & Hrun & Hrep & _); [simpl; lia|reflexivity|].
  exists c', h'. split; [exact Hrun|exact Hrep].
Defined.

(** Appending the braced list [{7, 8}] to [{1, 2, 3}]. *)
Lemma AddRange_contract_witness :
  rep array123 heap123_78 [1; 2; 3] ∧ ilist_holds array123 heap123_78 list78 [7; 8] ∧
  ∃ c' h', Exact.AddRange list78 (St array123 heap123_78) = Ok tt (St c' h') ∧
           rep c' h' [1; 2; 3; 7; 8] ∧ m_capacity c' = 5.
Proof.
  pose proof SIZE_MAX_pos.
  split; [apply rep_array123_78|]. split; [apply ilist_holds_78|].
  destruct (AddRange_contract array123 heap123_78 [1; 2; 3] list78 [7; 8]
              rep_array123_78 ilist_holds_78 ltac:(simpl; lia)
              ltac:(apply representable_small; vm_compute; split; intros ?; discriminate))
    as [_ Hgrow].
  destruct Hgrow as (c' & h' & Hrun & Hrep & _ & Hcap & _); [reflexivity|].
  exists c', h'. split; [exact Hrun|]. split; [exact Hrep|]. rewrite Hcap.
  unfold grown. simpl. change (3 / 2) with 1. lia.
Defined.

(** [Resize(5, 100)] on [{1, 2}] with capacity 4. *)
Lemma Resize_contract_witness :
  rep array12 heap12 [1; 2] ∧ 0 ≤ 5 ≤ SIZE_MAX ∧
  ∃ c' h', Exact.Resize_with 5 (outside 100) (St array12 heap12) = Ok tt (St c' h') ∧
           rep c' h' [1; 2; 100; 100; 100] ∧ m_capacity c' = 6.
Proof.
  pose proof SIZE_MAX_pos.
  split; [apply rep_array12|]. split; [lia|].
  destruct (Resize_contract array12 heap12 [1; 2] 5 (outside 100) 100 rep_array12
              ltac:(lia) eq_refl
              ltac:(apply representable_small; vm_compute; split; intros ?; discriminate))
    as [_ Hgrow].
  destruct Hgrow as (c' & h' & Hrun & Hrep & _ & Hcap & _); [reflexivity|].
  exists c', h'. split; [exact Hrun|]. split; [exact Hrep|]. rewrite Hcap.
  unfold grown. simpl. change (4 / 2) with 2. lia.
Defined.

(** [Reserve(10)] on [{1, 2, 3}], then [Add(4)] and [Add(5)]. *)
Lemma Reserve_then_Add_each_witness :
  rep array123 heap123 [1; 2; 3] ∧ m_size array123 + 2 ≤ 10 ∧ representable 10 ∧
  ∃ c1 h1 c2 h2,
    Exact.Reserve 10 (St array123 heap123) = Ok tt (St c1 h1) ∧
    Exact.Add_each [4; 5] (St c1 h1) = Ok tt (St c2 h2) ∧
    rep c2 h2 [1; 2; 3; 4; 5] ∧ m_data c2 = m_data c1.
Proof.
  split; [apply rep_array123|]. split; [simpl; lia|].
  split; [apply representable_small; lia|].
  destruct (Reserve_then_Add_each array123 heap123 [1; 2; 3] [4; 5] 10 rep_array123
              ltac:(simpl; lia) (representable_small 10 ltac:(lia))) as [_ Hgrow].
  destruct Hgrow as (c1 & h1 & c2 & h2 & Hres & Hadd & Hrep & Hd & _);
    [right; reflexivity|].
  exists c1, h1, c2, h2. split; [exact Hres|]. split; [exact Hadd|].
  split; [exact Hrep|exact Hd].
Defined.

(** [DynamicArray(3, 7)]. *)
Lemma ctor_fill_contract_witness :
  representable 3 ∧
  ∃ c' h', Exact.ctor_fill 3 (outside 7) (St empty_array (∅ : gmap positive (list (option Z))))
           = Ok tt (St c' h') ∧
           rep c' h' [7; 7; 7] ∧ m_capacity c' = 3.
Proof.
  split; [apply representable_small; lia|].
  destruct (ctor_fill_contract (∅ : gmap positive (list (option Z))) 3 (outside 7) 7
              (representable_small 3 ltac:(lia)) eq_refl) as [_ Hgrow].
  destruct Hgrow as (c' & h' & Hrun & Hrep & _ & Hcap & _); [reflexivity|].
  exists c', h'. split; [exact Hrun|]. split; [exact Hrep|exact Hcap].
Defined.


(** [Add(4)] on the full [{1, 2, 3}] asks for room for four elements. *)
Lemma member_call_returns_or_leaves_unchanged_witness :
  rep array123 heap123 [1; 2; 3] ∧
  Exact.in_range array123 heap123 (Exact.call_Add (outside 4)) ∧
  ∃ c' h',
    Exact.perform (Exact.call_Add (outside 4)) (St array123 heap123)
    = Ok VVoid (St c' h') ∧
    size_capacity_invariant c'.
Proof.
  pose proof SIZE_MAX_pos.
  assert (Exact.in_range array123 heap123 (Exact.call_Add (outside 4))) as Hin.
  { split; [simpl; lia|]. split; [by exists 4|].
    apply representable_small. vm_compute. split; intros ?; discriminate. }
  split; [apply rep_array123|]. split; [exact Hin|].
  destruct (member_call_returns_or_leaves_unchanged array123 heap123 [1; 2; 3]
              (Exact.call_Add (outside 4)) rep_array123 Hin)
    as [(r & c' & h' & Hrun & _ & Hinv & _)|[Hthrow|Hthrow]].
  - exists c', h'. split; [|exact Hinv].
    rewrite Hrun. vm_compute in Hrun. by injection Hrun as <- _.
  - vm_compute in Hthrow. discriminate.
  - vm_compute in Hthrow. discriminate.
Defined.

(** Swapping the two containers keeps each block with one owner. *)
Lemma operation_keeps_ownership_witness :
  world_ok two_arrays ∧
  Exact.operation_in_range two_arrays (Exact.op_Swap 1%positive 2%positive) ∧
  ∃ w',
    Exact.run_operation (Exact.op_Swap 1%positive 2%positive) two_arrays = Ok tt w' ∧
    (∀ o1 o2 c1 c2 q, objs w' !! o1 = Some c1 → objs w' !! o2 = Some c2 →
                      m_data c1 = Some q → m_data c2 = Some q → o1 = o2).
Proof.
  assert (Exact.operation_in_range two_arrays (Exact.op_Swap 1%positive 2%positive))
    as Hin by (split; eexists; reflexivity).
  split; [apply world_ok_two_arrays|]. split; [exact Hin|].
  destruct (operation_keeps_ownership two_arrays (Exact.op_Swap 1%positive 2%positive)
              world_ok_two_arrays Hin)
    as [(w' & Hrun & _ & Hown & _)|[Hthrow|Hthrow]].
  - exists w'. split; [exact Hrun|exact Hown].
  - vm_compute in Hthrow. discriminate.
  - vm_compute in Hthrow. discriminate.
Defined.
